(** * luxe: audio scheduler and point-cloud scene, verified against the source

    The development embeds three parts of the repository:

    - [Audio]: the module-level state of [src/utils/audioUtils.ts] (the
      audio context, the two timer handles, the cursor [nextNoteTime] and
      [scoreIndex]), the host timer queue, [scheduleNote], the two
      scheduler callbacks and the two toggle functions;
    - [Scene]: the click handler and the per-frame [render] function of the
      car scene (animation state, morph scaling, projection, bounds
      accumulation, depth sort), and the generator's [add];
    - [Diamond]: the helpers, the point generator, the click handler and the
      per-frame point list of [src/components/DiamondCar.tsx].

    Number model: a JavaScript number is an exact rational ([Q]).  IEEE
    rounding, NaN and the infinities are outside the model.  Where a
    statement is about one sequence of operations it is stated with
    Leibniz equality on the very term the code computes, otherwise with
    [==] on [Q].  [Math.sin], [Math.cos] are parameters of the scene
    section, [Math.random] draws are inputs.  A division by zero is 0 in
    [Q] where the source gets NaN or an infinity; the statements that
    depend on a quotient take the divisor to be non-zero.

    Where rounding decides, the code is embedded on binary64 numbers as
    well: [Doubles] is the scheduler loop on the kernel's floats, and the
    store into the [Float32Array] of the noise buffer is a rounding
    function. *)

From Stdlib Require Import QArith Qround Qminmax Qpower Lia Lqa Sorted.
From Stdlib Require Floats.
From stdpp Require Import base option list strings gmap.

Local Open Scope Q_scope.

(** ** Shared helpers *)

(** [a < b] on JavaScript numbers. *)
Definition Qlt_bool (a b : Q) : bool := negb (Qle_bool b a).

(** Outcome of a piece of code that loops and may throw. *)
Inductive result (A : Type) : Type :=
  | Ok (a : A)
  | Throw
  | OutOfFuel.
Arguments Ok {A} a.
Arguments Throw {A}.
Arguments OutOfFuel {A}.

Definition bind {A B : Type} (r : result A) (k : A -> result B) : result B :=
  match r with
  | Ok a => k a
  | Throw => Throw
  | OutOfFuel => OutOfFuel
  end.

Module Audio.

(** ** Score data *)

(** [type NoteEvent = [string | null, number]] *)
Abbreviation NoteEvent := (option string * Q)%type.

Definition NOTES : gmap string Q :=
  list_to_map
    [ ("C4"%string, 261.63); ("D4"%string, 293.66); ("E4"%string, 329.63);
      ("F4"%string, 349.23); ("G4"%string, 392.00); ("A4"%string, 440.00);
      ("B4"%string, 493.88); ("C5"%string, 523.25); ("D5"%string, 587.33);
      ("E5"%string, 659.25); ("F5"%string, 698.46); ("G5"%string, 783.99) ].

Definition JINGLE_BELLS : list NoteEvent :=
  [ (Some "E5"%string, 1); (Some "E5"%string, 1); (Some "E5"%string, 2);
    (Some "E5"%string, 1); (Some "E5"%string, 1); (Some "E5"%string, 2);
    (Some "E5"%string, 1); (Some "G5"%string, 1); (Some "C5"%string, 1.5);
    (Some "D5"%string, 0.5); (Some "E5"%string, 4) ].

Definition DISNEY_THEME : list NoteEvent :=
  [ (Some "C4"%string, 0.25); (Some "E4"%string, 0.25);
    (Some "G4"%string, 0.25); (Some "C5"%string, 0.25);
    (Some "E5"%string, 0.25); (Some "G5"%string, 0.25);
    (Some "C6"%string, 0.5); (None, 0.5);
    (Some "G5"%string, 1); (Some "E5"%string, 0.5); (Some "F5"%string, 0.5);
    (Some "G5"%string, 2);
    (Some "A5"%string, 0.5); (Some "G5"%string, 0.5); (Some "F5"%string, 0.5);
    (Some "E5"%string, 0.5); (Some "D5"%string, 2);
    (Some "E5"%string, 0.5); (Some "F5"%string, 0.5); (Some "G5"%string, 1);
    (Some "C5"%string, 1);
    (Some "A5"%string, 1.5); (Some "G5"%string, 0.5); (Some "C6"%string, 2) ].

(** [{ ...NOTES, 'C6': ..., 'G5': ..., 'A5': ..., 'F5': ... }] *)
Definition DISNEY_NOTES : gmap string Q :=
  <["F5"%string := 698.46]>
    (<["A5"%string := 880.00]>
       (<["G5"%string := 783.99]>
          (<["C6"%string := 1046.50]> NOTES))).

Definition TEMPO : Q := 140.
Definition SECONDS_PER_BEAT : Q := 60 / TEMPO.
Definition LOOKAHEAD : Q := 0.1.
Definition SCHEDULE_AHEAD_TIME : Q := 0.1.

(** ** The audio graph *)

Inductive OscType : Type := sawtooth | square | triangle | sine.

(** One automation call on a gain parameter. *)
Inductive GainEvent : Type :=
  | setValueAtTime (v t : Q)
  | linearRampToValueAtTime (v t : Q)
  | exponentialRampToValueAtTime (v t : Q).

(** An oscillator connected through its gain node to the destination, with
    the times given to [start] and [stop]. *)
Record Oscillator : Type := mkOsc {
  osc_type : OscType;
  osc_frequency : Q;
  osc_gain : list GainEvent;
  osc_start : Q;
  osc_stop : Q
}.

(** The audio context, as far as this module uses it: the oscillators
    started on it, oldest first.  Its clock [currentTime] is advanced by the
    audio subsystem between the calls into this module; each entry point
    takes the reading it sees as its argument [now], one reading per call.
    Whether the context is suspended ([ctx.state], [ctx.resume()]) only
    decides whether that clock runs and is not part of the state. *)
Definition AudioContext : Type := list Oscillator.

Inductive Timbre : Type := bell | orchestra.

(** ** Module state and host timers *)

(** The two functions handed to [window.setTimeout]. *)
Inductive Callback : Type := treeCb | castleCb.

Record Timer : Type := mkTimer {
  timer_id : nat;
  timer_cb : Callback;
  timer_delay : Q  (* milliseconds *)
}.

(** One invocation of [scheduleNote], recorded for the statements about
    order and start times (a rest leaves no oscillator behind). *)
Record Call : Type := mkCall {
  call_note : option string;
  call_duration : Q;
  call_time : Q;
  call_type : Timbre
}.

Record World : Type := mkWorld {
  audioCtx : option AudioContext;
  musicScheduler : option nat;
  castleMusicScheduler : option nat;
  nextNoteTime : Q;
  scoreIndex : nat;
  (* host: pending timeouts and the next handle [setTimeout] returns *)
  timers : list Timer;
  nextTimerId : nat;
  (* history of the [scheduleNote] invocations, oldest first *)
  calls : list Call
}.

Definition initial : World :=
  {| audioCtx := None; musicScheduler := None; castleMusicScheduler := None;
     nextNoteTime := 0; scoreIndex := 0%nat;
     timers := []; nextTimerId := 1%nat; calls := [] |}.

Definition set_audioCtx (c : option AudioContext) (w : World) : World :=
  mkWorld c (musicScheduler w) (castleMusicScheduler w) (nextNoteTime w)
          (scoreIndex w) (timers w) (nextTimerId w) (calls w).
Definition set_musicScheduler (h : option nat) (w : World) : World :=
  mkWorld (audioCtx w) h (castleMusicScheduler w) (nextNoteTime w)
          (scoreIndex w) (timers w) (nextTimerId w) (calls w).
Definition set_castleMusicScheduler (h : option nat) (w : World) : World :=
  mkWorld (audioCtx w) (musicScheduler w) h (nextNoteTime w)
          (scoreIndex w) (timers w) (nextTimerId w) (calls w).
Definition set_nextNoteTime (t : Q) (w : World) : World :=
  mkWorld (audioCtx w) (musicScheduler w) (castleMusicScheduler w) t
          (scoreIndex w) (timers w) (nextTimerId w) (calls w).
Definition set_scoreIndex (i : nat) (w : World) : World :=
  mkWorld (audioCtx w) (musicScheduler w) (castleMusicScheduler w)
          (nextNoteTime w) i (timers w) (nextTimerId w) (calls w).
Definition set_timers (ts : list Timer) (w : World) : World :=
  mkWorld (audioCtx w) (musicScheduler w) (castleMusicScheduler w)
          (nextNoteTime w) (scoreIndex w) ts (nextTimerId w) (calls w).
Definition set_nextTimerId (n : nat) (w : World) : World :=
  mkWorld (audioCtx w) (musicScheduler w) (castleMusicScheduler w)
          (nextNoteTime w) (scoreIndex w) (timers w) n (calls w).
Definition set_calls (cs : list Call) (w : World) : World :=
  mkWorld (audioCtx w) (musicScheduler w) (castleMusicScheduler w)
          (nextNoteTime w) (scoreIndex w) (timers w) (nextTimerId w) cs.

(** [getCtx]: create the context on first use. *)
Definition getCtx (w : World) : World :=
  match audioCtx w with
  | None => set_audioCtx (Some []) w
  | Some _ => w
  end.

(** [window.setTimeout(cb, delay)]: queue the callback, return a fresh
    handle. *)
Definition setTimeout (cb : Callback) (delay : Q) (w : World) : nat * World :=
  let h := nextTimerId w in
  (h, set_nextTimerId (S h) (set_timers (timers w ++ [mkTimer h cb delay]) w)).

(** [clearTimeout(h)] *)
Definition clearTimeout (h : nat) (w : World) : World :=
  set_timers (filter (fun t => timer_id t ≠ h) (timers w)) w.

(** ** [scheduleNote] *)

(** [table[note] || 440] for a name that is an own key of the table, or that
    the table does not have at all: a missing entry and a zero entry both
    fall back.  A name the object literal inherits ([constructor],
    [toString], ...) yields a function in the source and is not covered;
    the schedulers pass the notes of the two scores only, which are own
    keys. *)
Definition frequency (table : gmap string Q) (note : string) : Q :=
  match table !! note with
  | Some f => if Qeq_bool f 0 then 440 else f
  | None => 440
  end.

(** The oscillators one call creates, in the order they are started. *)
Definition voices (note : string) (duration time : Q) (type : Timbre)
  : list Oscillator :=
  match type with
  | bell =>
      [ mkOsc triangle (frequency NOTES note)
          [ setValueAtTime 0 time;
            linearRampToValueAtTime 0.15 (time + 0.05);
            linearRampToValueAtTime 0 (time + duration * SECONDS_PER_BEAT) ]
          time (time + duration * SECONDS_PER_BEAT + 1) ]
  | orchestra =>
      [ mkOsc triangle (frequency DISNEY_NOTES note)
          [ setValueAtTime 0 time;
            linearRampToValueAtTime 0.05 (time + 0.1);
            linearRampToValueAtTime 0 (time + duration * SECONDS_PER_BEAT) ]
          time (time + duration * SECONDS_PER_BEAT + 1);
        mkOsc sine (frequency DISNEY_NOTES note)
          [ setValueAtTime 0 time;
            linearRampToValueAtTime 0.1 (time + 0.1);
            exponentialRampToValueAtTime 0.001
              (time + duration * SECONDS_PER_BEAT + 0.5) ]
          time (time + duration * SECONDS_PER_BEAT + 1) ]
  end.

(** The table a timbre reads its frequencies from. *)
Definition table_of (type : Timbre) : gmap string Q :=
  match type with bell => NOTES | orchestra => DISNEY_NOTES end.

Definition scheduleNote (note : option string) (duration time : Q)
    (type : Timbre) (w : World) : World :=
  let w := set_calls (calls w ++ [mkCall note duration time type]) w in
  match audioCtx w with
  | None => w                                   (* if (!audioCtx) return *)
  | Some ctx =>
      match note with
      | None => w                               (* if (!note) return: null *)
      | Some s =>
          if String.eqb s EmptyString then w             (* ... and the empty string *)
          else set_audioCtx (Some (ctx ++ voices s duration time type)) w
      end
  end.

(** ** The schedulers *)

(** One turn of the [while] loop shared by [treeScheduler] and
    [castleScheduler]; they differ in the score and the timbre only.
    Reading an index outside the score destructures [undefined], which
    throws.  The cursor is added up exactly here; [Doubles.loop_body] is
    the same turn with the additions rounded. *)
Definition loop_body (score : list NoteEvent) (type : Timbre) (w : World)
  : result World :=
  match score !! scoreIndex w with
  | None => Throw
  | Some (note, duration) =>
      let w := scheduleNote note duration (nextNoteTime w) type w in
      let w := set_nextNoteTime
                 (nextNoteTime w + duration * SECONDS_PER_BEAT) w in
      let w := set_scoreIndex
                 ((scoreIndex w + 1) `mod` length score)%nat w in
      Ok w
  end.

(** [while (nextNoteTime < audioCtx.currentTime + SCHEDULE_AHEAD_TIME)] *)
Fixpoint drain (fuel : nat) (score : list NoteEvent) (type : Timbre)
    (now : Q) (w : World) : result World :=
  match fuel with
  | O => OutOfFuel
  | S fuel' =>
      if Qlt_bool (nextNoteTime w) (now + SCHEDULE_AHEAD_TIME) then
        bind (loop_body score type w) (drain fuel' score type now)
      else Ok w
  end.

Definition treeScheduler (fuel : nat) (now : Q) (w : World) : result World :=
  match audioCtx w with
  | None => Ok w
  | Some _ =>
      bind (drain fuel JINGLE_BELLS bell now w) (fun w =>
        let (h, w) := setTimeout treeCb (LOOKAHEAD * 1000) w in
        Ok (set_musicScheduler (Some h) w))
  end.

Definition castleScheduler (fuel : nat) (now : Q) (w : World) : result World :=
  match audioCtx w with
  | None => Ok w
  | Some _ =>
      bind (drain fuel DISNEY_THEME orchestra now w) (fun w =>
        let (h, w) := setTimeout castleCb (LOOKAHEAD * 1000) w in
        Ok (set_castleMusicScheduler (Some h) w))
  end.

Definition toggleChristmasMusic (fuel : nat) (shouldPlay : bool) (now : Q)
    (w : World) : result World :=
  let w := getCtx w in   (* then [ctx.resume()] if suspended, see above *)
  if shouldPlay then
    match musicScheduler w, castleMusicScheduler w with
    | None, None =>
        let w := set_nextNoteTime (now + 0.1) w in
        let w := set_scoreIndex 0%nat w in
        treeScheduler fuel now w
    | _, _ => Ok w
    end
  else
    match musicScheduler w with
    | Some h => Ok (set_musicScheduler None (clearTimeout h w))
    | None => Ok w
    end.

Definition toggleDisneyMusic (fuel : nat) (shouldPlay : bool) (now : Q)
    (w : World) : result World :=
  let w := getCtx w in   (* then [ctx.resume()] if suspended, see above *)
  if shouldPlay then
    match castleMusicScheduler w, musicScheduler w with
    | None, None =>
        let w := set_nextNoteTime (now + 0.1) w in
        let w := set_scoreIndex 0%nat w in
        castleScheduler fuel now w
    | _, _ => Ok w
    end
  else
    match castleMusicScheduler w with
    | Some h => Ok (set_castleMusicScheduler None (clearTimeout h w))
    | None => Ok w
    end.

(** The host runs a pending timeout: it leaves the queue and its callback is
    called with the clock reading [now].  Firing a handle that is not
    pending does nothing. *)
Definition fire (fuel : nat) (h : nat) (now : Q) (w : World) : result World :=
  match List.find (fun t => Nat.eqb (timer_id t) h) (timers w) with
  | None => Ok w
  | Some t =>
      let w := clearTimeout h w in
      match timer_cb t with
      | treeCb => treeScheduler fuel now w
      | castleCb => castleScheduler fuel now w
      end
  end.

(** ** Driving the module *)

(** What can happen to the module: the UI calls a toggle, or the host runs
    a timeout.  Each carries the clock reading the code sees. *)
Inductive Event : Type :=
  | EToggleChristmas (shouldPlay : bool) (now : Q)
  | EToggleDisney (shouldPlay : bool) (now : Q)
  | EFire (h : nat) (now : Q).

Definition exec (fuel : nat) (e : Event) (w : World) : result World :=
  match e with
  | EToggleChristmas b now => toggleChristmasMusic fuel b now w
  | EToggleDisney b now => toggleDisneyMusic fuel b now w
  | EFire h now => fire fuel h now w
  end.

Inductive reachable : World -> Prop :=
  | reach_initial : reachable initial
  | reach_exec w fuel e w' :
      reachable w -> exec fuel e w = Ok w' -> reachable w'.

(** The two melodies, named by their callback. *)
Definition score_of (m : Callback) : list NoteEvent :=
  match m with treeCb => JINGLE_BELLS | castleCb => DISNEY_THEME end.
Definition timbre_of (m : Callback) : Timbre :=
  match m with treeCb => bell | castleCb => orchestra end.
Definition handle_of (m : Callback) (w : World) : option nat :=
  match m with
  | treeCb => musicScheduler w
  | castleCb => castleMusicScheduler w
  end.
Definition toggle (m : Callback) (fuel : nat) (shouldPlay : bool) (now : Q)
    (w : World) : result World :=
  match m with
  | treeCb => toggleChristmasMusic fuel shouldPlay now w
  | castleCb => toggleDisneyMusic fuel shouldPlay now w
  end.

(** The callback of melody [m] and the variable holding its handle. *)
Definition scheduler_of (m : Callback) : nat -> Q -> World -> result World :=
  match m with treeCb => treeScheduler | castleCb => castleScheduler end.
Definition set_handle (m : Callback) (h : option nat) (w : World) : World :=
  match m with
  | treeCb => set_musicScheduler h w
  | castleCb => set_castleMusicScheduler h w
  end.
Definition other (m : Callback) : Callback :=
  match m with treeCb => castleCb | castleCb => treeCb end.

(** One tick: the host runs the oldest pending timeout at clock [now]. *)
Definition tick (fuel : nat) (now : Q) (w : World) : result World :=
  match timers w with
  | [] => Ok w
  | t :: _ => fire fuel (timer_id t) now w
  end.

Fixpoint ticks (fuel : nat) (nows : list Q) (w : World) : result World :=
  match nows with
  | [] => Ok w
  | now :: nows' => bind (tick fuel now w) (ticks fuel nows')
  end.

(** Start melody [m] at clock [now0], then tick at each reading of [nows]. *)
Definition play (fuel : nat) (m : Callback) (now0 : Q) (nows : list Q)
    (w : World) : result World :=
  bind (toggle m fuel true now0 w) (ticks fuel nows).

(** The calls a run added to the history. *)
Definition new_calls (w w' : World) : list Call :=
  drop (length (calls w)) (calls w').

(** ** The score as a cyclic sequence *)

(** The event played as the [j]-th note of a run. *)
Definition cyc (score : list NoteEvent) (j : nat) : NoteEvent :=
  default (None, 0) (score !! (j `mod` length score)%nat).

(** Sum of the durations (in beats) of the first [k] notes of a run. *)
Definition beats_before (score : list NoteEvent) (k : nat) : Q :=
  foldr Qplus 0 (map (fun j => (cyc score j).2) (seq 0 k)).

(** The cursor after [k] notes, computed as the code does: one addition of
    [duration * SECONDS_PER_BEAT] per note, in order. *)
Definition cursor (score : list NoteEvent) (t0 : Q) (k : nat) : Q :=
  fold_left (fun t ev => t + ev.2 * SECONDS_PER_BEAT)
            (map (cyc score) (seq 0 k)) t0.

Definition call_at (score : list NoteEvent) (type : Timbre) (t0 : Q)
    (j : nat) : Call :=
  mkCall (cyc score j).1 (cyc score j).2 (cursor score t0 j) type.

Definition stream (score : list NoteEvent) (type : Timbre) (t0 : Q)
    (k : nat) : list Call :=
  map (call_at score type t0) (seq 0 k).

(** ** Predicates used by the statements *)

(** The part of the state the [while] loop never writes. *)
Definition same_host (w w' : World) : Prop :=
  musicScheduler w' = musicScheduler w /\
  castleMusicScheduler w' = castleMusicScheduler w /\
  timers w' = timers w /\
  nextTimerId w' = nextTimerId w /\
  (is_Some (audioCtx w) -> is_Some (audioCtx w')).

(** [k] notes into a run that started with cursor [t0] and history [base]. *)
Definition phase (score : list NoteEvent) (type : Timbre) (t0 : Q)
    (base : list Call) (k : nat) (w : World) : Prop :=
  scoreIndex w = (k `mod` length score)%nat /\
  nextNoteTime w = cursor score t0 k /\
  calls w = base ++ stream score type t0 k.

(** A handle is set exactly while its callback is the one pending timeout. *)
Definition pending_ok (w : World) : Prop :=
  match musicScheduler w, castleMusicScheduler w with
  | None, None => timers w = []
  | Some h, None =>
      timers w = [mkTimer h treeCb (LOOKAHEAD * 1000)] /\
      (scoreIndex w < length JINGLE_BELLS)%nat
  | None, Some h =>
      timers w = [mkTimer h castleCb (LOOKAHEAD * 1000)] /\
      (scoreIndex w < length DISNEY_THEME)%nat
  | Some _, Some _ => False
  end.

Definition Inv (w : World) : Prop :=
  pending_ok w /\ (timers w <> [] -> is_Some (audioCtx w)).

(** Melody [m] is the running one, [k] notes into its run. *)
Definition playing (m : Callback) (t0 : Q) (base : list Call) (k : nat)
    (w : World) : Prop :=
  phase (score_of m) (timbre_of m) t0 base k w /\
  (exists h, handle_of m w = Some h /\
             timers w = [mkTimer h m (LOOKAHEAD * 1000)]) /\
  handle_of (other m) w = None /\
  is_Some (audioCtx w).

(** Every note of both scores lasts at least a quarter beat, that is
    [3/28] of a second. *)
Definition min_step : Q := 0.25 * SECONDS_PER_BEAT.

(** ** Sample states *)

(** The bell melody just started at clock 0. *)
Definition tree_started : World :=
  Eval vm_compute in
    match toggleChristmasMusic 1 true 0 initial with
    | Ok w => w
    | _ => initial
    end.

(** The orchestral melody started at clock 0 and ticked at clocks 0.15 and
    0.7: seven events are out and the index stands at the eighth event of
    the score, its rest. *)
Definition castle_at_rest : World :=
  Eval vm_compute in
    match play 10 castleCb 0 [0.15; 0.7] initial with
    | Ok w => w
    | _ => initial
    end.

(** ** The audio graph against the history *)

(** The oscillators one recorded call created. *)
Definition call_voices (c : Call) : list Oscillator :=
  match call_note c with
  | None => []
  | Some s =>
      if String.eqb s EmptyString then []
      else voices s (call_duration c) (call_time c) (call_type c)
  end.

Definition graph_of (cs : list Call) : list Oscillator :=
  concat (map call_voices cs).

(** The context holds exactly the oscillators of the recorded calls; without
    a context nothing was ever scheduled. *)
Definition graph_in_sync (w : World) : Prop :=
  match audioCtx w with
  | None => calls w = []
  | Some ctx => ctx = graph_of (calls w)
  end.

(** The call plays an event of one of the two scores with that melody's
    timbre. *)
Definition call_from_scores (c : Call) : Prop :=
  exists m, (call_note c, call_duration c) ∈ score_of m /\
            call_type c = timbre_of m.

Definition event_time (e : GainEvent) : Q :=
  match e with
  | setValueAtTime _ t
  | linearRampToValueAtTime _ t
  | exponentialRampToValueAtTime _ t => t
  end.

Definition event_value (e : GainEvent) : Q :=
  match e with
  | setValueAtTime v _
  | linearRampToValueAtTime v _
  | exponentialRampToValueAtTime v _ => v
  end.

(** The gain automation starts silent at the oscillator's start, its events
    come at strictly increasing times, none after the oscillator stops, and
    every exponential ramp has a positive target. *)
Definition envelope_ok (o : Oscillator) : Prop :=
  (exists rest, osc_gain o = setValueAtTime 0 (osc_start o) :: rest) /\
  StronglySorted Qlt (map event_time (osc_gain o)) /\
  Forall (fun e => event_time e <= osc_stop o) (osc_gain o) /\
  Forall (fun e => match e with
                   | exponentialRampToValueAtTime v _ => 0 < v
                   | _ => True
                   end) (osc_gain o).

(** What every reachable state keeps of the two. *)
Definition audio_inv (w : World) : Prop :=
  graph_in_sync w /\ Forall call_from_scores (calls w).

(** ** The firework noise buffer *)

(** The samples [playFireworkSound] writes: [data[i] = Math.random() * 2 - 1]
    for [i < bufferSize], with [bufferSize = ctx.sampleRate * 2] and
    [rand i] the draw of turn [i].  [data] is the [Float32Array] of the
    buffer's channel, so the store rounds the number to binary32.  [fround]
    is what becomes of the exact value of the right-hand side on its way
    into the array: the rounding of the subtraction to binary64, then that
    of the store. *)
Definition noiseSamples (fround : Q -> Q) (sampleRate : nat)
    (rand : nat -> Q) : list Q :=
  map (fun i => fround (rand i * 2 - 1)) (seq 0 (sampleRate * 2)).

(** Rounding to the nearest multiple of [2^-24], which is the spacing of the
    binary32 numbers between 1/2 and 1: there it is the rounding of the
    store, but for the direction of ties. *)
Definition round24 (x : Q) : Q :=
  inject_Z (Qfloor (x * 16777216 + (1 # 2))) / 16777216.

End Audio.

(** ** The scheduler loop on binary64 numbers

    [Audio] adds the cursor up in exact rationals.  The source adds IEEE 754
    doubles, and each [nextNoteTime += duration * SECONDS_PER_BEAT] rounds.
    This module repeats the part of [src/utils/audioUtils.ts] that decides
    the start times, on the kernel's binary64 numbers: the start of a melody
    ([nextNoteTime = ctx.currentTime + 0.1; scoreIndex = 0]) and the [while]
    loop of [treeScheduler] and [castleScheduler].  The state is the cursor,
    the index and the invocations of [scheduleNote]; handles, timers and the
    audio graph, which the loop neither reads nor writes, are left to
    [Audio].  The context exists once a melody has been started, so the
    guard [if (!audioCtx) return] of the schedulers does not fire; its
    clock [currentTime] is the argument [now]. *)
Module Doubles.
Import PrimFloat.
Local Open Scope float_scope.
#[local] Set Warnings "-inexact-float".

Abbreviation NoteEvent := (option string * float)%type.

Definition JINGLE_BELLS : list NoteEvent :=
  [ (Some "E5"%string, 1); (Some "E5"%string, 1); (Some "E5"%string, 2);
    (Some "E5"%string, 1); (Some "E5"%string, 1); (Some "E5"%string, 2);
    (Some "E5"%string, 1); (Some "G5"%string, 1); (Some "C5"%string, 1.5);
    (Some "D5"%string, 0.5); (Some "E5"%string, 4) ].

Definition DISNEY_THEME : list NoteEvent :=
  [ (Some "C4"%string, 0.25); (Some "E4"%string, 0.25);
    (Some "G4"%string, 0.25); (Some "C5"%string, 0.25);
    (Some "E5"%string, 0.25); (Some "G5"%string, 0.25);
    (Some "C6"%string, 0.5); (None, 0.5);
    (Some "G5"%string, 1); (Some "E5"%string, 0.5); (Some "F5"%string, 0.5);
    (Some "G5"%string, 2);
    (Some "A5"%string, 0.5); (Some "G5"%string, 0.5); (Some "F5"%string, 0.5);
    (Some "E5"%string, 0.5); (Some "D5"%string, 2);
    (Some "E5"%string, 0.5); (Some "F5"%string, 0.5); (Some "G5"%string, 1);
    (Some "C5"%string, 1);
    (Some "A5"%string, 1.5); (Some "G5"%string, 0.5); (Some "C6"%string, 2) ].

Definition TEMPO : float := 140.
Definition SECONDS_PER_BEAT : float := 60 / TEMPO.
Definition SCHEDULE_AHEAD_TIME : float := 0.1.

(** One invocation [scheduleNote(note, duration, time, type)]; the timbre is
    fixed by the scheduler and plays no part in the times. *)
Record Call : Type := mkCall {
  call_note : option string;
  call_duration : float;
  call_time : float
}.

Record State : Type := mkState {
  nextNoteTime : float;
  scoreIndex : nat;
  calls : list Call
}.

(** One turn of the [while] loop. *)
Definition loop_body (score : list NoteEvent) (s : State) : result State :=
  match score !! scoreIndex s with
  | None => Throw
  | Some (note, duration) =>
      Ok {| nextNoteTime := nextNoteTime s + duration * SECONDS_PER_BEAT;
            scoreIndex := ((scoreIndex s + 1) `mod` length score)%nat;
            calls := calls s ++ [mkCall note duration (nextNoteTime s)] |}
  end.

(** [while (nextNoteTime < audioCtx.currentTime + SCHEDULE_AHEAD_TIME)] *)
Fixpoint drain (fuel : nat) (score : list NoteEvent) (now : float)
    (s : State) : result State :=
  match fuel with
  | O => OutOfFuel
  | S fuel' =>
      if nextNoteTime s <? now + SCHEDULE_AHEAD_TIME then
        bind (loop_body score s) (drain fuel' score now)
      else Ok s
  end.

Fixpoint ticks (fuel : nat) (score : list NoteEvent) (nows : list float)
    (s : State) : result State :=
  match nows with
  | [] => Ok s
  | now :: nows' => bind (drain fuel score now s) (ticks fuel score nows')
  end.

(** A fresh start at clock [now0], which runs the scheduler once, then one
    run of the scheduler at each reading of [nows]. *)
Definition play (fuel : nat) (score : list NoteEvent) (now0 : float)
    (nows : list float) : result State :=
  bind (drain fuel score now0
          {| nextNoteTime := now0 + 0.1; scoreIndex := 0%nat; calls := [] |})
       (ticks fuel score nows).

(** The list [l] is what the loop hands over starting with index [i] and
    cursor [t]: the event at the index, at the cursor, then the index moves
    by one modulo the length and the cursor by the rounded
    [duration * SECONDS_PER_BEAT]; [i'] and [t'] are where it ends. *)
Inductive chained (score : list NoteEvent)
  : nat -> float -> list Call -> nat -> float -> Prop :=
  | chained_nil i t : chained score i t [] i t
  | chained_cons i t note d l i' t' :
      score !! i = Some (note, d) ->
      chained score ((i + 1) `mod` length score)%nat
              (t + d * SECONDS_PER_BEAT) l i' t' ->
      chained score i t (mkCall note d t :: l) i' t'.

(** The closed form of the start time of the [j]-th note of a run: the
    initial cursor plus the durations of the earlier notes, summed, times
    [60 / 140]. *)
Definition cyc (score : list NoteEvent) (j : nat) : NoteEvent :=
  default (None, 0) (score !! (j `mod` length score)%nat).

Definition beats_before (score : list NoteEvent) (j : nat) : float :=
  fold_left (fun b k => b + (cyc score k).2) (seq 0 j) 0.

Definition closed_form (score : list NoteEvent) (t0 : float) (j : nat)
  : float :=
  t0 + beats_before score j * (60 / 140).

End Doubles.

Module Scene.

(** ** Data of the car scene *)

Inductive Part : Type :=
  | body | door_left | door_right | wheel | light_front | light_rear
  | glass | balloon | string_.

(** [Point3D]: the jittered coordinates [x], [y], [z] (here [jx], [jy],
    [jz]; [render] never reads them) and the base coordinates [nx], [ny],
    [nz]. *)
Record Point3D : Type := mkPoint {
  jx : Q; jy : Q; jz : Q;
  baseColor : string;
  part : Part;
  nx : Q; ny : Q; nz : Q;
  sparkleOffset : Q
}.

Record Particle : Type := mkParticle {
  par_x : Q; par_y : Q; par_z : Q;
  vx : Q; vy : Q; vz : Q;
  life : Q; maxLife : Q;
  color : string;
  scale : Q
}.

Record Bounds : Type := mkBounds { minX : Q; maxX : Q; minY : Q; maxY : Q }.

Record AllBounds : Type := mkAllBounds {
  leftDoor : Bounds;
  rightDoor : Bounds;
  car : Bounds
}.

(** The refs of the component. *)
Record Refs : Type := mkRefs {
  angleRef : Q;
  hoverYRef : Q;
  morphRef : Q;
  targetLeftDoor : Q;
  targetRightDoor : Q;
  valLeftDoor : Q;
  valRightDoor : Q;
  particlesRef : list Particle;
  timeRef : Q;
  wheelRotationRef : Q;
  boundsRef : AllBounds
}.

Definition emptyBounds : Bounds := mkBounds 10000 (-10000) 10000 (-10000).

Definition initialRefs (quarterPi : Q) : Refs :=
  mkRefs quarterPi 0 0 0 0 0 0 [] 0 0
         (mkAllBounds emptyBounds emptyBounds emptyBounds).

(** An entry of [renderList]. *)
Inductive RenderItem : Type :=
  | PointItem (x y z : Q) (color : string) (sparkle : Q) (part : Part)
  | HeartItem (x y z : Q) (color : string) (life scale : Q).

Definition item_x (it : RenderItem) : Q :=
  match it with PointItem x _ _ _ _ _ | HeartItem x _ _ _ _ _ => x end.
Definition item_y (it : RenderItem) : Q :=
  match it with PointItem _ y _ _ _ _ | HeartItem _ y _ _ _ _ => y end.
Definition item_z (it : RenderItem) : Q :=
  match it with PointItem _ _ z _ _ _ | HeartItem _ _ z _ _ _ => z end.

(** [const depth = 1000 - item.z] *)
Definition depth (it : RenderItem) : Q := 1000 - item_z it.

(** What the draw loop puts on the canvas, in order. *)
Inductive DrawCmd : Type :=
  | DrawHeart (screenX screenY s alpha : Q) (color : string)
  | DrawRect (left top size : Q) (color : string) (shadowBlur : Q).

(** ** Hit testing: [handleClick] *)


(** What a click causes besides the writes to the refs. *)
Record ClickEffects : Type := mkEffects {
  stopPropagation : bool;
  playEngineSound : bool
}.

(** [x >= b.minX - margin && x <= b.maxX + margin && y >= b.minY - margin
     && y <= b.maxY + margin] *)
Definition inExpanded (margin : Q) (b : Bounds) (x y : Q) : bool :=
  Qle_bool (minX b - margin) x && Qle_bool x (maxX b + margin) &&
  Qle_bool (minY b - margin) y && Qle_bool y (maxY b + margin).

(** [x >= b.minX && x <= b.maxX && y >= b.minY && y <= b.maxY] *)
Definition inPlain (b : Bounds) (x y : Q) : bool :=
  Qle_bool (minX b) x && Qle_bool x (maxX b) &&
  Qle_bool (minY b) y && Qle_bool y (maxY b).

Definition set_targetLeftDoor (v : Q) (s : Refs) : Refs :=
  mkRefs (angleRef s) (hoverYRef s) (morphRef s) v (targetRightDoor s)
         (valLeftDoor s) (valRightDoor s) (particlesRef s) (timeRef s)
         (wheelRotationRef s) (boundsRef s).
Definition set_targetRightDoor (v : Q) (s : Refs) : Refs :=
  mkRefs (angleRef s) (hoverYRef s) (morphRef s) (targetLeftDoor s) v
         (valLeftDoor s) (valRightDoor s) (particlesRef s) (timeRef s)
         (wheelRotationRef s) (boundsRef s).

(** [target > 0.5 ? 0 : 1] *)
Definition flip (target : Q) : Q := if Qlt_bool 0.5 target then 0 else 1.

Definition margin : Q := 20.

(** The body of [handleClick] from the scaled coordinates on. *)
Definition resolveClick (isLightsOn : bool) (x y : Q) (s : Refs)
  : Refs * ClickEffects :=
  let b := boundsRef s in
  let inLeft := inExpanded margin (leftDoor b) x y in
  let inRight := inExpanded margin (rightDoor b) x y in
  let stop := inLeft || inRight in
  if inLeft then
    (if isLightsOn then s else set_targetLeftDoor (flip (targetLeftDoor s)) s,
     mkEffects stop false)
  else if inRight then
    (if isLightsOn then s else set_targetRightDoor (flip (targetRightDoor s)) s,
     mkEffects stop false)
  else
    let inCar := inPlain (car b) x y in
    (s, mkEffects stop inCar).


(** ** The frame: [render] *)

(** The [Math.random()] draws one frame may consume. *)
Record Draws : Type := mkDraws {
  d_spawn : Q; d_z : Q; d_vx : Q; d_vy : Q; d_vz : Q; d_color : Q; d_scale : Q
}.

Definition centerX : Q := 400.
Definition centerY : Q := 400.

(** The door targets a frame steers to: [tLeft], [tRight]. *)
Definition doorTargets (isLightsOn : bool) (s : Refs) : Q * Q :=
  if isLightsOn then (0, 0) else (targetLeftDoor s, targetRightDoor s).

(** The animation state of the next frame (everything [render] does up to
    clearing the canvas and resetting the bounds). *)
Definition animate (isLightsOn : bool) (s : Refs) : Refs :=
  let time := timeRef s + 0.02 in
  let targetY := if isLightsOn then 140 else 0 in
  let hoverY := hoverYRef s + (targetY - hoverYRef s) * 0.05 in
  let targetMorph := if isLightsOn then 1 else 0 in
  let morph := morphRef s + (targetMorph - morphRef s) * 0.05 in
  let '(tLeft, tRight) := doorTargets isLightsOn s in
  let valLeft := valLeftDoor s + (tLeft - valLeftDoor s) * 0.1 in
  let valRight := valRightDoor s + (tRight - valRightDoor s) * 0.1 in
  let wheelRotation := if isLightsOn then wheelRotationRef s + 0.3 else 0 in
  let angle := angleRef s + 0.005 in
  mkRefs angle hoverY morph (targetLeftDoor s) (targetRightDoor s)
         valLeft valRight (particlesRef s) time wheelRotation
         (mkAllBounds emptyBounds emptyBounds emptyBounds).

(** Heart exhaust: one particle per frame while the lights are on, unless
    the draw is at most 0.3. *)
Definition spawn (isLightsOn : bool) (d : Draws) (ps : list Particle)
  : list Particle :=
  if isLightsOn && Qlt_bool 0.3 (d_spawn d) then
    ps ++ [ mkParticle (-110) 30 ((d_z d - 0.5) * 60)
              (-6 - d_vx d * 5) ((d_vy d - 0.5) * 2) ((d_vz d - 0.5) * 3)
              1.0 1.0
              (if Qlt_bool 0.5 (d_color d) then "#f472b6" else "#fbcfe8")
              (0.5 + d_scale d * 0.5) ]
  else ps.

Definition age (p : Particle) : Particle :=
  mkParticle (par_x p + vx p) (par_y p + vy p) (par_z p + vz p)
             (vx p) (vy p) (vz p) (life p - 0.02) (maxLife p)
             (color p) (scale p).

Definition updateParticles (ps : list Particle) : list Particle :=
  List.filter (fun p => Qlt_bool 0 (life p)) (map age ps).

(** *** Morphing *)

Definition isMorphed (pt : Part) : bool :=
  match pt with glass | balloon | string_ => true | _ => false end.

(** [scaleMult] *)
Definition morphScale (pt : Part) (morph : Q) : Q :=
  match pt with
  | glass => 1 - morph
  | balloon | string_ => morph
  | _ => 1
  end.

(** The two [continue]s: the point is left out of the frame. *)
Definition morphCulled (pt : Part) (morph : Q) : bool :=
  isMorphed pt && Qlt_bool (morphScale pt morph) 0.05.

(** The centre the morph scales towards: [cx = 0, cy = 50, cz = 0]. *)
Definition pivot : Q * Q * Q := (0, 50, 0).

Definition morphPoint (pt : Part) (scaleMult : Q) (p : Q * Q * Q)
  : Q * Q * Q :=
  let '(px, py, pz) := p in
  if isMorphed pt then
    let '(cx, cy, cz) := pivot in
    (cx + (px - cx) * scaleMult,
     cy + (py - cy) * scaleMult,
     cz + (pz - cz) * scaleMult)
  else p.

(** Add one projected point to a box. *)
Definition extend (b : Bounds) (screenX screenY : Q) : Bounds :=
  mkBounds (Qmin (minX b) screenX) (Qmax (maxX b) screenX)
           (Qmin (minY b) screenY) (Qmax (maxY b) screenY).

(** The hit-test update of one projected point. *)
Definition accumulate (pt : Part) (screenX screenY : Q) (b : AllBounds)
  : AllBounds :=
  let b :=
    match pt with
    | door_left =>
        mkAllBounds (extend (leftDoor b) screenX screenY) (rightDoor b) (car b)
    | door_right =>
        mkAllBounds (leftDoor b) (extend (rightDoor b) screenX screenY) (car b)
    | _ => b
    end in
  mkAllBounds (leftDoor b) (rightDoor b) (extend (car b) screenX screenY).

Section Frame.
(** [Math.sin] and [Math.cos]. *)
Variable Math_sin : Q -> Q.
Variable Math_cos : Q -> Q.

(** String sway, wheel rotation and door hinge of one point. *)
Definition partMotion (s : Refs) (pt : Part) (p : Q * Q * Q) : Q * Q * Q :=
  let '(px, py, pz) := p in
  match pt with
  | string_ =>
      let hFactor := (py - 100) * 0.1 in
      (px + Math_sin (timeRef s * 2 + hFactor) * 2 * morphRef s, py, pz)
  | wheel =>
      let cx := if Qlt_bool 0 px then 65 else -65 in
      let cy := 18 in
      let rx := px - cx in
      let ry := py - cy in
      let wAng := - wheelRotationRef s in
      let rx2 := rx * Math_cos wAng - ry * Math_sin wAng in
      let ry2 := rx * Math_sin wAng + ry * Math_cos wAng in
      (cx + rx2, cy + ry2, pz)
  | door_left | door_right =>
      let isRight := match pt with door_right => true | _ => false end in
      let dir := if isRight then 1 else -1 in
      let openVal := if isRight then valRightDoor s else valLeftDoor s in
      let pivotX := 50 in
      let pivotY := 20 in
      let pivotZ := 45 * dir in
      let dx := px - pivotX in
      let dy := py - pivotY in
      let dz := pz - pivotZ in
      let baseAngle := openVal * 1.3 in
      let totalAngle := -1 * baseAngle in
      let cosA := Math_cos totalAngle in
      let sinA := Math_sin totalAngle in
      let dx2 := dx * cosA - dy * sinA in
      let dy2 := dx * sinA + dy * cosA in
      let flare := (openVal * 15) * dir in
      (pivotX + dx2, pivotY + dy2, pivotZ + dz + flare)
  | _ => p
  end.

(** One turn of the loop over [carPoints]: [None] when the point is
    skipped, else the new bounds and the pushed item. *)
Definition carPoint (isLightsOn : bool) (s : Refs) (b : AllBounds)
    (p : Point3D) : option (AllBounds * RenderItem) :=
  let morph := morphRef s in
  if morphCulled (part p) morph then None
  else
    let '(px, py, pz) :=
      partMotion s (part p)
        (morphPoint (part p) (morphScale (part p) morph)
                    (nx p, ny p, nz p)) in
    let py := if isLightsOn then py + Math_sin (timeRef s * 3) * 3
              else py in
    let cos := Math_cos (angleRef s) in
    let sin := Math_sin (angleRef s) in
    let wx := px * cos - pz * sin in
    let wz := px * sin + pz * cos in
    let wy := py + hoverYRef s in
    let depth := 1000 - wz in
    let b :=
      if Qlt_bool 10 depth then
        let scale := 1000 / depth in
        let screenX := centerX + wx * scale in
        let screenY := centerY - wy * scale + 80 in
        accumulate (part p) screenX screenY b
      else b in
    Some (b, PointItem wx wy wz (baseColor p) (sparkleOffset p) (part p)).

Fixpoint carLoop (isLightsOn : bool) (s : Refs) (carPoints : list Point3D)
    (b : AllBounds) (renderList : list RenderItem)
  : AllBounds * list RenderItem :=
  match carPoints with
  | [] => (b, renderList)
  | p :: rest =>
      match carPoint isLightsOn s b p with
      | None => carLoop isLightsOn s rest b renderList
      | Some (b', it) => carLoop isLightsOn s rest b' (renderList ++ [it])
      end
  end.

Definition particleItem (s : Refs) (p : Particle) : RenderItem :=
  let cos := Math_cos (angleRef s) in
  let sin := Math_sin (angleRef s) in
  let wx := par_x p * cos - par_z p * sin in
  let wz := par_x p * sin + par_z p * cos in
  let wy := par_y p + hoverYRef s in
  HeartItem wx wy wz (color p) (life p) (scale p).

(** [renderList.sort((a, b) => a.z - b.z)]: the sort is stable and the
    comparator orders by [z], so the result is the stable ascending sort
    by [z]; insertion from the right computes it. *)
Fixpoint insert (it : RenderItem) (l : list RenderItem) : list RenderItem :=
  match l with
  | [] => [it]
  | h :: t =>
      if Qle_bool (item_z it) (item_z h) then it :: h :: t
      else h :: insert it t
  end.

Definition sortRenderList (l : list RenderItem) : list RenderItem :=
  foldr insert [] l.

Definition isLight (pt : Part) : bool :=
  match pt with light_front | light_rear => true | _ => false end.

(** One turn of the draw loop; items with [depth < 10] are skipped. *)
Definition drawItem (s : Refs) (it : RenderItem) : list DrawCmd :=
  let depth := 1000 - item_z it in
  if Qlt_bool depth 10 then []
  else
    let scale := 1000 / depth in
    let screenX := centerX + item_x it * scale in
    let screenY := centerY - item_y it * scale + 80 in
    match it with
    | HeartItem _ _ _ color life iscale =>
        [DrawHeart screenX screenY (10 * scale * iscale) (life * 0.8) color]
    | PointItem x _ _ color sparkle pt =>
        let size := if isLight pt then 4 * scale
                    else match pt with
                         | string_ => 1.5 * scale
                         | _ => 2.5 * scale
                         end in
        let sparkleVal := Math_sin (timeRef s * 2.5 + sparkle) in
        let viewFlash := Math_sin (angleRef s * 5 + x * 0.1) in
        let notString := match pt with string_ => false | _ => true end in
        if Qlt_bool 0.95 sparkleVal && Qlt_bool 0 viewFlash && notString
        then [DrawRect (screenX - size / 2) (screenY - size / 2) size
                       "#ffffff" 5]
        else [DrawRect (screenX - size / 2) (screenY - size / 2) size
                       color 0]
    end.

Record Frame : Type := mkFrame {
  frame_refs : Refs;
  frame_list : list RenderItem;   (* [renderList] after the sort *)
  frame_drawn : list DrawCmd
}.

Definition set_frame (ps : list Particle) (b : AllBounds) (s : Refs) : Refs :=
  mkRefs (angleRef s) (hoverYRef s) (morphRef s) (targetLeftDoor s)
         (targetRightDoor s) (valLeftDoor s) (valRightDoor s) ps
         (timeRef s) (wheelRotationRef s) b.

Definition render (isLightsOn : bool) (carPoints : list Point3D)
    (d : Draws) (s : Refs) : Frame :=
  let s := animate isLightsOn s in
  let ps := updateParticles (spawn isLightsOn d (particlesRef s)) in
  let '(b, renderList) := carLoop isLightsOn s carPoints (boundsRef s) [] in
  let renderList := renderList ++ map (particleItem s) ps in
  let renderList := sortRenderList renderList in
  let s := set_frame ps b s in
  mkFrame s renderList (concat (map (drawItem s) renderList)).
End Frame.

(** ** Predicates used by the statements *)

(** Box [inner] lies within box [outer]. *)
Definition within (inner outer : Bounds) : Prop :=
  minX outer <= minX inner /\ maxX inner <= maxX outer /\
  minY outer <= minY inner /\ maxY inner <= maxY outer.

(** Both door boxes lie within the car box. *)
Definition doors_within (b : AllBounds) : Prop :=
  within (leftDoor b) (car b) /\ within (rightDoor b) (car b).

Definition ascending_z (a b : RenderItem) : Prop := item_z a <= item_z b.
Definition descending_depth (a b : RenderItem) : Prop := depth b <= depth a.
Definition ascending_depth (a b : RenderItem) : Prop := depth a <= depth b.

(** Pointwise equality of positions as numbers. *)
Definition same_position (p q : Q * Q * Q) : Prop :=
  p.1.1 == q.1.1 /\ p.1.2 == q.1.2 /\ p.2 == q.2.

(** ** Sample states *)

(** Bounds of a frame in which both doors lie inside the silhouette. *)
Definition sample_bounds : AllBounds :=
  mkAllBounds (mkBounds 380 420 380 420) (mkBounds 390 430 380 420)
              (mkBounds 300 500 350 450).

Definition sample_refs : Refs :=
  mkRefs 0 0 0 0 0 0 0 [] 0 0 sample_bounds.

(** ** Runs of frames *)

Section Run.
(** [Math.sin] and [Math.cos]. *)
Variable Math_sin : Q -> Q.
Variable Math_cos : Q -> Q.

(** The refs after a run of frames; each frame has its own lights flag and
    draws. *)
Fixpoint frames (carPoints : list Point3D) (inputs : list (bool * Draws))
    (s : Refs) : Refs :=
  match inputs with
  | [] => s
  | (isLightsOn, d) :: rest =>
      frames carPoints rest
        (frame_refs (render Math_sin Math_cos isLightsOn carPoints d s))
  end.
End Run.

(** Where the draw loop and the bounds update put an item on the screen. *)
Definition screenX (it : RenderItem) : Q :=
  centerX + item_x it * (1000 / depth it).
Definition screenY (it : RenderItem) : Q :=
  centerY - item_y it * (1000 / depth it) + 80.

Definition item_part (it : RenderItem) : option Part :=
  match it with
  | PointItem _ _ _ _ _ pt => Some pt
  | HeartItem _ _ _ _ _ _ => None
  end.

(** Every particle's life is at most [top] less 0.02 for each particle
    behind it in the pool. *)
Fixpoint budget (top : Q) (ps : list Particle) : Prop :=
  match ps with
  | [] => True
  | p :: rest =>
      life p <= top - 0.02 * inject_Z (Z.of_nat (length rest)) /\
      budget top rest
  end.

Definition in_unit (q : Q) : Prop := 0 <= q /\ q <= 1.

(** The ranges the smoothed values live in. *)
Definition smooth_ranges (s : Refs) : Prop :=
  in_unit (morphRef s) /\
  (0 <= hoverYRef s /\ hoverYRef s <= 140) /\
  in_unit (valLeftDoor s) /\ in_unit (valRightDoor s) /\
  in_unit (targetLeftDoor s) /\ in_unit (targetRightDoor s).

(** The items of a list at one depth, in their order. *)
Definition at_z (z0 : Q) (l : list RenderItem) : list RenderItem :=
  List.filter (fun it => Qeq_bool (item_z it) z0) l.

(** ** The point generator's [add] *)


End Scene.

Module Diamond.

(** ** The point cloud of [DiamondCar] *)

Inductive PartType : Type := body | doorL | doorR | rear | wheel | glass.

(** [Point3D]; [color] is [None] where the code would store [undefined],
    [flashDelay] is the number inside the string [`-${...}s`]. *)
Record Point3D : Type := mkPoint3D {
  id : nat;
  x : Q; y : Q; z : Q;
  color : option string;
  size : Q;
  part : PartType;
  baseX : Q; baseY : Q; baseZ : Q;
  flashSpeed : string;
  flashDelay : Q
}.

Inductive Axis : Type := axis_x | axis_z.

Definition pinks : list string :=
  ["#fbcfe8"; "#f9a8d4"; "#f472b6"; "#db2777"; "#be185d"]%string.

(** [pinks[Math.floor(r)]] *)
Definition pinks_at (r : Q) : option string :=
  match Qfloor r with
  | Z0 => pinks !! 0%nat
  | Zpos i => pinks !! Pos.to_nat i
  | Zneg _ => None
  end.

(** [(1-u)*(1-v)*a + u*(1-v)*b + u*v*c + (1-u)*v*d] *)
Definition bilinear (a b c d u v : Q) : Q :=
  (1 - u) * (1 - v) * a + u * (1 - v) * b + u * v * c + (1 - u) * v * d.

(** The generator's variables: the points so far, [idCounter], and how many
    times [Math.random()] was called. *)
Record Gen : Type := mkGen {
  pts : list Point3D;
  idCounter : nat;
  drawn : nat
}.

Definition emptyGen : Gen := mkGen [] 0 0.

(** The three open/closed flags of the component. *)
Record Flags : Type := mkFlags {
  doorLOpen : bool;
  doorROpen : bool;
  rearOpen : bool
}.

(** [handlePartClick] *)
Definition handlePartClick (pt : PartType) (st : Flags) : Flags :=
  let st := match pt with
            | doorL => mkFlags (negb (doorLOpen st)) (doorROpen st) (rearOpen st)
            | _ => st
            end in
  let st := match pt with
            | doorR => mkFlags (doorLOpen st) (negb (doorROpen st)) (rearOpen st)
            | _ => st
            end in
  match pt with
  | rear => mkFlags (doorLOpen st) (doorROpen st) (negb (rearOpen st))
  | _ => st
  end.

Definition set_xyz (p : Point3D) (c : Q * Q * Q) : Point3D :=
  mkPoint3D (id p) c.1.1 c.1.2 c.2 (color p) (size p) (part p)
            (baseX p) (baseY p) (baseZ p) (flashSpeed p) (flashDelay p).

(** Insertion for [sort((a, b) => b.z - a.z)]: descending [z], ties in
    their order. *)
Fixpoint insertDesc (p : Point3D) (l : list Point3D) : list Point3D :=
  match l with
  | [] => [p]
  | h :: t =>
      if Qle_bool (z h) (z p) then p :: h :: t else h :: insertDesc p t
  end.

Definition sortDesc (l : list Point3D) : list Point3D :=
  foldr insertDesc [] l.

Definition descending_z (a b : Point3D) : Prop := z b <= z a.

Section Trig.
(** [Math.sin], [Math.cos], [Math.PI] and the stream of [Math.random()]
    values, [rand n] being the value of call number [n]. *)
Variable Math_sin : Q -> Q.
Variable Math_cos : Q -> Q.
Variable Math_PI : Q.
Variable rand : nat -> Q.

Definition rotateY (x y z angle : Q) : Q * Q * Q :=
  let cos := Math_cos angle in
  let sin := Math_sin angle in
  (x * cos - z * sin, y, x * sin + z * cos).

Definition rotateAroundAxis (x y z : Q) (axis : Axis) (angle : Q)
    (pivot : Q * Q * Q) : Q * Q * Q :=
  let px := x - pivot.1.1 in
  let py := y - pivot.1.2 in
  let pz := z - pivot.2 in
  let cos := Math_cos angle in
  let sin := Math_sin angle in
  let '(nx, ny, nz) :=
    match axis with
    | axis_z => (px * cos - py * sin, px * sin + py * cos, pz)
    | axis_x => (px, py * cos - pz * sin, py * sin + pz * cos)
    end in
  (nx + pivot.1.1, ny + pivot.1.2, nz + pivot.2).

(** [addPoint]: the draws are taken in the order the code calls
    [Math.random()]: highlight, colour index (only without override and
    highlight), size, flash speed, flash delay. *)
Definition addPoint (x y z : Q) (pt : PartType)
    (colorOverride : option string) (g : Gen) : Gen :=
  let n := drawn g in
  let isHighlight := Qlt_bool 0.8 (rand n) in
  let n := S n in
  let override :=
    match colorOverride with
    | Some c => if String.eqb c EmptyString then None else Some c
    | None => None
    end in
  let '(color, n) :=
    match override with
    | Some c => (Some c, n)
    | None =>
        if isHighlight then (Some "#ffffff"%string, n)
        else (pinks_at (rand n * inject_Z (Z.of_nat (length pinks))), S n)
    end in
  let p := mkPoint3D (idCounter g) x y z color (rand n * 2 + 1.5) pt x y z
             (if Qlt_bool 0.5 (rand (S n)) then "animate-twinkle"
              else "animate-diamond-sparkle")
             (rand (S (S n)) * 5) in
  mkGen (pts g ++ [p]) (S (idCounter g)) (S (S (S n))).

(** The body of the two loops of [fillQuad] at [(i, j)].  Every call in the
    source passes a density of at least 6.  At density 0 the source divides
    0 by 0 and stores a point at NaN, which the rationals do not have
    ([0 / 0] is 0 here): statements about positions take [0 < density]. *)
Definition fillQuadPoint (p1 p2 p3 p4 : Q * Q * Q) (density : nat)
    (pt : PartType) (color : option string) (i j : nat) (g : Gen) : Gen :=
  let u := inject_Z (Z.of_nat i) / inject_Z (Z.of_nat density) in
  let v := inject_Z (Z.of_nat j) / inject_Z (Z.of_nat density) in
  let x := bilinear p1.1.1 p2.1.1 p3.1.1 p4.1.1 u v in
  let y := bilinear p1.1.2 p2.1.2 p3.1.2 p4.1.2 u v in
  let z := bilinear p1.2 p2.2 p3.2 p4.2 u v in
  let n := drawn g in
  addPoint (x + (rand n - 0.5)) (y + (rand (S n) - 0.5))
           (z + (rand (S (S n)) - 0.5)) pt color
           (mkGen (pts g) (idCounter g) (S (S (S n)))).

(** [fillQuad]: [for i <= density, for j <= density]. *)
Definition fillQuad (p1 p2 p3 p4 : Q * Q * Q) (density : nat)
    (pt : PartType) (color : option string) (g : Gen) : Gen :=
  fold_left
    (fun g i =>
       fold_left (fun g j => fillQuadPoint p1 p2 p3 p4 density pt color i j g)
                 (seq 0 (S density)) g)
    (seq 0 (S density)) g.

(** One turn of the loop of [addWheel]. *)
Definition addWheelPoint (cx cz : Q) (i : nat) (g : Gen) : Gen :=
  let theta := (inject_Z (Z.of_nat i) / 40) * Math_PI * 2 in
  let r := 11 in
  let g := addPoint cx (11 + r * Math_cos theta) (cz + r * Math_sin theta)
                    wheel (Some "#333"%string) g in
  if Nat.eqb (i `mod` 4) 0 then
    addPoint cx (11 + r * 0.5 * Math_cos theta)
             (cz + r * 0.5 * Math_sin theta) wheel (Some "#silver"%string) g
  else g.

Definition addWheel (cx cz : Q) (g : Gen) : Gen :=
  fold_left (fun g i => addWheelPoint cx cz i g) (seq 0 40) g.

(** The memoized geometry. *)
Definition points : list Point3D :=
  let g := emptyGen in
  let g := fillQuad (-30, 5, -75) (30, 5, -75) (30, 5, 75) (-30, 5, 75)
             15 body (Some "#831843"%string) g in
  let g := fillQuad (-32, 5, -80) (32, 5, -80) (30, 15, -70) (-30, 15, -70)
             8 body None g in
  let g := fillQuad (-30, 15, -70) (30, 15, -70) (32, 22, -20) (-32, 22, -20)
             12 body None g in
  let g := fillQuad (-32, 22, -20) (32, 22, -20) (28, 38, 10) (-28, 38, 10)
             10 glass (Some "#e0f2fe"%string) g in
  let g := fillQuad (-28, 38, 10) (28, 38, 10) (28, 38, 30) (-28, 38, 30)
             8 body None g in
  let rearStart := 30 in
  let rearEnd := 75 in
  let g := fillQuad (-28, 38, rearStart) (28, 38, rearStart)
             (30, 25, rearEnd) (-30, 25, rearEnd) 14 rear None g in
  let g := fillQuad (-30, 25, rearEnd) (30, 25, rearEnd) (30, 10, 80)
             (-30, 10, 80) 8 body None g in
  let g := fillQuad (-32, 5, -60) (-32, 5, 60) (-35, 12, 60) (-35, 12, -60)
             12 body None g in
  let g := fillQuad (32, 5, -60) (32, 5, 60) (35, 12, 60) (35, 12, -60)
             12 body None g in
  let g := fillQuad (-35, 12, -20) (-35, 12, 30) (-28, 38, 30) (-32, 22, -20)
             12 doorL None g in
  let g := fillQuad (-32, 22, -15) (-28, 38, 15) (-28, 38, 25) (-35, 12, 25)
             6 doorL (Some "#bfdbfe"%string) g in
  let g := fillQuad (35, 12, -20) (35, 12, 30) (28, 38, 30) (32, 22, -20)
             12 doorR None g in
  let g := fillQuad (32, 22, -15) (28, 38, 15) (28, 38, 25) (35, 12, 25)
             6 doorR (Some "#bfdbfe"%string) g in
  let g := addWheel (-34) (-45) g in
  let g := addWheel 34 (-45) g in
  let g := addWheel (-34) 45 g in
  let g := addWheel 34 45 g in
  pts g.

(** The per-frame position of one point: door and trunk hinges, then the
    global rotation. *)
Definition activePoint (angle : Q) (st : Flags) (p : Point3D) : Point3D :=
  let c := (baseX p, baseY p, baseZ p) in
  let c :=
    match part p with
    | doorL =>
        if doorLOpen st then
          rotateAroundAxis c.1.1 c.1.2 c.2 axis_z (- Math_PI / 3.5)
                           (-35, 12, -20)
        else c
    | _ => c
    end in
  let c :=
    match part p with
    | doorR =>
        if doorROpen st then
          rotateAroundAxis c.1.1 c.1.2 c.2 axis_z (Math_PI / 3.5)
                           (35, 12, -20)
        else c
    | _ => c
    end in
  let c :=
    match part p with
    | rear =>
        if rearOpen st then
          rotateAroundAxis c.1.1 c.1.2 c.2 axis_x (Math_PI / 4) (0, 38, 30)
        else c
    | _ => c
    end in
  set_xyz p (rotateY c.1.1 c.1.2 c.2 angle).

Definition activePoints (pts : list Point3D) (angle : Q) (st : Flags)
  : list Point3D :=
  sortDesc (map (activePoint angle st) pts).
End Trig.

(** ** Predicates used by the statements *)

(** Running [f] appends one point per entry of [tags], with those parts in
    that order, numbered onwards from [idCounter], each satisfying [P]. *)
Definition adds (P : Point3D -> Prop) (tags : list PartType)
    (f : Gen -> Gen) : Prop :=
  forall g, exists new,
    pts (f g) = pts g ++ new /\
    map part new = tags /\
    map id new = seq (idCounter g) (length tags) /\
    idCounter (f g) = (idCounter g + length tags)%nat /\
    Forall P new.

(** What [addPoint] stores when every draw lies in [[0, 1)]: a colour, a
    size in [[1.5, 3.5)], a flash delay in [[0, 5)], and the position equal
    to the base position. *)
Definition well_drawn (p : Point3D) : Prop :=
  is_Some (color p) /\
  (1.5 <= size p /\ size p < 3.5) /\
  (0 <= flashDelay p /\ flashDelay p < 5) /\
  x p = baseX p /\ y p = baseY p /\ z p = baseZ p.



(** The parts of the memoized geometry, in order. *)
Definition point_tags : list PartType :=
  repeat body 256 ++ repeat body 81 ++ repeat body 169 ++ repeat glass 121 ++
  repeat body 81 ++ repeat rear 225 ++ repeat body 81 ++ repeat body 169 ++
  repeat body 169 ++ repeat doorL 169 ++ repeat doorL 49 ++
  repeat doorR 169 ++ repeat doorR 49 ++ repeat wheel 200.

(** Squared distance of two positions. *)
Definition dist2 (p q : Q * Q * Q) : Q :=
  (p.1.1 - q.1.1) * (p.1.1 - q.1.1) + (p.1.2 - q.1.2) * (p.1.2 - q.1.2)
  + (p.2 - q.2) * (p.2 - q.2).

(** The generator state after adding points with exactly these parts. *)
Definition built (tags : list PartType) (g : Gen) : Prop :=
  map part (pts g) = tags /\
  map id (pts g) = seq 0 (length tags) /\
  idCounter g = length tags.

End Diamond.

Module DoublesProofs.
Import PrimFloat Doubles.
Local Open Scope float_scope.
#[local] Set Warnings "-inexact-float".

(** ** The scheduler loop on binary64 numbers *)

(** *** What a run hands over is chained *)

Lemma chained_app score i t l1 i1 t1 l2 i2 t2 :
  chained score i t l1 i1 t1 ->
  chained score i1 t1 l2 i2 t2 ->
  chained score i t (l1 ++ l2) i2 t2.
Proof.
  induction 1 as [|i t note d l i' t' E _ IH]; intros H2; simpl; [exact H2|].
  apply chained_cons; [exact E|apply IH; exact H2].
Qed.

Lemma drain_chained fuel score now : forall s s',
  drain fuel score now s = Ok s' ->
  exists l,
    calls s' = calls s ++ l /\
    chained score (scoreIndex s) (nextNoteTime s) l
            (scoreIndex s') (nextNoteTime s').
Proof.
  induction fuel as [|fuel IH]; intros s s'; [discriminate|].
  cbn [drain]. destruct (nextNoteTime s <? now + SCHEDULE_AHEAD_TIME).
  - unfold loop_body.
    destruct (score !! scoreIndex s) as [[note d]|] eqn:E; [|discriminate].
    simpl bind. intros H. apply IH in H. destruct H as (l & Hl & Hc).
    simpl in Hl, Hc. exists (mkCall note d (nextNoteTime s) :: l). split.
    + rewrite Hl, <- app_assoc. reflexivity.
    + apply chained_cons; [exact E|exact Hc].
  - intros H. inversion H; subst. exists []. split.
    + rewrite app_nil_r. reflexivity.
    + apply chained_nil.
Qed.

Lemma ticks_chained fuel score nows : forall s s',
  ticks fuel score nows s = Ok s' ->
  exists l,
    calls s' = calls s ++ l /\
    chained score (scoreIndex s) (nextNoteTime s) l
            (scoreIndex s') (nextNoteTime s').
Proof.
  induction nows as [|now nows IH]; intros s s'; cbn [ticks].
  - intros H. inversion H; subst. exists []. split.
    + rewrite app_nil_r. reflexivity.
    + apply chained_nil.
  - destruct (drain fuel score now s) as [s1| |] eqn:Hd; simpl bind;
      try discriminate.
    intros H. apply IH in H. destruct H as (l2 & Hl2 & Hc2).
    apply drain_chained in Hd. destruct Hd as (l1 & Hl1 & Hc1).
    exists (l1 ++ l2). split.
    + rewrite Hl2, Hl1, <- app_assoc. reflexivity.
    + exact (chained_app _ _ _ _ _ _ _ _ _ Hc1 Hc2).
Qed.

Lemma play_chained fuel score now0 nows s :
  play fuel score now0 nows = Ok s ->
  chained score 0 (now0 + 0.1) (calls s) (scoreIndex s) (nextNoteTime s).
Proof.
  unfold play.
  destruct (drain fuel score now0 _) as [s1| |] eqn:Hd; simpl bind;
    try discriminate.
  intros H. apply ticks_chained in H. destruct H as (l2 & Hl2 & Hc2).
  apply drain_chained in Hd. destruct Hd as (l1 & Hl1 & Hc1).
  simpl in Hl1, Hc1. rewrite Hl2, Hl1.
  exact (chained_app _ _ _ _ _ _ _ _ _ Hc1 Hc2).
Qed.

Lemma drain_exit fuel score now : forall s s',
  drain fuel score now s = Ok s' ->
  (nextNoteTime s' <? now + SCHEDULE_AHEAD_TIME) = false.
Proof.
  induction fuel as [|fuel IH]; intros s s'; [discriminate|].
  cbn [drain].
  destruct (nextNoteTime s <? now + SCHEDULE_AHEAD_TIME) eqn:E.
  - destruct (loop_body score s) as [s1| |]; simpl bind; try discriminate.
    apply IH.
  - intros H. inversion H; subst. exact E.
Qed.

Lemma last_cons_default (a d : float) l :
  List.last (a :: l) d = List.last l a.
Proof.
  revert a d. induction l as [|b l IH]; intros a d; [reflexivity|].
  change (List.last (a :: b :: l) d) with (List.last (b :: l) d).
  rewrite (IH b d), (IH b a). reflexivity.
Qed.

Lemma ticks_exit fuel score nows : forall prev s s',
  (nextNoteTime s <? prev + SCHEDULE_AHEAD_TIME) = false ->
  ticks fuel score nows s = Ok s' ->
  (nextNoteTime s' <? List.last nows prev + SCHEDULE_AHEAD_TIME) = false.
Proof.
  induction nows as [|now nows IH]; intros prev s s' Hprev; cbn [ticks].
  - intros H. inversion H; subst. exact Hprev.
  - destruct (drain fuel score now s) as [s1| |] eqn:Hd; simpl bind;
      try discriminate.
    intros H. apply drain_exit in Hd.
    rewrite last_cons_default. exact (IH now _ _ Hd H).
Qed.

(** *** Reading the chain *)

Lemma chained_lookup score i t l i' t' :
  chained score i t l i' t' ->
  forall j c, l !! j = Some c ->
    score !! ((i + j) `mod` length score)%nat
      = Some (call_note c, call_duration c).
Proof.
  induction 1 as [|i t note d l i' t' E _ IH]; intros j c Hj.
  - rewrite lookup_nil in Hj. discriminate.
  - pose proof (lookup_lt_Some _ _ _ E) as Hi. destruct j as [|j].
    + inversion Hj; subst c; clear Hj. simpl.
      rewrite Nat.add_0_r, Nat.mod_small by exact Hi. exact E.
    + simpl in Hj. specialize (IH _ _ Hj).
      rewrite Nat.Div0.add_mod_idemp_l in IH.
      replace (i + S j)%nat with (i + 1 + j)%nat by lia. exact IH.
Qed.

Lemma chained_head score i t c l i' t' :
  chained score i t (c :: l) i' t' -> call_time c = t.
Proof. inversion 1; subst. reflexivity. Qed.

Lemma chained_next score i t l i' t' :
  chained score i t l i' t' ->
  forall j c c', l !! j = Some c -> l !! S j = Some c' ->
    call_time c' = call_time c + call_duration c * SECONDS_PER_BEAT.
Proof.
  induction 1 as [|i t note d l i' t' E Hl IH]; intros j c c' Hj Hj'.
  - rewrite lookup_nil in Hj. discriminate.
  - destruct j as [|j].
    + inversion Hj; subst c; clear Hj. simpl in Hj'.
      destruct l as [|c1 l]; [discriminate|].
      inversion Hj'; subst c1; clear Hj'. simpl.
      exact (chained_head _ _ _ _ _ _ _ Hl).
    + simpl in Hj, Hj'. exact (IH _ _ _ Hj Hj').
Qed.

Lemma chained_index score i t l i' t' :
  chained score i t l i' t' ->
  (i `mod` length score = i)%nat ->
  i' = ((i + length l) `mod` length score)%nat.
Proof.
  induction 1 as [|i t note d l i' t' E _ IH]; intros Hi.
  - simpl. rewrite Nat.add_0_r. symmetry. exact Hi.
  - rewrite IH by apply Nat.Div0.mod_mod.
    rewrite Nat.Div0.add_mod_idemp_l. f_equal. simpl. lia.
Qed.

Lemma chained_end score i t l i' t' :
  chained score i t l i' t' ->
  t' = from_option
         (fun c => call_time c + call_duration c * SECONDS_PER_BEAT)
         t (last l).
Proof.
  induction 1 as [|i t note d l i' t' E Hl IH]; [reflexivity|].
  rewrite IH. destruct l as [|c l]; [reflexivity|].
  rewrite last_cons_cons. destruct (last (c :: l)) eqn:E2; [reflexivity|].
  apply last_None in E2. discriminate.
Qed.

(** *** The loop at work *)

(** In exact arithmetic thirty bell notes end at [0.1 + 42 * (60 / 140)],
    which is 18.1, and a run of the scheduler at clock 18 stops there.  The
    doubles add up to 18.099999999999998, below the window's end
    [18 + 0.1], and the same run hands over a thirty-first note. *)
Example rounding_hands_over_one_more_note :
  match play 40 JINGLE_BELLS 0 [18],
        Audio.play 40 Audio.treeCb 0%Q [18%Q] Audio.initial with
  | Ok s, Ok w =>
      length (Audio.calls w) = 30%nat /\
      Qeq (Audio.nextNoteTime w) (18 + 0.1)%Q /\
      length (calls s) = 31%nat /\
      option_map call_time (calls s !! 30%nat)
        = Some 18.099999999999998 /\
      (18.099999999999998 <? 18 + SCHEDULE_AHEAD_TIME) = true
  | _, _ => False
  end.
Proof. vm_compute. repeat split; reflexivity. Qed.

(** C1, as stated, fails on the numbers the code computes with.  The bell
    melody starts at clock 0 and the scheduler runs at clock 2.  The fourth
    note starts at the cursor the loop has added up,
    [0 + 0.1 + 1 * s + 1 * s + 2 * s] with [s = 60 / 140] and every
    operation rounded to binary64: 1.8142857142857141.  The initial cursor
    plus the sum of the earlier durations times [60 / 140],
    [0 + 0.1 + (1 + 1 + 2) * (60 / 140)], is 1.8142857142857143, the next
    double up, and so it is when the product is taken as
    [(1 + 1 + 2) * 60 / 140]. *)
Lemma running_sum_is_not_the_closed_form :
  exists s c,
    play 5 JINGLE_BELLS 0 [2] = Ok s /\
    calls s !! 3%nat = Some c /\
    call_time c
      = 0 + 0.1 + 1 * SECONDS_PER_BEAT + 1 * SECONDS_PER_BEAT
        + 2 * SECONDS_PER_BEAT /\
    closed_form JINGLE_BELLS (0 + 0.1) 3
      = 0 + 0.1 + (0 + 1 + 1 + 2) * (60 / 140) /\
    call_time c = 1.8142857142857141 /\
    closed_form JINGLE_BELLS (0 + 0.1) 3 = 1.8142857142857143 /\
    0 + 0.1 + (1 + 1 + 2) * 60 / 140 = 1.8142857142857143 /\
    (call_time c <? closed_form JINGLE_BELLS (0 + 0.1) 3) = true /\
    (call_time c =? closed_form JINGLE_BELLS (0 + 0.1) 3) = false.
Proof.
  eexists _, _.
  split; [vm_compute; reflexivity|].
  split; [vm_compute; reflexivity|].
  repeat split; vm_compute; reflexivity.
Qed.

(** X29.  On binary64 numbers, whatever the score and the clock readings:
    when a fresh start followed by runs of the scheduler returns, the
    [j]-th note handed to [scheduleNote] is event [j mod length] of the
    score and the index ends at the number of notes modulo the length; the
    first note starts at [now0 + 0.1], every later note at the start time
    of the note before it plus that note's [duration * SECONDS_PER_BEAT],
    each operation rounded as the code rounds it; the cursor ends one such
    step after the last note, and not below the end of the window of the
    last run. *)
Theorem doubles_in_score_order (fuel : nat) (score : list NoteEvent)
    (now0 : float) (nows : list float) (s : State) :
  play fuel score now0 nows = Ok s ->
  (forall j c, calls s !! j = Some c ->
     score !! (j `mod` length score)%nat
       = Some (call_note c, call_duration c)) /\
  scoreIndex s = (length (calls s) `mod` length score)%nat /\
  (forall c, calls s !! 0%nat = Some c -> call_time c = now0 + 0.1) /\
  (forall j c c', calls s !! j = Some c -> calls s !! S j = Some c' ->
     call_time c' = call_time c + call_duration c * SECONDS_PER_BEAT) /\
  nextNoteTime s
    = from_option (fun c => call_time c + call_duration c * SECONDS_PER_BEAT)
                  (now0 + 0.1) (last (calls s)) /\
  (nextNoteTime s <? List.last nows now0 + SCHEDULE_AHEAD_TIME) = false.
Proof.
  intros Hplay. pose proof (play_chained _ _ _ _ _ Hplay) as Hc.
  split; [exact (chained_lookup _ _ _ _ _ _ Hc)|].
  split; [exact (chained_index _ _ _ _ _ _ Hc (Nat.Div0.mod_0_l _))|].
  split.
  { intros c H0. destruct (calls s) as [|c0 l]; [discriminate|].
    inversion H0; subst c0. exact (chained_head _ _ _ _ _ _ _ Hc). }
  split; [exact (chained_next _ _ _ _ _ _ Hc)|].
  split; [exact (chained_end _ _ _ _ _ _ Hc)|].
  revert Hplay. unfold play.
  destruct (drain fuel score now0 _) as [s1| |] eqn:Hd; simpl bind;
    try discriminate.
  apply ticks_exit. exact (drain_exit _ _ _ _ _ Hd).
Qed.

Lemma doubles_in_score_order_witness :
  exists s c2 c3,
    play 5 JINGLE_BELLS 0 [2] = Ok s /\
    length (calls s) = 4%nat /\
    calls s !! 2%nat = Some c2 /\ calls s !! 3%nat = Some c3 /\
    JINGLE_BELLS !! 3%nat = Some (call_note c3, call_duration c3) /\
    call_time c3 = call_time c2 + call_duration c2 * SECONDS_PER_BEAT /\
    (nextNoteTime s <? 2 + SCHEDULE_AHEAD_TIME) = false.
Proof.
  destruct (play 5 JINGLE_BELLS 0 [2]) as [s| |] eqn:E;
    [|vm_compute in E; discriminate..].
  destruct (doubles_in_score_order 5 JINGLE_BELLS 0 [2] s E)
    as (Hord & _ & _ & Hstep & _ & Hexit).
  assert (Hn : exists c0 c1 c2 c3, calls s = [c0; c1; c2; c3]).
  { vm_compute in E. inversion E; subst s. eexists _, _, _, _. reflexivity. }
  destruct Hn as (c0 & c1 & c2 & c3 & Hn).
  exists s, c2, c3. rewrite Hn in *.
  split; [reflexivity|]. split; [reflexivity|].
  split; [reflexivity|]. split; [reflexivity|].
  split; [exact (Hord 3%nat c3 eq_refl)|].
  split; [exact (Hstep 2%nat c2 c3 eq_refl eq_refl)|].
  exact Hexit.
Defined.

End DoublesProofs.

Module AudioProofs.
Import Audio.

Lemma Qlt_bool_iff (a b : Q) : Qlt_bool a b = true <-> a < b.
Proof.
  unfold Qlt_bool. rewrite negb_true_iff. split.
  - intros H. apply Qnot_le_lt. intros Hle.
    apply Qle_bool_iff in Hle. congruence.
  - intros H. destruct (Qle_bool b a) eqn:E; [|reflexivity].
    apply Qle_bool_iff in E. exfalso. exact (Qlt_not_le _ _ H E).
Qed.

Lemma Qlt_bool_false (a b : Q) : Qlt_bool a b = false <-> b <= a.
Proof.
  unfold Qlt_bool. rewrite negb_false_iff. apply Qle_bool_iff.
Qed.

Lemma Qlt_bool_irrefl (a : Q) : Qlt_bool a a = false.
Proof. apply Qlt_bool_false. apply Qle_refl. Qed.

(** *** [scheduleNote] touches the history and the audio graph only *)

Lemma scheduleNote_frame note d t ty w :
  scoreIndex (scheduleNote note d t ty w) = scoreIndex w /\
  nextNoteTime (scheduleNote note d t ty w) = nextNoteTime w /\
  calls (scheduleNote note d t ty w) = calls w ++ [mkCall note d t ty] /\
  same_host w (scheduleNote note d t ty w).
Proof.
  unfold scheduleNote, same_host; simpl.
  destruct (audioCtx w) as [ctx|] eqn:Hc; simpl.
  - destruct note as [s|]; simpl.
    + destruct (String.eqb s EmptyString); simpl; rewrite ?Hc; repeat split; eauto.
    + rewrite Hc. repeat split; eauto.
  - rewrite Hc. repeat split; eauto.
Qed.

Lemma same_host_refl w : same_host w w.
Proof. unfold same_host; repeat split; auto. Qed.

Lemma same_host_trans w1 w2 w3 :
  same_host w1 w2 -> same_host w2 w3 -> same_host w1 w3.
Proof.
  unfold same_host. intros (a1 & b1 & c1 & d1 & e1) (a2 & b2 & c2 & d2 & e2).
  repeat split; try congruence. auto.
Qed.

(** *** The cyclic score in closed form *)

Lemma cursor_S score t0 k :
  cursor score t0 (S k) =
  cursor score t0 k + (cyc score k).2 * SECONDS_PER_BEAT.
Proof.
  unfold cursor. rewrite seq_S, map_app, fold_left_app. reflexivity.
Qed.

Lemma stream_S score ty t0 k :
  stream score ty t0 (S k) = stream score ty t0 k ++ [call_at score ty t0 k].
Proof. unfold stream. rewrite seq_S, map_app. reflexivity. Qed.

Lemma beats_before_S score k :
  beats_before score (S k) == beats_before score k + (cyc score k).2.
Proof.
  unfold beats_before. rewrite seq_S, map_app. simpl.
  generalize (map (fun j : nat => (cyc score j).2) (seq 0 k)).
  intros l. induction l as [|x l IH]; simpl.
  - ring.
  - rewrite IH. ring.
Qed.

(** In exact arithmetic the sum the loop accumulates is the closed form.
    On doubles it is not: see [Doubles.closed_form]. *)
Lemma cursor_closed score t0 k :
  cursor score t0 k == t0 + beats_before score k * (60 / 140).
Proof.
  induction k as [|k IH].
  - unfold cursor, beats_before. simpl. ring.
  - rewrite cursor_S, beats_before_S, IH.
    unfold SECONDS_PER_BEAT, TEMPO. ring.
Qed.

Lemma stream_lookup score ty t0 k j :
  (j < k)%nat -> stream score ty t0 k !! j = Some (call_at score ty t0 j).
Proof.
  intros Hj. unfold stream. rewrite list_lookup_fmap.
  rewrite lookup_seq_lt by exact Hj. reflexivity.
Qed.

Lemma stream_length score ty t0 k : length (stream score ty t0 k) = k.
Proof. unfold stream. rewrite length_map, length_seq. reflexivity. Qed.

Lemma cyc_lookup score j :
  (0 < length score)%nat ->
  score !! (j `mod` length score)%nat = Some (cyc score j).
Proof.
  intros Hn. unfold cyc.
  destruct (score !! (j `mod` length score)%nat) as [ev|] eqn:E; [reflexivity|].
  apply lookup_ge_None in E.
  pose proof (Nat.mod_upper_bound j (length score)). lia.
Qed.

Lemma cyc_Forall (P : NoteEvent -> Prop) score j :
  (0 < length score)%nat -> Forall P score -> P (cyc score j).
Proof.
  intros Hn HP. pose proof (cyc_lookup score j Hn) as E.
  rewrite Forall_lookup in HP. exact (HP _ _ E).
Qed.

Section Drain.
Variable score : list NoteEvent.
Variable type : Timbre.
Hypothesis score_nonempty : (0 < length score)%nat.

(** The loop leaves the handles and the timer queue alone and keeps the
    index inside the score. *)
Lemma drain_frame fuel now w w' :
  drain fuel score type now w = Ok w' ->
  same_host w w' /\
  ((scoreIndex w < length score)%nat -> (scoreIndex w' < length score)%nat).
Proof using score_nonempty.
  revert w. induction fuel as [|fuel IH]; intros w; simpl; [discriminate|].
  destruct (Qlt_bool _ _).
  - unfold loop_body.
    destruct (score !! scoreIndex w) as [[note d]|]; [|discriminate].
    cbn [bind]. intros H. apply IH in H. simpl in H. destruct H as [Hh Hi].
    destruct (scheduleNote_frame note d (nextNoteTime w) type w)
      as (_ & _ & _ & Hs).
    split.
    + eapply same_host_trans; [exact Hs|].
      unfold same_host in *. simpl in *. exact Hh.
    + intros _. apply Hi. apply Nat.mod_upper_bound. lia.
  - intros H. inversion H; subst. split; [apply same_host_refl|auto].
Qed.

(** Each turn of the loop plays the next event of the cyclic score at the
    cursor and moves the cursor by that event's length. *)
Lemma drain_phase fuel now t0 base : forall k w w',
  phase score type t0 base k w ->
  drain fuel score type now w = Ok w' ->
  exists k', (k <= k')%nat /\ phase score type t0 base k' w'.
Proof using score_nonempty.
  induction fuel as [|fuel IH]; intros k w w' Hp; cbn [drain];
    [discriminate|].
  destruct (Qlt_bool _ _).
  - destruct Hp as (Hi & Ht & Hc). unfold loop_body.
    rewrite Hi, (cyc_lookup score k score_nonempty).
    destruct (cyc score k) as [note d] eqn:Ev.
    cbn [bind]. intros H. apply (IH (S k)) in H.
    + destruct H as (k' & Hle & Hp'). exists k'. split; [lia|exact Hp'].
    + destruct (scheduleNote_frame note d (nextNoteTime w) type w)
        as (Hsi & Hst & Hsc & _).
      unfold phase; simpl. rewrite Hsi, Hst, Hsc, Hi, Ht, Hc.
      repeat split.
      * rewrite Nat.Div0.add_mod_idemp_l. f_equal. lia.
      * rewrite cursor_S, Ev. reflexivity.
      * rewrite stream_S, <- app_assoc. unfold call_at. rewrite Ev.
        reflexivity.
  - intros H. inversion H; subst. exists k. split; [lia|exact Hp].
Qed.

(** More fuel never changes an answer. *)
Lemma drain_mono fuel fuel' now w w' :
  (fuel <= fuel')%nat ->
  drain fuel score type now w = Ok w' ->
  drain fuel' score type now w = Ok w'.
Proof using Type.
  clear score_nonempty.
  revert fuel' w. induction fuel as [|fuel IH]; intros fuel' w Hle; simpl;
    [discriminate|].
  destruct fuel' as [|fuel']; [lia|]. simpl.
  destruct (Qlt_bool _ _); [|auto]. unfold loop_body.
  destruct (score !! scoreIndex w) as [[note d]|]; [|discriminate].
  cbn [bind]. apply IH. lia.
Qed.

(** The notes one run of the loop hands over lie between the cursor it
    started from and the end of the lookahead window, and the loop ends
    with the cursor at or beyond the window. *)
Lemma drain_window fuel now : forall w w',
  Forall (fun ev : NoteEvent => 0 <= ev.2) score ->
  drain fuel score type now w = Ok w' ->
  now + SCHEDULE_AHEAD_TIME <= nextNoteTime w' /\
  nextNoteTime w <= nextNoteTime w' /\
  exists l, calls w' = calls w ++ l /\
    Forall (fun c => nextNoteTime w <= call_time c /\
                     call_time c < now + SCHEDULE_AHEAD_TIME) l.
Proof using Type.
  clear score_nonempty.
  induction fuel as [|fuel IH]; intros w w' Hpos; simpl; [discriminate|].
  destruct (Qlt_bool _ _) eqn:Hlt.
  - unfold loop_body.
    destruct (score !! scoreIndex w) as [[note d]|] eqn:E; [|discriminate].
    cbn [bind]. intros H. apply IH in H; [|exact Hpos]. simpl in H.
    destruct (scheduleNote_frame note d (nextNoteTime w) type w)
      as (_ & Hst & Hsc & _).
    rewrite Hst, Hsc in H.
    destruct H as (Hend & Hgrow & l & Hl & Hall).
    assert (Hd : 0 <= d * SECONDS_PER_BEAT).
    { rewrite Forall_lookup in Hpos. specialize (Hpos _ _ E). simpl in Hpos.
      apply Qmult_le_0_compat; [exact Hpos|].
      unfold SECONDS_PER_BEAT, TEMPO. unfold Qle; simpl; lia. }
    split; [exact Hend|]. split; [lra|].
    exists (mkCall note d (nextNoteTime w) type :: l). split.
    + rewrite Hl, <- app_assoc. reflexivity.
    + constructor.
      * simpl. split; [apply Qle_refl|]. apply Qlt_bool_iff. exact Hlt.
      * eapply Forall_impl; [exact Hall|]. simpl. intros c [H1 H2].
        split; [lra|exact H2].
  - intros H. inversion H; subst. apply Qlt_bool_false in Hlt.
    split; [exact Hlt|]. split; [apply Qle_refl|].
    exists []. rewrite app_nil_r. split; [reflexivity|constructor].
Qed.

(** With every step at least [step > 0] long the loop finishes. *)
Lemma drain_total (step : Q) now :
  0 < step ->
  Forall (fun ev : NoteEvent => step <= ev.2 * SECONDS_PER_BEAT) score ->
  forall (n : nat) w,
    (scoreIndex w < length score)%nat ->
    now + SCHEDULE_AHEAD_TIME - nextNoteTime w < inject_Z (Z.of_nat n) * step ->
    exists w', drain (S n) score type now w = Ok w'.
Proof using Type.
  clear score_nonempty.
  intros Hstep Hall. induction n as [|n IH]; intros w Hi Hn.
  - simpl. replace (Qlt_bool _ _) with false; [eauto|].
    symmetry. apply Qlt_bool_false.
    change (inject_Z (Z.of_nat 0)) with 0 in Hn. lra.
  - cbn [drain]. destruct (Qlt_bool _ _) eqn:Hlt; [|eauto].
    unfold loop_body.
    destruct (score !! scoreIndex w) as [[note d]|] eqn:E.
    + cbn [bind]. apply IH.
      * simpl. apply Nat.mod_upper_bound. lia.
      * simpl.
        destruct (scheduleNote_frame note d (nextNoteTime w) type w)
          as (_ & Hst & _).
        rewrite Hst.
        rewrite Forall_lookup in Hall. specialize (Hall _ _ E).
        simpl in Hall.
        rewrite Nat2Z.inj_succ, <- Z.add_1_r, inject_Z_plus in Hn.
        change (inject_Z 1) with 1 in Hn. lra.
    + apply lookup_ge_None in E. lia.
Qed.
End Drain.

(** *** Facts about the two scores *)

Lemma score_nonempty m : (0 < length (score_of m))%nat.
Proof. destruct m; simpl; lia. Qed.

Lemma min_step_value : min_step == 3 # 28.
Proof. reflexivity. Qed.

Lemma min_step_pos : 0 < min_step.
Proof. rewrite min_step_value. reflexivity. Qed.

Lemma score_steps m :
  Forall (fun ev : NoteEvent => min_step <= ev.2 * SECONDS_PER_BEAT)
         (score_of m).
Proof.
  destruct m; simpl;
    repeat (constructor; [apply Qle_bool_iff; vm_compute; reflexivity|]);
    constructor.
Qed.

Lemma score_durations_pos m :
  Forall (fun ev : NoteEvent => 0 < ev.2) (score_of m).
Proof.
  destruct m; simpl;
    repeat (constructor; [apply Qlt_bool_iff; vm_compute; reflexivity|]);
    constructor.
Qed.

Lemma score_durations_nonneg m :
  Forall (fun ev : NoteEvent => 0 <= ev.2) (score_of m).
Proof.
  eapply Forall_impl; [apply score_durations_pos|].
  intros ev H. apply Qlt_le_weak. exact H.
Qed.

Lemma enough_steps (x : Q) :
  exists n : nat, x < inject_Z (Z.of_nat n) * min_step.
Proof.
  exists (Z.to_nat (Qceiling (x * 10)) + 1)%nat.
  rewrite min_step_value.
  pose proof (Qle_ceiling (x * 10)) as Hc.
  assert (Hz : (Qceiling (x * 10) + 1 <=
                Z.of_nat (Z.to_nat (Qceiling (x * 10)) + 1))%Z) by lia.
  rewrite Zle_Qle, inject_Z_plus in Hz. change (inject_Z 1) with 1 in Hz.
  assert (H0 : (0 <= Z.of_nat (Z.to_nat (Qceiling (x * 10)) + 1))%Z) by lia.
  rewrite Zle_Qle in H0. change (inject_Z 0) with 0 in H0.
  set (n := inject_Z (Z.of_nat (Z.to_nat (Qceiling (x * 10)) + 1))) in *.
  set (c := inject_Z (Qceiling (x * 10))) in *.
  lra.
Qed.

(** *** The callbacks and the toggles, uniformly in the melody *)

Lemma scheduler_of_eq m fuel now w :
  scheduler_of m fuel now w =
  match audioCtx w with
  | None => Ok w
  | Some _ =>
      bind (drain fuel (score_of m) (timbre_of m) now w) (fun w =>
        let (h, w) := setTimeout m (LOOKAHEAD * 1000) w in
        Ok (set_handle m (Some h) w))
  end.
Proof. destruct m; reflexivity. Qed.

Lemma toggle_eq m fuel shouldPlay now w :
  toggle m fuel shouldPlay now w =
  let w := getCtx w in
  if shouldPlay then
    match handle_of m w, handle_of (other m) w with
    | None, None =>
        scheduler_of m fuel now
          (set_scoreIndex 0%nat (set_nextNoteTime (now + 0.1) w))
    | _, _ => Ok w
    end
  else
    match handle_of m w with
    | Some h => Ok (set_handle m None (clearTimeout h w))
    | None => Ok w
    end.
Proof. destruct m; reflexivity. Qed.

Lemma fire_eq fuel h now w :
  fire fuel h now w =
  match List.find (fun t => Nat.eqb (timer_id t) h) (timers w) with
  | None => Ok w
  | Some t => scheduler_of (timer_cb t) fuel now (clearTimeout h w)
  end.
Proof.
  unfold fire. destruct (List.find _ _) as [t|]; [|reflexivity].
  destruct (timer_cb t); reflexivity.
Qed.

Lemma handle_set_same m h w : handle_of m (set_handle m h w) = h.
Proof. destruct m; reflexivity. Qed.

Lemma handle_set_other m h w :
  handle_of (other m) (set_handle m h w) = handle_of (other m) w.
Proof. destruct m; reflexivity. Qed.

Lemma clear_only h d m :
  filter (fun t => timer_id t <> h) [mkTimer h m d] = [].
Proof.
  rewrite filter_cons, filter_nil. simpl.
  destruct (decide (h <> h)) as [Hn|_]; [congruence|reflexivity].
Qed.

(** A callback entered with an empty timer queue, a context, the other
    handle unset and a phase [k] ends in a later phase with itself as the one
    pending timeout. *)
Lemma scheduler_playing m fuel now t0 base k w w' :
  phase (score_of m) (timbre_of m) t0 base k w ->
  is_Some (audioCtx w) ->
  timers w = [] ->
  handle_of (other m) w = None ->
  scheduler_of m fuel now w = Ok w' ->
  exists k', (k <= k')%nat /\ playing m t0 base k' w'.
Proof.
  intros Hp [ctx Hctx] Ht Ho. rewrite scheduler_of_eq, Hctx.
  destruct (drain fuel _ _ now w) as [w1| |] eqn:Hd; simpl; try discriminate.
  intros H. inversion H; subst; clear H.
  destruct (drain_frame _ _ (score_nonempty m) _ _ _ _ Hd)
    as ((Hm & Hc & Htm & Hid & Hctx') & _).
  destruct (drain_phase _ _ (score_nonempty m) _ _ _ _ _ _ _ Hp Hd)
    as (k' & Hle & Hp').
  exists k'. split; [exact Hle|].
  unfold playing. split; [|split; [|split]].
  - destruct Hp' as (Hi & Hn & Hcs). destruct m; repeat split; simpl; auto.
  - exists (nextTimerId w1). split.
    + destruct m; reflexivity.
    + destruct m; simpl; rewrite Htm, Ht; reflexivity.
  - destruct m; simpl in *; congruence.
  - destruct m; simpl; apply Hctx'; rewrite Hctx; eauto.
Qed.

Lemma tick_playing m fuel now t0 base k w w' :
  playing m t0 base k w ->
  tick fuel now w = Ok w' ->
  exists k', (k <= k')%nat /\ playing m t0 base k' w'.
Proof.
  intros (Hp & (h & Hh & Ht) & Ho & Hctx). unfold tick. rewrite Ht.
  rewrite fire_eq, Ht. simpl. rewrite Nat.eqb_refl. simpl.
  apply scheduler_playing.
  - destruct Hp as (Hi & Hn & Hc). repeat split; simpl; auto.
  - exact Hctx.
  - unfold clearTimeout; simpl. rewrite Ht. apply clear_only.
  - exact Ho.
Qed.

Lemma ticks_playing m fuel nows : forall t0 base k w w',
  playing m t0 base k w ->
  ticks fuel nows w = Ok w' ->
  exists k', (k <= k')%nat /\ playing m t0 base k' w'.
Proof.
  induction nows as [|now nows IH]; intros t0 base k w w' Hp; simpl.
  - intros H. inversion H; subst. exists k. split; [lia|exact Hp].
  - destruct (tick fuel now w) as [w1| |] eqn:Ht; simpl; try discriminate.
    destruct (tick_playing _ _ _ _ _ _ _ _ Hp Ht) as (k1 & Hle1 & Hp1).
    intros H. destruct (IH _ _ _ _ _ Hp1 H) as (k2 & Hle2 & Hp2).
    exists k2. split; [lia|exact Hp2].
Qed.

(** *** The invariant of the module *)

Lemma pending_ok_running m h w :
  handle_of m w = Some h ->
  handle_of (other m) w = None ->
  timers w = [mkTimer h m (LOOKAHEAD * 1000)] ->
  (scoreIndex w < length (score_of m))%nat ->
  pending_ok w.
Proof.
  unfold pending_ok. destruct m; simpl; intros -> -> Ht Hi; auto.
Qed.

Lemma pending_ok_cases w :
  pending_ok w ->
  (musicScheduler w = None /\ castleMusicScheduler w = None /\ timers w = [])
  \/ exists m h,
       handle_of m w = Some h /\ handle_of (other m) w = None /\
       timers w = [mkTimer h m (LOOKAHEAD * 1000)] /\
       (scoreIndex w < length (score_of m))%nat.
Proof.
  unfold pending_ok.
  destruct (musicScheduler w) as [h|] eqn:Hm;
    destruct (castleMusicScheduler w) as [h'|] eqn:Hc; intros H.
  - destruct H.
  - right. exists treeCb, h. simpl. tauto.
  - right. exists castleCb, h'. simpl. tauto.
  - left. auto.
Qed.

Lemma Inv_initial : Inv initial.
Proof. split; [reflexivity|]. simpl. congruence. Qed.

Lemma Inv_getCtx w : Inv w -> Inv (getCtx w).
Proof.
  unfold getCtx. destruct (audioCtx w) eqn:Hc; [auto|].
  intros [Hp Ha]. split; [exact Hp|]. simpl. eauto.
Qed.

Lemma getCtx_some w : is_Some (audioCtx (getCtx w)).
Proof. unfold getCtx. destruct (audioCtx w) eqn:Hc; simpl; eauto. Qed.

Lemma getCtx_id w : is_Some (audioCtx w) -> getCtx w = w.
Proof. unfold getCtx. intros [c ->]. reflexivity. Qed.

Lemma getCtx_fields w :
  musicScheduler (getCtx w) = musicScheduler w /\
  castleMusicScheduler (getCtx w) = castleMusicScheduler w /\
  timers (getCtx w) = timers w /\ calls (getCtx w) = calls w /\
  scoreIndex (getCtx w) = scoreIndex w /\
  nextNoteTime (getCtx w) = nextNoteTime w.
Proof. unfold getCtx. destruct (audioCtx w); simpl; auto 10. Qed.

Lemma scheduler_Inv m fuel now w w' :
  is_Some (audioCtx w) ->
  timers w = [] ->
  handle_of (other m) w = None ->
  (scoreIndex w < length (score_of m))%nat ->
  scheduler_of m fuel now w = Ok w' ->
  Inv w'.
Proof.
  intros [ctx Hctx] Ht Ho Hi. rewrite scheduler_of_eq, Hctx.
  destruct (drain fuel _ _ now w) as [w1| |] eqn:Hd; simpl; try discriminate.
  intros H. inversion H; subst; clear H.
  destruct (drain_frame _ _ (score_nonempty m) _ _ _ _ Hd)
    as ((Hm & Hc & Htm & Hid & Hctx') & Hi').
  specialize (Hi' Hi). split.
  - apply (pending_ok_running m (nextTimerId w1)).
    + destruct m; reflexivity.
    + destruct m; simpl in *; congruence.
    + destruct m; simpl; rewrite Htm, Ht; reflexivity.
    + destruct m; exact Hi'.
  - intros _. destruct m; simpl; apply Hctx'; rewrite Hctx; eauto.
Qed.

Lemma toggle_Inv m fuel b now w w' :
  Inv w -> toggle m fuel b now w = Ok w' -> Inv w'.
Proof.
  intros HI. rewrite toggle_eq. cbv zeta.
  pose proof (Inv_getCtx w HI) as HI'.
  pose proof (getCtx_some w) as Hsome.
  set (w1 := getCtx w) in *. clearbody w1. clear HI w.
  destruct b.
  - destruct (handle_of m w1) as [h|] eqn:Hm.
    { intros H; inversion H; subst; exact HI'. }
    destruct (handle_of (other m) w1) as [h|] eqn:Ho.
    { intros H; inversion H; subst; exact HI'. }
    apply scheduler_Inv; simpl; auto.
    + destruct HI' as [Hp _]. apply pending_ok_cases in Hp.
      destruct Hp as [(_ & _ & Ht)|(m' & h & Hh & _)]; [exact Ht|].
      destruct m, m'; simpl in *; congruence.
    + apply score_nonempty.
  - destruct (handle_of m w1) as [h|] eqn:Hm.
    2:{ intros H; inversion H; subst; exact HI'. }
    intros H; inversion H; subst; clear H.
    destruct HI' as [Hp _]. apply pending_ok_cases in Hp.
    destruct Hp as [(Hn1 & Hn2 & _)|(m' & h' & Hh & Hoth & Ht & _)].
    { destruct m; simpl in *; congruence. }
    assert (m' = m) by (destruct m, m'; simpl in *; congruence). subst m'.
    assert (h' = h) by congruence. subst h'.
    split.
    + unfold pending_ok.
      destruct m; simpl in *; rewrite ?Hoth, Ht; apply clear_only.
    + intros Hne. exfalso. apply Hne.
      destruct m; simpl; rewrite Ht; apply clear_only.
Qed.

Lemma fire_Inv fuel h now w w' :
  Inv w -> fire fuel h now w = Ok w' -> Inv w'.
Proof.
  intros HI. rewrite fire_eq.
  destruct HI as [Hp Hctx]. pose proof Hp as Hp0.
  apply pending_ok_cases in Hp.
  destruct Hp as [(_ & _ & Ht)|(m & h' & Hh & Hoth & Ht & Hi)].
  - rewrite Ht. simpl. intros H; inversion H; subst. split; assumption.
  - rewrite Ht. simpl. destruct (Nat.eqb_spec h' h) as [->|Hne].
    + simpl. apply scheduler_Inv; simpl.
      * apply Hctx. rewrite Ht. discriminate.
      * rewrite Ht. apply clear_only.
      * exact Hoth.
      * exact Hi.
    + intros H; inversion H; subst. split; assumption.
Qed.

Lemma exec_Inv fuel e w w' : Inv w -> exec fuel e w = Ok w' -> Inv w'.
Proof.
  destruct e as [b now|b now|h now]; simpl.
  - apply (toggle_Inv treeCb).
  - apply (toggle_Inv castleCb).
  - apply fire_Inv.
Qed.

Lemma reachable_Inv w : reachable w -> Inv w.
Proof.
  induction 1 as [|w fuel e w' _ IH He].
  - apply Inv_initial.
  - exact (exec_Inv _ _ _ _ IH He).
Qed.

(** *** Starting a melody *)

(** With both handles unset, [start] sets the cursor and the index, runs
    the loop once without handing over a note, and leaves the melody's
    callback pending. *)
Lemma start_playing m fuel now0 w0 w1 :
  Inv w0 ->
  musicScheduler w0 = None ->
  castleMusicScheduler w0 = None ->
  toggle m fuel true now0 w0 = Ok w1 ->
  scoreIndex w1 = 0%nat /\ nextNoteTime w1 = now0 + 0.1 /\
  calls w1 = calls w0 /\
  playing m (now0 + 0.1) (calls w0) 0 w1.
Proof.
  intros [Hp _] Hm Hc. rewrite toggle_eq. cbv zeta.
  destruct (getCtx_fields w0) as (Gm & Gc & Gt & Gcs & _).
  destruct (getCtx_some w0) as [ctx Hctx].
  assert (Hh : handle_of m (getCtx w0) = None)
    by (destruct m; simpl; congruence).
  assert (Ho : handle_of (other m) (getCtx w0) = None)
    by (destruct m; simpl; congruence).
  rewrite Hh, Ho, scheduler_of_eq. simpl. rewrite Hctx.
  destruct fuel as [|fuel]; [discriminate|]. cbn [drain]. simpl.
  change SCHEDULE_AHEAD_TIME with 0.1. rewrite Qlt_bool_irrefl. simpl.
  assert (Ht : timers (getCtx w0) = []).
  { rewrite Gt. apply pending_ok_cases in Hp.
    destruct Hp as [(_ & _ & Ht)|(m' & h & Hh' & _)]; [exact Ht|].
    destruct m'; simpl in *; congruence. }
  intros H. inversion H; subst; clear H.
  split; [destruct m; reflexivity|].
  split; [destruct m; reflexivity|].
  split; [destruct m; simpl; congruence|].
  unfold playing. split; [|split; [|split]].
  - unfold phase. destruct m; simpl; rewrite Gcs, app_nil_r; auto.
  - exists (nextTimerId (getCtx w0)).
    destruct m; simpl; rewrite Ht; auto.
  - destruct m; simpl in *; congruence.
  - destruct m; simpl; rewrite Hctx; eauto.
Qed.

Lemma start_ok m now0 w0 :
  Inv w0 ->
  musicScheduler w0 = None ->
  castleMusicScheduler w0 = None ->
  exists w1, forall fuel, toggle m (S fuel) true now0 w0 = Ok w1.
Proof.
  intros _ Hm Hc.
  destruct (getCtx_fields w0) as (Gm & Gc & _).
  destruct (getCtx_some w0) as [ctx Hctx].
  assert (Hh : handle_of m (getCtx w0) = None)
    by (destruct m; simpl; congruence).
  assert (Ho : handle_of (other m) (getCtx w0) = None)
    by (destruct m; simpl; congruence).
  eexists. intros fuel. rewrite toggle_eq. cbv zeta.
  rewrite Hh, Ho, scheduler_of_eq. simpl. rewrite Hctx.
  cbn [drain]. simpl.
  change SCHEDULE_AHEAD_TIME with 0.1. rewrite Qlt_bool_irrefl. simpl.
  reflexivity.
Qed.

(** *** Fuel *)

Lemma scheduler_mono m fuel fuel' now w w' :
  (fuel <= fuel')%nat ->
  scheduler_of m fuel now w = Ok w' -> scheduler_of m fuel' now w = Ok w'.
Proof.
  intros Hle. rewrite !scheduler_of_eq. destruct (audioCtx w); [|auto].
  destruct (drain fuel _ _ now w) as [w1| |] eqn:Hd; simpl; try discriminate.
  rewrite (drain_mono _ _ _ _ _ _ _ Hle Hd). auto.
Qed.

Lemma fire_mono fuel fuel' h now w w' :
  (fuel <= fuel')%nat ->
  fire fuel h now w = Ok w' -> fire fuel' h now w = Ok w'.
Proof.
  intros Hle. rewrite !fire_eq. destruct (List.find _ _); [|auto].
  apply scheduler_mono. exact Hle.
Qed.

Lemma tick_mono fuel fuel' now w w' :
  (fuel <= fuel')%nat ->
  tick fuel now w = Ok w' -> tick fuel' now w = Ok w'.
Proof.
  intros Hle. unfold tick. destruct (timers w); [auto|].
  apply fire_mono. exact Hle.
Qed.

Lemma ticks_mono fuel fuel' nows : forall w w',
  (fuel <= fuel')%nat ->
  ticks fuel nows w = Ok w' -> ticks fuel' nows w = Ok w'.
Proof.
  induction nows as [|now nows IH]; intros w w' Hle; simpl; [auto|].
  destruct (tick fuel now w) as [w1| |] eqn:Ht; simpl; try discriminate.
  rewrite (tick_mono _ _ _ _ _ Hle Ht). simpl. apply IH. exact Hle.
Qed.

Lemma scheduler_total m now w :
  (scoreIndex w < length (score_of m))%nat ->
  exists fuel w', scheduler_of m fuel now w = Ok w'.
Proof.
  intros Hi.
  destruct (enough_steps (now + SCHEDULE_AHEAD_TIME - nextNoteTime w))
    as [n Hn].
  destruct (drain_total (score_of m) (timbre_of m) min_step now
              min_step_pos (score_steps m) n w Hi Hn) as [w1 Hd].
  exists (S n). rewrite scheduler_of_eq. destruct (audioCtx w); [|eauto].
  rewrite Hd. simpl. destruct m; simpl; eauto.
Qed.

Lemma playing_index m t0 base k w :
  playing m t0 base k w -> (scoreIndex w < length (score_of m))%nat.
Proof.
  intros ((Hi & _) & _). rewrite Hi. apply Nat.mod_upper_bound.
  pose proof (score_nonempty m). lia.
Qed.

Lemma tick_total m now t0 base k w :
  playing m t0 base k w -> exists fuel w', tick fuel now w = Ok w'.
Proof.
  intros Hp. pose proof (playing_index _ _ _ _ _ Hp) as Hi.
  destruct Hp as (_ & (h & _ & Ht) & _).
  unfold tick. rewrite Ht. setoid_rewrite fire_eq. rewrite Ht. simpl.
  rewrite Nat.eqb_refl. simpl. apply scheduler_total. exact Hi.
Qed.

Lemma ticks_total m nows : forall t0 base k w,
  playing m t0 base k w -> exists fuel w', ticks fuel nows w = Ok w'.
Proof.
  induction nows as [|now nows IH]; intros t0 base k w Hp; simpl.
  - exists 0%nat, w. reflexivity.
  - destruct (tick_total m now _ _ _ _ Hp) as (f1 & w1 & H1).
    destruct (tick_playing _ _ _ _ _ _ _ _ Hp H1) as (k1 & _ & Hp1).
    destruct (IH _ _ _ _ Hp1) as (f2 & w2 & H2).
    exists (Nat.max f1 f2), w2.
    rewrite (tick_mono f1 (Nat.max f1 f2) now w w1) by (lia || exact H1).
    simpl. apply (ticks_mono f2); [lia|exact H2].
Qed.

(** *** Start times grow with the position *)

Lemma cursor_step_nonneg m t0 k :
  cursor (score_of m) t0 k <= cursor (score_of m) t0 (S k).
Proof.
  rewrite cursor_S.
  pose proof (cyc_Forall _ _ k (score_nonempty m) (score_steps m)) as H.
  simpl in H. pose proof min_step_pos. lra.
Qed.

Lemma cursor_step_pos m t0 k :
  cursor (score_of m) t0 k < cursor (score_of m) t0 (S k).
Proof.
  rewrite cursor_S.
  pose proof (cyc_Forall _ _ k (score_nonempty m) (score_steps m)) as H.
  simpl in H. pose proof min_step_pos. lra.
Qed.

Lemma cursor_mono m t0 j k :
  (j <= k)%nat -> cursor (score_of m) t0 j <= cursor (score_of m) t0 k.
Proof.
  induction 1 as [|k _ IH]; [apply Qle_refl|].
  eapply Qle_trans; [exact IH|apply cursor_step_nonneg].
Qed.

Lemma cursor_strict m t0 j k :
  (j < k)%nat -> cursor (score_of m) t0 j < cursor (score_of m) t0 k.
Proof.
  intros H. eapply Qlt_le_trans; [apply cursor_step_pos|].
  apply cursor_mono. exact H.
Qed.

(** *** What one tick hands over *)

Lemma new_calls_app w w' l : calls w' = calls w ++ l -> new_calls w w' = l.
Proof. unfold new_calls. intros ->. apply drop_app_length. Qed.

Lemma tick_window m fuel now t0 base k w w' :
  playing m t0 base k w ->
  tick fuel now w = Ok w' ->
  now + SCHEDULE_AHEAD_TIME <= nextNoteTime w' /\
  Forall (fun c => nextNoteTime w <= call_time c /\
                   call_time c < now + SCHEDULE_AHEAD_TIME) (new_calls w w').
Proof.
  intros (Hp & (h & Hh & Ht) & Ho & [ctx Hctx]). unfold tick. rewrite Ht.
  rewrite fire_eq, Ht. simpl. rewrite Nat.eqb_refl. simpl.
  rewrite scheduler_of_eq. simpl. rewrite Hctx.
  destruct (drain fuel _ _ now _) as [w1| |] eqn:Hd; simpl; try discriminate.
  intros H. inversion H; subst; clear H.
  apply drain_window in Hd; [|apply score_durations_nonneg].
  simpl in Hd. destruct Hd as (Hend & _ & l & Hl & Hall).
  split.
  - destruct m; exact Hend.
  - rewrite (new_calls_app w _ l); [exact Hall|]. destruct m; exact Hl.
Qed.

Lemma last_cons (a d : Q) l : List.last (a :: l) d = List.last l a.
Proof.
  revert a d. induction l as [|b l IH]; intros a d; [reflexivity|].
  change (List.last (a :: b :: l) d) with (List.last (b :: l) d).
  rewrite (IH b d), (IH b a). reflexivity.
Qed.

Lemma ticks_bound m fuel nows : forall prev t0 base k w w1,
  playing m t0 base k w ->
  prev + SCHEDULE_AHEAD_TIME <= nextNoteTime w ->
  ticks fuel nows w = Ok w1 ->
  List.last nows prev + SCHEDULE_AHEAD_TIME <= nextNoteTime w1.
Proof.
  induction nows as [|now nows IH]; intros prev t0 base k w w1 Hp Hb.
  - simpl. intros H; inversion H; subst. exact Hb.
  - cbn [ticks].
    destruct (tick fuel now w) as [w'| |] eqn:Ht; simpl bind; try discriminate.
    destruct (tick_playing _ _ _ _ _ _ _ _ Hp Ht) as (k' & _ & Hp').
    destruct (tick_window _ _ _ _ _ _ _ _ Hp Ht) as [Hend _].
    intros H. rewrite last_cons. exact (IH now _ _ _ _ _ Hp' Hend H).
Qed.

Lemma play_inv fuel m now0 nows w0 w1 :
  Inv w0 ->
  musicScheduler w0 = None ->
  castleMusicScheduler w0 = None ->
  play fuel m now0 nows w0 = Ok w1 ->
  (exists k, playing m (now0 + 0.1) (calls w0) k w1) /\
  List.last nows now0 + SCHEDULE_AHEAD_TIME <= nextNoteTime w1.
Proof.
  intros HI Hm Hc. unfold play.
  destruct (toggle m fuel true now0 w0) as [w'| |] eqn:Hs; simpl bind;
    try discriminate.
  destruct (start_playing _ _ _ _ _ HI Hm Hc Hs) as (_ & Hn & _ & Hp).
  intros H. split.
  - destruct (ticks_playing _ _ _ _ _ _ _ _ Hp H) as (k & _ & Hk). eauto.
  - apply (ticks_bound m fuel nows now0 _ _ _ _ _ Hp); [|exact H].
    rewrite Hn. change SCHEDULE_AHEAD_TIME with 0.1. apply Qle_refl.
Qed.

Lemma play_total m now0 nows w0 :
  Inv w0 ->
  musicScheduler w0 = None ->
  castleMusicScheduler w0 = None ->
  exists fuel w, play fuel m now0 nows w0 = Ok w.
Proof.
  intros HI Hm Hc.
  destruct (start_ok m now0 w0 HI Hm Hc) as [w1 Hs].
  destruct (start_playing _ _ _ _ _ HI Hm Hc (Hs 0%nat)) as (_ & _ & _ & Hp).
  destruct (ticks_total m nows _ _ _ _ Hp) as (f & w2 & Ht).
  exists (S f), w2. unfold play. rewrite Hs. simpl.
  apply (ticks_mono f); [lia|exact Ht].
Qed.

Lemma ticks_fill m fuel nows : forall t0 base k w w1,
  playing m t0 base k w ->
  ticks fuel nows w = Ok w1 ->
  Forall (fun now => now + SCHEDULE_AHEAD_TIME <= nextNoteTime w1) nows.
Proof.
  induction nows as [|now nows IH]; intros t0 base k w w1 Hp; [constructor|].
  cbn [ticks].
  destruct (tick fuel now w) as [w'| |] eqn:Ht; simpl bind; try discriminate.
  destruct (tick_playing _ _ _ _ _ _ _ _ Hp Ht) as (k' & _ & Hp').
  destruct (tick_window _ _ _ _ _ _ _ _ Hp Ht) as [Hend _].
  intros H. constructor; [|exact (IH _ _ _ _ _ Hp' H)].
  destruct (ticks_playing _ _ _ _ _ _ _ _ Hp' H) as (k2 & Hle & Hp2).
  destruct Hp' as ((_ & Hn' & _) & _). destruct Hp2 as ((_ & Hn2 & _) & _).
  rewrite Hn2. rewrite Hn' in Hend.
  eapply Qle_trans; [exact Hend|]. apply cursor_mono. exact Hle.
Qed.

Lemma play_fill fuel m now0 nows w0 w1 :
  Inv w0 ->
  musicScheduler w0 = None ->
  castleMusicScheduler w0 = None ->
  play fuel m now0 nows w0 = Ok w1 ->
  Forall (fun now => now + SCHEDULE_AHEAD_TIME <= nextNoteTime w1) nows.
Proof.
  intros HI Hm Hc. unfold play.
  destruct (toggle m fuel true now0 w0) as [w'| |] eqn:Hs; simpl bind;
    try discriminate.
  destruct (start_playing _ _ _ _ _ HI Hm Hc Hs) as (_ & _ & _ & Hp).
  exact (ticks_fill m fuel nows _ _ _ _ _ Hp).
Qed.

Lemma stream_last score ty t0 k :
  last (stream score ty t0 (S k)) = Some (call_at score ty t0 k).
Proof. rewrite stream_S. apply last_snoc. Qed.

Lemma toggle_reachable m fuel b now w w' :
  reachable w -> toggle m fuel b now w = Ok w' -> reachable w'.
Proof.
  intros Hr H. destruct m.
  - exact (reach_exec w fuel (EToggleChristmas b now) w' Hr H).
  - exact (reach_exec w fuel (EToggleDisney b now) w' Hr H).
Qed.

Lemma tick_reachable fuel now w w' :
  reachable w -> tick fuel now w = Ok w' -> reachable w'.
Proof.
  intros Hr. unfold tick. destruct (timers w) as [|t ts].
  - intros H; inversion H; subst. exact Hr.
  - intros H. exact (reach_exec w fuel (EFire (timer_id t) now) w' Hr H).
Qed.

Lemma ticks_reachable fuel nows : forall w w',
  reachable w -> ticks fuel nows w = Ok w' -> reachable w'.
Proof.
  induction nows as [|now nows IH]; intros w w' Hr; simpl.
  - intros H; inversion H; subst. exact Hr.
  - destruct (tick fuel now w) as [w1| |] eqn:Ht; simpl; try discriminate.
    apply IH. exact (tick_reachable _ _ _ _ Hr Ht).
Qed.

Lemma play_reachable fuel m now0 nows w w' :
  reachable w -> play fuel m now0 nows w = Ok w' -> reachable w'.
Proof.
  intros Hr. unfold play.
  destruct (toggle m fuel true now0 w) as [w1| |] eqn:Hs; simpl;
    try discriminate.
  apply ticks_reachable. exact (toggle_reachable _ _ _ _ _ _ Hr Hs).
Qed.

Lemma tree_started_reachable : reachable tree_started.
Proof.
  apply (reach_exec initial 1 (EToggleChristmas true 0));
    [apply reach_initial|reflexivity].
Qed.

Lemma castle_at_rest_reachable : reachable castle_at_rest.
Proof.
  apply (play_reachable 10 castleCb 0 [0.15; 0.7] initial);
    [apply reach_initial|vm_compute; reflexivity].
Qed.

(** *** The model at work *)

(** Bell melody started at clock 0, one tick at clock 0.15: the first note
    goes out at 0.1 and the index moves to 1. *)
Example bell_first_tick :
  match play 3 treeCb 0 [0.15] initial with
  | Ok w =>
      map (fun c => (call_note c, Qred (call_time c))) (calls w)
        = [(Some "E5"%string, 1 # 10)] /\
      scoreIndex w = 1%nat
  | _ => False
  end.
Proof. vm_compute. split; reflexivity. Qed.

(** One full cycle of the bell melody is 16 beats, 48/7 seconds: a tick at
    that clock hands over all eleven notes and the index is back at 0. *)
Example bell_full_cycle :
  match play 12 treeCb 0 [48 # 7] initial with
  | Ok w =>
      length (calls w) = 11%nat /\ scoreIndex w = 0%nat /\
      nextNoteTime w == 0.1 + 16 * (60 / 140)
  | _ => False
  end.
Proof. vm_compute. repeat split. Qed.

(** Seven orchestral notes are two oscillators each; the rest that follows
    is an eighth call and no new oscillator. *)
Example rest_leaves_no_oscillator :
  option_map (@length Oscillator) (audioCtx castle_at_rest) = Some 14%nat /\
  match loop_body DISNEY_THEME orchestra castle_at_rest with
  | Ok w =>
      option_map (@length Oscillator) (audioCtx w) = Some 14%nat /\
      length (calls w) = 8%nat
  | _ => False
  end.
Proof. vm_compute. repeat split. Qed.

(** ** The claims about the scheduler *)

(** C1, amended.  After a fresh start of either melody at clock [now0],
    however the following ticks read the clock, the run returns, and:
    the [j]-th note it hands to [scheduleNote] is event [j mod length] of
    the score, and the index ends at the number of notes modulo the length;
    the first note starts at [now0 + 0.1] and every later note at the start
    time of the note before it plus that note's
    [duration * SECONDS_PER_BEAT], the sum the loop accumulates; start
    times increase with the position; the cursor ends at or beyond the end
    [now + SCHEDULE_AHEAD_TIME] of every window a tick has seen, so every
    note that was due is handed over, the first one as soon as a tick finds
    the cursor inside its window.  The closed form is left out: it holds of
    the exact sums ([cursor_closed]) and not of the rounded ones. *)
Theorem scheduler_order_and_times (m : Callback) (w0 : World) (now0 : Q)
    (nows : list Q) :
  reachable w0 ->
  musicScheduler w0 = None ->
  castleMusicScheduler w0 = None ->
  (exists fuel w, play fuel m now0 nows w0 = Ok w) /\
  forall fuel w, play fuel m now0 nows w0 = Ok w ->
    calls w = calls w0 ++ new_calls w0 w /\
    (forall j c, new_calls w0 w !! j = Some c ->
       score_of m !! (j `mod` length (score_of m))%nat
         = Some (call_note c, call_duration c) /\
       call_type c = timbre_of m) /\
    scoreIndex w
      = (length (new_calls w0 w) `mod` length (score_of m))%nat /\
    (forall c, new_calls w0 w !! 0%nat = Some c ->
       call_time c = now0 + 0.1) /\
    (forall j c c',
       new_calls w0 w !! j = Some c -> new_calls w0 w !! S j = Some c' ->
       call_time c' = call_time c + call_duration c * SECONDS_PER_BEAT) /\
    (forall i j ci cj, (i <= j)%nat ->
       new_calls w0 w !! i = Some ci -> new_calls w0 w !! j = Some cj ->
       call_time ci <= call_time cj) /\
    (forall i j ci cj, (i < j)%nat ->
       new_calls w0 w !! i = Some ci -> new_calls w0 w !! j = Some cj ->
       call_time ci < call_time cj) /\
    nextNoteTime w
      = from_option
          (fun c => call_time c + call_duration c * SECONDS_PER_BEAT)
          (now0 + 0.1) (last (new_calls w0 w)) /\
    Forall (fun now => now + SCHEDULE_AHEAD_TIME <= nextNoteTime w) nows /\
    (forall now, now ∈ nows -> now0 + 0.1 < now + SCHEDULE_AHEAD_TIME ->
       exists c, new_calls w0 w !! 0%nat = Some c).
Proof.
  intros Hr Hm Hc. pose proof (reachable_Inv _ Hr) as HI.
  split; [apply play_total; assumption|].
  intros fuel w Hplay.
  destruct (play_inv _ _ _ _ _ _ HI Hm Hc Hplay) as [[k Hp] _].
  pose proof (play_fill _ _ _ _ _ _ HI Hm Hc Hplay) as Hfill.
  destruct Hp as ((Hidx & Hnext & Hcs) & _).
  pose proof (new_calls_app w0 w _ Hcs) as Hnew. rewrite Hnew.
  assert (Hat : forall j c,
    stream (score_of m) (timbre_of m) (now0 + 0.1) k !! j = Some c ->
    c = call_at (score_of m) (timbre_of m) (now0 + 0.1) j).
  { intros j c Hj. pose proof (lookup_lt_Some _ _ _ Hj) as Hlt.
    rewrite stream_length in Hlt. rewrite stream_lookup in Hj by exact Hlt.
    congruence. }
  split; [exact Hcs|].
  split.
  { intros j c Hj. rewrite (Hat _ _ Hj). simpl.
    rewrite (cyc_lookup _ j (score_nonempty m)).
    split; [destruct (cyc (score_of m) j); reflexivity|reflexivity]. }
  split; [rewrite stream_length; exact Hidx|].
  split; [intros c Hj; rewrite (Hat _ _ Hj); reflexivity|].
  split.
  { intros j c c' Hj Hj'. rewrite (Hat _ _ Hj), (Hat _ _ Hj'). simpl.
    apply cursor_S. }
  split.
  { intros i j ci cj Hij Hi Hj. rewrite (Hat _ _ Hi), (Hat _ _ Hj). simpl.
    apply cursor_mono. exact Hij. }
  split.
  { intros i j ci cj Hij Hi Hj. rewrite (Hat _ _ Hi), (Hat _ _ Hj). simpl.
    apply cursor_strict. exact Hij. }
  split.
  { rewrite Hnext. destruct k as [|k]; [reflexivity|].
    rewrite stream_last. simpl. apply cursor_S. }
  split; [exact Hfill|].
  intros now Hin Hdue.
  destruct k as [|k].
  - exfalso. rewrite Forall_forall in Hfill. specialize (Hfill _ Hin).
    rewrite Hnext in Hfill. unfold cursor in Hfill. simpl in Hfill.
    apply (Qlt_irrefl (now0 + 0.1)).
    eapply Qlt_le_trans; [exact Hdue|exact Hfill].
  - eexists. apply stream_lookup. lia.
Qed.

Lemma scheduler_order_and_times_witness :
  exists w c0 c1,
    play 3 treeCb 0 [0.15; 0.6; 0.7] initial = Ok w /\
    new_calls initial w = [c0; c1] /\
    JINGLE_BELLS !! 0%nat = Some (call_note c0, call_duration c0) /\
    JINGLE_BELLS !! 1%nat = Some (call_note c1, call_duration c1) /\
    scoreIndex w = 2%nat /\
    call_time c0 = 0 + 0.1 /\
    call_time c1 = call_time c0 + call_duration c0 * SECONDS_PER_BEAT /\
    call_time c0 < call_time c1 /\
    0.7 + SCHEDULE_AHEAD_TIME <= nextNoteTime w.
Proof.
  destruct (scheduler_order_and_times treeCb initial 0 [0.15; 0.6; 0.7]
              reach_initial eq_refl eq_refl) as [_ H].
  destruct (play 3 treeCb 0 [0.15; 0.6; 0.7] initial) as [w| |] eqn:E;
    [|vm_compute in E; discriminate..].
  destruct (H 3%nat w E)
    as (_ & Hord & Hidx & Hfirst & Hstep & _ & Hlt & _ & Hfill & _).
  assert (Hn : exists c0 c1, new_calls initial w = [c0; c1]).
  { vm_compute in E. inversion E; subst w. eexists _, _. reflexivity. }
  destruct Hn as (c0 & c1 & Hn). rewrite Hn in *.
  exists w, c0, c1.
  split; [reflexivity|]. split; [exact Hn|].
  split; [exact (proj1 (Hord 0%nat c0 eq_refl))|].
  split; [exact (proj1 (Hord 1%nat c1 eq_refl))|].
  split; [exact Hidx|].
  split; [exact (Hfirst c0 eq_refl)|].
  split; [exact (Hstep 0%nat c0 c1 eq_refl eq_refl)|].
  split; [exact (Hlt 0%nat 1%nat c0 c1 ltac:(lia) eq_refl eq_refl)|].
  inversion Hfill as [|? ? _ Hf1]; subst.
  inversion Hf1 as [|? ? _ Hf2]; subst.
  inversion Hf2 as [|? ? Hf3 _]; subst. exact Hf3.
Defined.

(** C2.  In every state the module can reach at most one of the two handles
    is set and at most one callback is pending; while either melody runs,
    [toggleChristmasMusic(true)] and [toggleDisneyMusic(true)] both return
    with the state unchanged. *)
Theorem one_scheduler_at_a_time (w : World) :
  reachable w ->
  ~ (is_Some (musicScheduler w) /\ is_Some (castleMusicScheduler w)) /\
  (length (timers w) <= 1)%nat /\
  (is_Some (musicScheduler w) \/ is_Some (castleMusicScheduler w) ->
   forall fuel now,
     toggleChristmasMusic fuel true now w = Ok w /\
     toggleDisneyMusic fuel true now w = Ok w).
Proof.
  intros Hr. destruct (reachable_Inv _ Hr) as [Hp Hctx].
  apply pending_ok_cases in Hp.
  destruct Hp as [(Hm & Hc & Ht)|(m & h & Hh & Ho & Ht & _)].
  - rewrite Hm, Hc, Ht. split; [intros [[x Hx] _]; discriminate|].
    split; [simpl; lia|]. intros [[x Hx]|[x Hx]]; discriminate.
  - assert (Hsome : is_Some (audioCtx w)) by (apply Hctx; rewrite Ht; discriminate).
    split; [|split].
    + intros [[x Hx] [y Hy]]. destruct m; simpl in *; congruence.
    + rewrite Ht. simpl. lia.
    + intros _ fuel now. unfold toggleChristmasMusic, toggleDisneyMusic.
      rewrite (getCtx_id w Hsome).
      destruct m; simpl in Hh, Ho; rewrite Hh, Ho; split; reflexivity.
Qed.

Lemma one_scheduler_at_a_time_witness :
  reachable tree_started /\
  toggleChristmasMusic 9 true 5 tree_started = Ok tree_started /\
  toggleDisneyMusic 9 true 5 tree_started = Ok tree_started.
Proof.
  split; [exact tree_started_reachable|].
  apply (one_scheduler_at_a_time tree_started tree_started_reachable).
  left. simpl. eauto.
Defined.

(** C7.  Stop the running melody [a], then start melody [b] at clock [t2]:
    the start returns with the index at 0, the cursor at [t2 + 0.1] and no
    note handed over yet; whatever ticks follow, the first note handed over
    is the first event of [b]'s score, at [t2 + 0.1]; and a tick at any
    clock after [t2] does hand it over. *)
Theorem restart_from_beginning (a b : Callback) (w w1 : World) (f1 : nat)
    (t1 t2 : Q) :
  reachable w ->
  is_Some (handle_of a w) ->
  toggle a f1 false t1 w = Ok w1 ->
  exists w2,
    (forall fuel, toggle b (S fuel) true t2 w1 = Ok w2) /\
    scoreIndex w2 = 0%nat /\
    nextNoteTime w2 = t2 + 0.1 /\
    calls w2 = calls w /\
    (forall fuel nows w3 c,
       ticks fuel nows w2 = Ok w3 ->
       new_calls w w3 !! 0%nat = Some c ->
       score_of b !! 0%nat = Some (call_note c, call_duration c) /\
       call_time c = t2 + 0.1 /\
       call_type c = timbre_of b) /\
    (forall now, t2 < now ->
       exists fuel w3 c,
         tick fuel now w2 = Ok w3 /\ new_calls w w3 !! 0%nat = Some c).
Proof.
  intros Hr [h Hh] Hstop. pose proof (reachable_Inv _ Hr) as HI.
  pose proof (toggle_Inv _ _ _ _ _ _ HI Hstop) as HI1.
  assert (Hfacts : musicScheduler w1 = None /\ castleMusicScheduler w1 = None
                   /\ calls w1 = calls w).
  { revert Hstop. rewrite toggle_eq. cbv zeta.
    destruct (getCtx_fields w) as (Gm & Gc & _ & Gcs & _).
    assert (Hg : handle_of a (getCtx w) = Some h)
      by (destruct a; simpl in *; congruence).
    rewrite Hg. intros H. inversion H; subst; clear H.
    destruct HI as [Hp _]. apply pending_ok_cases in Hp.
    destruct Hp as [(Hn1 & Hn2 & _)|(m' & h' & Hh' & Hoth & _)].
    { destruct a; simpl in *; congruence. }
    assert (m' = a) by (destruct a, m'; simpl in *; congruence). subst m'.
    destruct a; simpl in *; repeat split; congruence. }
  destruct Hfacts as (Hm1 & Hc1 & Hcs1).
  destruct (start_ok b t2 w1 HI1 Hm1 Hc1) as [w2 Hs].
  destruct (start_playing _ _ _ _ _ HI1 Hm1 Hc1 (Hs 0%nat))
    as (Hi2 & Hn2 & Hcs2 & Hp2).
  exists w2. split; [exact Hs|]. split; [exact Hi2|]. split; [exact Hn2|].
  split; [congruence|]. rewrite Hcs1 in Hp2. split.
  - intros fuel nows w3 c Hticks Hc.
    destruct (ticks_playing _ _ _ _ _ _ _ _ Hp2 Hticks) as (k & _ & Hp3).
    destruct Hp3 as ((_ & _ & Hcs3) & _).
    rewrite (new_calls_app w w3 _ Hcs3) in Hc.
    pose proof (lookup_lt_Some _ _ _ Hc) as Hlt.
    rewrite stream_length in Hlt. rewrite stream_lookup in Hc by exact Hlt.
    inversion Hc; subst c; clear Hc. simpl.
    split; [|split; reflexivity].
    destruct b; reflexivity.
  - intros now Hnow.
    destruct (tick_total b now _ _ _ _ Hp2) as (fuel & w3 & Ht).
    destruct (tick_playing _ _ _ _ _ _ _ _ Hp2 Ht) as (k & _ & Hp3).
    destruct (tick_window _ _ _ _ _ _ _ _ Hp2 Ht) as [Hend _].
    destruct Hp3 as ((_ & Hn3 & Hcs3) & _).
    destruct k as [|k].
    + exfalso. rewrite Hn3 in Hend. unfold cursor in Hend. simpl in Hend.
      change SCHEDULE_AHEAD_TIME with 0.1 in Hend. lra.
    + exists fuel, w3. eexists. split; [exact Ht|].
      rewrite (new_calls_app w w3 _ Hcs3). apply stream_lookup. lia.
Qed.

Lemma restart_from_beginning_witness :
  exists w2,
    toggleDisneyMusic 1 true 3 (set_castleMusicScheduler None
      (clearTimeout 3 castle_at_rest)) = Ok w2 /\
    scoreIndex w2 = 0%nat /\ nextNoteTime w2 = 3 + 0.1.
Proof.
  destruct (restart_from_beginning castleCb castleCb castle_at_rest
              (set_castleMusicScheduler None (clearTimeout 3 castle_at_rest))
              0 2 3 castle_at_rest_reachable)
    as (w2 & Hs & Hi & Hn & _).
  - simpl. eauto.
  - reflexivity.
  - exists w2. split; [exact (Hs 0%nat)|]. split; [exact Hi|exact Hn].
Defined.

(** C8, as stated, fails: the bell melody starts at clock 0, its timeout of
    100 ms is run at clock 0.15, that is 0.05 s late and within the 0.1 s
    lookahead, and the tick hands over the first note with start time 0.1,
    which has already passed. *)
Lemma late_timer_late_note :
  exists w1 w2 c,
    play 1 treeCb 0 [] initial = Ok w1 /\
    timers w1 = [mkTimer 1 treeCb (LOOKAHEAD * 1000)] /\
    tick 2 0.15 w1 = Ok w2 /\
    0 + LOOKAHEAD <= 0.15 /\
    0.15 <= 0 + LOOKAHEAD + SCHEDULE_AHEAD_TIME /\
    new_calls w1 w2 !! 0%nat = Some c /\
    call_time c < 0.15.
Proof.
  eexists _, _, _.
  split; [vm_compute; reflexivity|].
  split; [reflexivity|].
  split; [vm_compute; reflexivity|].
  split; [vm_compute; discriminate|].
  split; [vm_compute; discriminate|].
  split; [vm_compute; reflexivity|].
  vm_compute. reflexivity.
Qed.

(** C8, amended.  A tick at clock [now] that follows a start or a tick at
    clock [prev] hands over exactly notes whose start time lies in
    [[prev + 0.1, now + 0.1)].  The polling interval equals the lookahead
    window, so the notes are on time when the timer is not late
    ([now <= prev + LOOKAHEAD]); a late timer is not covered. *)
Theorem handed_over_within_window (m : Callback) (w0 w1 w2 : World)
    (now0 now : Q) (nows : list Q) (fuel fuel' : nat) :
  reachable w0 ->
  musicScheduler w0 = None ->
  castleMusicScheduler w0 = None ->
  play fuel m now0 nows w0 = Ok w1 ->
  tick fuel' now w1 = Ok w2 ->
  Forall (fun c => List.last nows now0 + SCHEDULE_AHEAD_TIME <= call_time c /\
                   call_time c < now + SCHEDULE_AHEAD_TIME)
         (new_calls w1 w2) /\
  (now <= List.last nows now0 + LOOKAHEAD ->
   Forall (fun c => now <= call_time c) (new_calls w1 w2)).
Proof.
  intros Hr Hm Hc Hplay Htick. pose proof (reachable_Inv _ Hr) as HI.
  destruct (play_inv _ _ _ _ _ _ HI Hm Hc Hplay) as [[k Hp] Hb].
  destruct (tick_window _ _ _ _ _ _ _ _ Hp Htick) as [_ Hall].
  assert (Hwin : Forall
    (fun c => List.last nows now0 + SCHEDULE_AHEAD_TIME <= call_time c /\
              call_time c < now + SCHEDULE_AHEAD_TIME) (new_calls w1 w2)).
  { eapply Forall_impl; [exact Hall|]. simpl. intros c [H1 H2].
    split; [|exact H2]. eapply Qle_trans; [exact Hb|exact H1]. }
  split; [exact Hwin|]. intros Hnow.
  eapply Forall_impl; [exact Hwin|]. simpl. intros c [H1 _].
  change LOOKAHEAD with 0.1 in Hnow.
  change SCHEDULE_AHEAD_TIME with 0.1 in H1. lra.
Qed.

Lemma handed_over_within_window_witness :
  exists w1 w2 c,
    play 1 treeCb 0 [] initial = Ok w1 /\
    tick 3 0.1 w1 = Ok w2 /\
    new_calls w1 w2 = [c] /\
    call_note c = Some "E5"%string /\
    call_time c == 0.1 /\
    Forall (fun c => 0 + SCHEDULE_AHEAD_TIME <= call_time c /\
                     call_time c < 0.1 + SCHEDULE_AHEAD_TIME)
           (new_calls w1 w2) /\
    Forall (fun c => 0.1 <= call_time c) (new_calls w1 w2).
Proof.
  eexists _, _, _.
  split; [vm_compute; reflexivity|].
  split; [vm_compute; reflexivity|].
  split; [vm_compute; reflexivity|].
  split; [reflexivity|].
  split; [vm_compute; reflexivity|].
  refine ((fun H => conj (proj1 H) (proj2 H _))
            (handed_over_within_window treeCb initial _ _ 0 0.1 [] 1 3
               reach_initial eq_refl eq_refl _ _)).
  - vm_compute. discriminate.
  - vm_compute. reflexivity.
  - vm_compute. reflexivity.
Defined.

(** C10.  When the event at the index is a rest, [scheduleNote] leaves the
    audio graph as it is, and the turn of the loop still moves the cursor by
    [duration * SECONDS_PER_BEAT] and the index by one modulo the length of
    the score. *)
Theorem rest_advances_silently (score : list NoteEvent) (type : Timbre)
    (w : World) (d : Q) :
  score !! scoreIndex w = Some (None, d) ->
  audioCtx (scheduleNote None d (nextNoteTime w) type w) = audioCtx w /\
  exists w',
    loop_body score type w = Ok w' /\
    audioCtx w' = audioCtx w /\
    nextNoteTime w' = nextNoteTime w + d * SECONDS_PER_BEAT /\
    scoreIndex w' = ((scoreIndex w + 1) `mod` length score)%nat /\
    calls w' = calls w ++ [mkCall None d (nextNoteTime w) type].
Proof.
  intros Hrest.
  assert (Hsilent :
    audioCtx (scheduleNote None d (nextNoteTime w) type w) = audioCtx w).
  { unfold scheduleNote. simpl. destruct (audioCtx w) eqn:E; simpl; auto. }
  split; [exact Hsilent|].
  unfold loop_body. rewrite Hrest. eexists. split; [reflexivity|].
  destruct (scheduleNote_frame None d (nextNoteTime w) type w)
    as (Hi & Hn & Hc & _).
  simpl. rewrite Hi, Hn, Hc. auto.
Qed.

Lemma rest_advances_silently_witness :
  exists w',
    loop_body DISNEY_THEME orchestra castle_at_rest = Ok w' /\
    audioCtx w' = audioCtx castle_at_rest /\
    nextNoteTime w' = nextNoteTime castle_at_rest + 0.5 * SECONDS_PER_BEAT /\
    scoreIndex w' = 8%nat.
Proof.
  destruct (rest_advances_silently DISNEY_THEME orchestra castle_at_rest 0.5)
    as (_ & w' & Hb & Ha & Hn & Hi & _).
  - reflexivity.
  - exists w'. split; [exact Hb|]. split; [exact Ha|]. split; [exact Hn|].
    exact Hi.
Defined.

End AudioProofs.

Module SceneProofs.
Import Scene.

(** *** Boxes *)

Lemma within_refl b : within b b.
Proof. unfold within. repeat split; apply Qle_refl. Qed.

Lemma within_extend_both inner outer x y :
  within inner outer -> within (extend inner x y) (extend outer x y).
Proof.
  unfold within, extend; simpl. intros (H1 & H2 & H3 & H4).
  repeat split.
  - apply Q.min_le_compat_r. exact H1.
  - apply Q.max_le_compat_r. exact H2.
  - apply Q.min_le_compat_r. exact H3.
  - apply Q.max_le_compat_r. exact H4.
Qed.

Lemma within_extend_outer inner outer x y :
  within inner outer -> within inner (extend outer x y).
Proof.
  unfold within, extend; simpl. intros (H1 & H2 & H3 & H4).
  repeat split.
  - eapply Qle_trans; [apply Q.le_min_l|exact H1].
  - eapply Qle_trans; [exact H2|apply Q.le_max_l].
  - eapply Qle_trans; [apply Q.le_min_l|exact H3].
  - eapply Qle_trans; [exact H4|apply Q.le_max_l].
Qed.

Lemma accumulate_doors_within pt x y b :
  doors_within b -> doors_within (accumulate pt x y b).
Proof.
  unfold doors_within, accumulate. intros [Hl Hr].
  destruct pt; simpl; split;
    auto using within_extend_both, within_extend_outer.
Qed.

Lemma inPlain_iff b x y :
  inPlain b x y = true <->
  minX b <= x /\ x <= maxX b /\ minY b <= y /\ y <= maxY b.
Proof.
  unfold inPlain. rewrite !andb_true_iff, !Qle_bool_iff. tauto.
Qed.

Lemma inPlain_within inner outer x y :
  within inner outer -> inPlain inner x y = true -> inPlain outer x y = true.
Proof.
  rewrite !inPlain_iff. unfold within.
  intros (H1 & H2 & H3 & H4) (I1 & I2 & I3 & I4).
  repeat split; eapply Qle_trans; eauto.
Qed.

Section FrameProofs.
Variable Math_sin : Q -> Q.
Variable Math_cos : Q -> Q.

Lemma carPoint_doors_within isLightsOn s b p b' it :
  doors_within b ->
  carPoint Math_sin Math_cos isLightsOn s b p = Some (b', it) ->
  doors_within b'.
Proof.
  intros Hb. unfold carPoint.
  destruct (morphCulled _ _); [discriminate|].
  destruct (partMotion _ _ _ _ _) as [[px py] pz].
  destruct (Qlt_bool 10 _); intros H; inversion H; subst; clear H.
  - apply accumulate_doors_within. exact Hb.
  - exact Hb.
Qed.

Lemma carLoop_doors_within isLightsOn s carPoints : forall b l,
  doors_within b ->
  doors_within (carLoop Math_sin Math_cos isLightsOn s carPoints b l).1.
Proof.
  induction carPoints as [|p rest IH]; intros b l Hb; simpl; [exact Hb|].
  destruct (carPoint _ _ _ _ _ _) as [[b' it]|] eqn:E.
  - apply IH. exact (carPoint_doors_within _ _ _ _ _ _ Hb E).
  - apply IH. exact Hb.
Qed.

(** The refs a frame leaves behind are those of [animate], with the
    particles and the bounds of the frame. *)
Lemma render_refs isLightsOn carPoints d s :
  frame_refs (render Math_sin Math_cos isLightsOn carPoints d s) =
  set_frame
    (updateParticles
       (spawn isLightsOn d (particlesRef (animate isLightsOn s))))
    (carLoop Math_sin Math_cos isLightsOn (animate isLightsOn s) carPoints
             (boundsRef (animate isLightsOn s)) []).1
    (animate isLightsOn s).
Proof.
  unfold render. destruct (carLoop _ _ _ _ _ _ _) as [b l]. reflexivity.
Qed.

Lemma render_list isLightsOn carPoints d s :
  frame_list (render Math_sin Math_cos isLightsOn carPoints d s) =
  sortRenderList
    ((carLoop Math_sin Math_cos isLightsOn (animate isLightsOn s) carPoints
              (boundsRef (animate isLightsOn s)) []).2 ++
     map (particleItem Math_sin Math_cos (animate isLightsOn s))
         (updateParticles
            (spawn isLightsOn d (particlesRef (animate isLightsOn s))))).
Proof.
  unfold render. destruct (carLoop _ _ _ _ _ _ _) as [b l]. reflexivity.
Qed.

Lemma render_drawn isLightsOn carPoints d s :
  let f := render Math_sin Math_cos isLightsOn carPoints d s in
  frame_drawn f =
  concat (map (drawItem Math_sin (frame_refs f)) (frame_list f)).
Proof.
  unfold render. destruct (carLoop _ _ _ _ _ _ _) as [b l]. reflexivity.
Qed.
End FrameProofs.

(** *** The sort *)

Lemma insert_Permutation it l : insert it l ≡ₚ it :: l.
Proof.
  induction l as [|h t IH]; simpl; [reflexivity|].
  destruct (Qle_bool _ _); [reflexivity|].
  rewrite IH. apply Permutation_swap.
Qed.

Lemma sortRenderList_Permutation l : sortRenderList l ≡ₚ l.
Proof.
  induction l as [|it l IH]; simpl; [reflexivity|].
  rewrite insert_Permutation, IH. reflexivity.
Qed.

Lemma insert_HdRel a it l :
  ascending_z a it -> HdRel ascending_z a l ->
  HdRel ascending_z a (insert it l).
Proof.
  intros Ha Hl. destruct l as [|h t]; simpl; [constructor; exact Ha|].
  destruct (Qle_bool _ _); constructor; [exact Ha|].
  inversion Hl; assumption.
Qed.

Lemma insert_Sorted it l :
  Sorted ascending_z l -> Sorted ascending_z (insert it l).
Proof.
  induction 1 as [|h t Ht IH Hh]; simpl; [repeat constructor|].
  destruct (Qle_bool (item_z it) (item_z h)) eqn:E.
  - constructor; [constructor; assumption|].
    constructor. apply Qle_bool_iff. exact E.
  - constructor; [exact IH|]. apply insert_HdRel; [|exact Hh].
    unfold ascending_z. apply Qlt_le_weak. apply Qnot_le_lt.
    intros Hle. apply Qle_bool_iff in Hle. congruence.
Qed.

Lemma sortRenderList_Sorted l : Sorted ascending_z (sortRenderList l).
Proof.
  induction l as [|it l IH]; simpl; [constructor|].
  apply insert_Sorted. exact IH.
Qed.

Lemma ascending_z_trans a b c :
  ascending_z a b -> ascending_z b c -> ascending_z a c.
Proof. unfold ascending_z. apply Qle_trans. Qed.

Lemma sortRenderList_StronglySorted l :
  StronglySorted ascending_z (sortRenderList l).
Proof.
  apply Sorted_StronglySorted; [|apply sortRenderList_Sorted].
  intros a b c. apply ascending_z_trans.
Qed.

Lemma ascending_z_descending_depth a b :
  ascending_z a b <-> descending_depth a b.
Proof. unfold ascending_z, descending_depth, depth. split; intros H; lra. Qed.

Lemma StronglySorted_impl (R S : RenderItem -> RenderItem -> Prop) l :
  (forall a b, R a b -> S a b) -> StronglySorted R l -> StronglySorted S l.
Proof.
  intros HRS. induction 1 as [|a l Hl IH Ha]; constructor; [exact IH|].
  eapply Forall_impl; [exact Ha|]. intros b. apply HRS.
Qed.

(** *** The model at work *)

(** Lights off: a click inside both expanded door boxes opens the left door
    only, and the same click again closes it. *)
Example left_door_toggles_back :
  let s1 := (resolveClick false 400 400 sample_refs).1 in
  let s2 := (resolveClick false 400 400 s1).1 in
  targetLeftDoor s1 = 1 /\ targetRightDoor s1 = 0 /\
  targetLeftDoor s2 = 0 /\ targetRightDoor s2 = 0 /\
  playEngineSound (resolveClick false 400 400 sample_refs).2 = false.
Proof. repeat split. Qed.

(** A click on the car away from the doors plays the engine sound. *)
Example car_tap :
  resolveClick false 320 400 sample_refs
    = (sample_refs, mkEffects false true).
Proof. reflexivity. Qed.

(** ** The claims about the scene *)




(** C4.  In a frame with the lights on both door values move a tenth of the
    way to 0, whatever the stored targets are, and the wheel angle grows by
    0.3; in a frame with the lights off the door values move towards the
    stored targets and the wheel angle is 0.  The stored targets are not
    written by [render]. *)
Theorem lights_force_doors_and_wheel (Math_sin Math_cos : Q -> Q)
    (carPoints : list Point3D) (d : Draws) (s : Refs) :
  let lit := frame_refs (render Math_sin Math_cos true carPoints d s) in
  let dark := frame_refs (render Math_sin Math_cos false carPoints d s) in
  doorTargets true s = (0, 0) /\
  valLeftDoor lit = valLeftDoor s + (0 - valLeftDoor s) * 0.1 /\
  valRightDoor lit = valRightDoor s + (0 - valRightDoor s) * 0.1 /\
  wheelRotationRef lit = wheelRotationRef s + 0.3 /\
  doorTargets false s = (targetLeftDoor s, targetRightDoor s) /\
  valLeftDoor dark = valLeftDoor s + (targetLeftDoor s - valLeftDoor s) * 0.1 /\
  valRightDoor dark
    = valRightDoor s + (targetRightDoor s - valRightDoor s) * 0.1 /\
  wheelRotationRef dark = 0 /\
  targetLeftDoor lit = targetLeftDoor s /\
  targetRightDoor lit = targetRightDoor s.
Proof.
  cbv zeta. rewrite !render_refs. repeat split.
Qed.

(** C5, as stated, fails: of two items the sort puts the one with the
    smaller [z], hence the larger depth, first. *)
Lemma sort_is_not_ascending_depth :
  sortRenderList [PointItem 0 0 100 "#db2777" 0 body;
                  HeartItem 0 0 0 "#f472b6" 1 1]
    = [HeartItem 0 0 0 "#f472b6" 1 1; PointItem 0 0 100 "#db2777" 0 body] /\
  ~ Sorted ascending_depth
      (sortRenderList [PointItem 0 0 100 "#db2777" 0 body;
                       HeartItem 0 0 0 "#f472b6" 1 1]).
Proof.
  split; [reflexivity|]. intros H. simpl in H.
  apply Sorted_inv in H. destruct H as [_ H]. apply HdRel_inv in H.
  unfold ascending_depth, depth in H. simpl in H.
  revert H. vm_compute. intros H. apply H. reflexivity.
Qed.

(** C5, amended.  The list a frame draws from holds the items of the car
    points that were not skipped and of the particles, each once, in
    ascending order of [z], that is in descending order of depth
    [1000 - z]: farthest first.  The canvas commands follow that order. *)
Theorem render_back_to_front (Math_sin Math_cos : Q -> Q)
    (isLightsOn : bool) (carPoints : list Point3D) (d : Draws) (s : Refs) :
  let f := render Math_sin Math_cos isLightsOn carPoints d s in
  let a := animate isLightsOn s in
  frame_list f ≡ₚ
    (carLoop Math_sin Math_cos isLightsOn a carPoints (boundsRef a) []).2 ++
    map (particleItem Math_sin Math_cos a) (particlesRef (frame_refs f)) /\
  StronglySorted ascending_z (frame_list f) /\
  StronglySorted descending_depth (frame_list f) /\
  frame_drawn f =
    concat (map (drawItem Math_sin (frame_refs f)) (frame_list f)).
Proof.
  cbv zeta. split; [|split; [|split]].
  - rewrite render_list, render_refs. simpl.
    apply sortRenderList_Permutation.
  - rewrite render_list. apply sortRenderList_StronglySorted.
  - rewrite render_list.
    apply (StronglySorted_impl ascending_z descending_depth).
    + intros a b. apply ascending_z_descending_depth.
    + apply sortRenderList_StronglySorted.
  - apply render_drawn.
Qed.

(** C6.  Parts other than glass, balloon and string are neither skipped nor
    moved by the morph step.  For glass, balloon and string the step is the
    interpolation [pivot + (p - pivot) * scaleMult] towards (0, 50, 0), with
    [scaleMult = 1 - morph] for glass and [morph] for balloon and string.
    At [morph = 0] glass keeps its base position and balloon and string
    points have scale 0, which is the pivot, and are skipped; at
    [morph = 1] it is the other way round.  A skipped point adds no item to
    the frame. *)
Theorem morph_scaling (Math_sin Math_cos : Q -> Q) (morph : Q)
    (p : Q * Q * Q) :
  Forall (fun pt => morphCulled pt morph = false /\
                    morphPoint pt (morphScale pt morph) p = p)
         [body; door_left; door_right; wheel; light_front; light_rear] /\
  Forall (fun pt => forall scaleMult,
            morphPoint pt scaleMult p =
            (0 + (p.1.1 - 0) * scaleMult,
             50 + (p.1.2 - 50) * scaleMult,
             0 + (p.2 - 0) * scaleMult))
         [glass; balloon; string_] /\
  (morphCulled glass 0 = false /\
   same_position (morphPoint glass (morphScale glass 0) p) p) /\
  Forall (fun pt => morphCulled pt 0 = true /\
                    same_position (morphPoint pt (morphScale pt 0) p) pivot)
         [balloon; string_] /\
  (morphCulled glass 1 = true /\
   same_position (morphPoint glass (morphScale glass 1) p) pivot) /\
  Forall (fun pt => morphCulled pt 1 = false /\
                    same_position (morphPoint pt (morphScale pt 1) p) p)
         [balloon; string_] /\
  (forall isLightsOn s b pt,
     morphCulled (part pt) (morphRef s) = true ->
     carPoint Math_sin Math_cos isLightsOn s b pt = None).
Proof.
  destruct p as [[px py] pz].
  split; [repeat constructor|].
  split; [repeat constructor|].
  split; [split; [reflexivity|unfold same_position; simpl; repeat split; ring]|].
  split; [repeat constructor; simpl; ring|].
  split; [split; [reflexivity|unfold same_position; simpl; repeat split; ring]|].
  split; [repeat constructor; simpl; ring|].
  intros isLightsOn s b pt H. unfold carPoint. rewrite H. reflexivity.
Qed.

(** C9.  After every frame each door box lies within the car box, so a
    click inside a door box as it is (no margin) is inside the car box. *)
Theorem door_boxes_within_car_box (Math_sin Math_cos : Q -> Q)
    (isLightsOn : bool) (carPoints : list Point3D) (d : Draws) (s : Refs) :
  let b := boundsRef (frame_refs
                        (render Math_sin Math_cos isLightsOn carPoints d s)) in
  within (leftDoor b) (car b) /\
  within (rightDoor b) (car b) /\
  forall x y,
    inPlain (leftDoor b) x y = true \/ inPlain (rightDoor b) x y = true ->
    inPlain (car b) x y = true.
Proof.
  cbv zeta. rewrite render_refs. simpl.
  pose proof (carLoop_doors_within Math_sin Math_cos isLightsOn
                (animate isLightsOn s) carPoints
                (boundsRef (animate isLightsOn s)) []) as H.
  destruct H as [Hl Hr].
  { unfold doors_within, animate. destruct (doorTargets isLightsOn s).
    simpl. split; apply within_refl. }
  split; [exact Hl|]. split; [exact Hr|].
  intros x y [H|H].
  - exact (inPlain_within _ _ x y Hl H).
  - exact (inPlain_within _ _ x y Hr H).
Qed.

End SceneProofs.

Module AudioExtra.
Import Audio AudioProofs.

(** *** The loop never reads outside the score *)

Lemma drain_no_throw score type fuel now : forall w,
  (0 < length score)%nat ->
  (scoreIndex w < length score)%nat ->
  drain fuel score type now w <> Throw.
Proof.
  induction fuel as [|fuel IH]; intros w Hn Hi; cbn [drain]; [discriminate|].
  destruct (Qlt_bool _ _); [|discriminate]. unfold loop_body.
  destruct (score !! scoreIndex w) as [[note d]|] eqn:E.
  - cbn [bind]. apply IH; [exact Hn|]. simpl.
    apply Nat.mod_upper_bound. lia.
  - apply lookup_ge_None in E. lia.
Qed.

Lemma scheduler_no_throw m fuel now w :
  (scoreIndex w < length (score_of m))%nat ->
  scheduler_of m fuel now w <> Throw.
Proof.
  intros Hi. rewrite scheduler_of_eq. destruct (audioCtx w); [|discriminate].
  pose proof (drain_no_throw (score_of m) (timbre_of m) fuel now w
                (score_nonempty m) Hi) as Hd.
  destruct (drain fuel _ _ now w) as [w1| |]; simpl; try discriminate.
  congruence.
Qed.

Lemma Inv_fire_cases h w :
  Inv w ->
  List.find (fun t => Nat.eqb (timer_id t) h) (timers w) = None \/
  exists m,
    List.find (fun t => Nat.eqb (timer_id t) h) (timers w)
      = Some (mkTimer h m (LOOKAHEAD * 1000)) /\
    timers w = [mkTimer h m (LOOKAHEAD * 1000)] /\
    handle_of m w = Some h /\ handle_of (other m) w = None /\
    (scoreIndex w < length (score_of m))%nat /\
    is_Some (audioCtx w).
Proof.
  intros [Hp Hctx]. apply pending_ok_cases in Hp.
  destruct Hp as [(_ & _ & Ht)|(m & h' & Hh & Ho & Ht & Hi)].
  - left. rewrite Ht. reflexivity.
  - rewrite Ht. simpl. destruct (Nat.eqb_spec h' h) as [->|Hne].
    + right. exists m. repeat split; auto. apply Hctx. rewrite Ht. discriminate.
    + left. reflexivity.
Qed.

Lemma exec_no_throw fuel e w : Inv w -> exec fuel e w <> Throw.
Proof.
  intros HI. destruct e as [b now|b now|h now]; simpl.
  - change (toggle treeCb fuel b now w <> Throw). rewrite toggle_eq. cbv zeta.
    destruct b.
    + destruct (handle_of treeCb (getCtx w)); [discriminate|].
      destruct (handle_of (other treeCb) (getCtx w)); [discriminate|].
      apply scheduler_no_throw. simpl. lia.
    + destruct (handle_of treeCb (getCtx w)); discriminate.
  - change (toggle castleCb fuel b now w <> Throw). rewrite toggle_eq.
    cbv zeta. destruct b.
    + destruct (handle_of castleCb (getCtx w)); [discriminate|].
      destruct (handle_of (other castleCb) (getCtx w)); [discriminate|].
      apply scheduler_no_throw. simpl. lia.
    + destruct (handle_of castleCb (getCtx w)); discriminate.
  - rewrite fire_eq.
    destruct (Inv_fire_cases h w HI) as [->|(m & -> & _ & _ & _ & Hi & _)];
      [discriminate|].
    apply scheduler_no_throw. exact Hi.
Qed.

Lemma toggle_total m b now w :
  Inv w -> exists fuel w', toggle m fuel b now w = Ok w'.
Proof.
  intros HI. destruct b.
  - destruct (handle_of m w) as [h|] eqn:Hm.
    { exists 0%nat. rewrite toggle_eq. cbv zeta.
      assert (handle_of m (getCtx w) = Some h) as ->
        by (destruct (getCtx_fields w) as (? & ? & _);
            destruct m; simpl in *; congruence).
      eauto. }
    destruct (handle_of (other m) w) as [h|] eqn:Ho.
    { exists 0%nat. rewrite toggle_eq. cbv zeta.
      assert (handle_of m (getCtx w) = None) as ->
        by (destruct (getCtx_fields w) as (? & ? & _);
            destruct m; simpl in *; congruence).
      assert (handle_of (other m) (getCtx w) = Some h) as ->
        by (destruct (getCtx_fields w) as (? & ? & _);
            destruct m; simpl in *; congruence).
      eauto. }
    destruct (start_ok m now w HI) as [w1 Hs];
      [destruct m; simpl in *; congruence..|].
    exists 1%nat, w1. apply Hs.
  - exists 0%nat. rewrite toggle_eq. cbv zeta.
    destruct (handle_of m (getCtx w)); eauto.
Qed.

Lemma exec_total e w : Inv w -> exists fuel w', exec fuel e w = Ok w'.
Proof.
  intros HI. destruct e as [b now|b now|h now]; simpl.
  - apply (toggle_total treeCb). exact HI.
  - apply (toggle_total castleCb). exact HI.
  - setoid_rewrite fire_eq.
    destruct (Inv_fire_cases h w HI) as [->|(m & -> & _ & _ & _ & Hi & _)].
    + exists 0%nat. eauto.
    + apply scheduler_total. exact Hi.
Qed.

(** *** The audio graph follows the history *)

Lemma graph_of_app cs cs' : graph_of (cs ++ cs') = graph_of cs ++ graph_of cs'.
Proof. unfold graph_of. rewrite map_app, concat_app. reflexivity. Qed.

Lemma scheduleNote_graph note d t ty w ctx :
  audioCtx w = Some ctx ->
  audioCtx (scheduleNote note d t ty w)
    = Some (ctx ++ call_voices (mkCall note d t ty)).
Proof.
  intros Hc. unfold scheduleNote, call_voices. simpl. rewrite Hc.
  destruct note as [s|]; simpl.
  - destruct (String.eqb s EmptyString); simpl; rewrite ?app_nil_r; auto.
  - rewrite app_nil_r. exact Hc.
Qed.

Lemma drain_audio_inv m fuel now : forall w w',
  is_Some (audioCtx w) ->
  audio_inv w ->
  drain fuel (score_of m) (timbre_of m) now w = Ok w' ->
  audio_inv w'.
Proof.
  induction fuel as [|fuel IH]; intros w w' Hs HI; cbn [drain];
    [discriminate|].
  destruct (Qlt_bool _ _); [|intros H; inversion H; subst; exact HI].
  unfold loop_body.
  destruct (score_of m !! scoreIndex w) as [[note d]|] eqn:E; [|discriminate].
  cbn [bind]. apply IH.
  - simpl. destruct Hs as [ctx Hctx].
    rewrite (scheduleNote_graph _ _ _ _ _ _ Hctx). eauto.
  - destruct Hs as [ctx Hctx]. destruct HI as [Hsync Hall].
    unfold audio_inv, graph_in_sync in *. simpl.
    rewrite (scheduleNote_graph _ _ _ _ _ _ Hctx).
    destruct (scheduleNote_frame note d (nextNoteTime w) (timbre_of m) w)
      as (_ & _ & Hc & _).
    rewrite Hc. rewrite Hctx in Hsync. split.
    + rewrite graph_of_app, <- Hsync. f_equal. unfold graph_of. simpl.
      rewrite app_nil_r. reflexivity.
    + apply Forall_app. split; [exact Hall|]. constructor; [|constructor].
      exists m. simpl. split; [|reflexivity].
      apply list_elem_of_lookup. eauto.
Qed.

Lemma scheduler_audio_inv m fuel now w w' :
  audio_inv w -> scheduler_of m fuel now w = Ok w' -> audio_inv w'.
Proof.
  intros HI. rewrite scheduler_of_eq.
  destruct (audioCtx w) as [ctx|] eqn:Hctx;
    [|intros H; inversion H; subst; exact HI].
  destruct (drain fuel _ _ now w) as [w1| |] eqn:Hd; simpl; try discriminate.
  intros H; inversion H; subst; clear H.
  assert (Hs : is_Some (audioCtx w)) by (rewrite Hctx; eauto).
  pose proof (drain_audio_inv m fuel now w w1 Hs HI Hd) as H1.
  unfold audio_inv, graph_in_sync in *. destruct m; exact H1.
Qed.

Lemma getCtx_audio_inv w : audio_inv w -> audio_inv (getCtx w).
Proof.
  unfold getCtx. destruct (audioCtx w) eqn:Hc; [auto|].
  unfold audio_inv, graph_in_sync. rewrite Hc. simpl.
  intros [-> Hall]. split; [reflexivity|exact Hall].
Qed.

Lemma toggle_audio_inv m fuel b now w w' :
  audio_inv w -> toggle m fuel b now w = Ok w' -> audio_inv w'.
Proof.
  intros HI. apply getCtx_audio_inv in HI. rewrite toggle_eq. cbv zeta.
  destruct b.
  - destruct (handle_of m (getCtx w));
      [intros H; inversion H; subst; exact HI|].
    destruct (handle_of (other m) (getCtx w));
      [intros H; inversion H; subst; exact HI|].
    apply scheduler_audio_inv. exact HI.
  - destruct (handle_of m (getCtx w));
      intros H; inversion H; subst; [|exact HI].
    unfold audio_inv, graph_in_sync in *. destruct m; exact HI.
Qed.

Lemma exec_audio_inv fuel e w w' :
  audio_inv w -> exec fuel e w = Ok w' -> audio_inv w'.
Proof.
  intros HI. destruct e as [b now|b now|h now]; simpl.
  - apply (toggle_audio_inv treeCb). exact HI.
  - apply (toggle_audio_inv castleCb). exact HI.
  - rewrite fire_eq. destruct (List.find _ _) as [t|];
      [|intros H; inversion H; subst; exact HI].
    apply scheduler_audio_inv. exact HI.
Qed.

Lemma reachable_audio_inv w : reachable w -> audio_inv w.
Proof.
  induction 1 as [|w fuel e w' _ IH He].
  - split; [reflexivity|constructor].
  - exact (exec_audio_inv _ _ _ _ IH He).
Qed.

(** *** What a callback does to the cursor and the history *)

Lemma scheduler_window m fuel now w w' :
  scheduler_of m fuel now w = Ok w' ->
  nextNoteTime w <= nextNoteTime w' /\
  (exists l, calls w' = calls w ++ l) /\
  (is_Some (audioCtx w) -> now + SCHEDULE_AHEAD_TIME <= nextNoteTime w').
Proof.
  rewrite scheduler_of_eq. destruct (audioCtx w) as [ctx|] eqn:Hctx.
  - destruct (drain fuel _ _ now w) as [w1| |] eqn:Hd; simpl;
      try discriminate.
    intros H; inversion H; subst; clear H.
    apply drain_window in Hd; [|apply score_durations_nonneg].
    destruct Hd as (Hend & Hgrow & l & Hl & _).
    split; [destruct m; exact Hgrow|].
    split; [exists l; destruct m; exact Hl|].
    intros _. destruct m; exact Hend.
  - intros H; inversion H; subst. split; [apply Qle_refl|].
    split; [exists []; rewrite app_nil_r; reflexivity|].
    intros [x Hx]. discriminate.
Qed.

Lemma toggle_calls m fuel b now w w' :
  toggle m fuel b now w = Ok w' -> exists l, calls w' = calls w ++ l.
Proof.
  rewrite toggle_eq. cbv zeta.
  destruct (getCtx_fields w) as (_ & _ & _ & Gc & _).
  assert (Hnil : exists l, calls (getCtx w) = calls w ++ l)
    by (exists []; rewrite app_nil_r; exact Gc).
  destruct b.
  - destruct (handle_of m (getCtx w));
      [intros H; inversion H; subst; exact Hnil|].
    destruct (handle_of (other m) (getCtx w));
      [intros H; inversion H; subst; exact Hnil|].
    intros H. apply scheduler_window in H. simpl in H.
    destruct H as (_ & [l Hl] & _). exists l. congruence.
  - destruct (handle_of m (getCtx w));
      intros H; inversion H; subst; [|exact Hnil].
    destruct m; exact Hnil.
Qed.

Lemma exec_calls fuel e w w' :
  exec fuel e w = Ok w' -> exists l, calls w' = calls w ++ l.
Proof.
  destruct e as [b now|b now|h now]; simpl.
  - apply (toggle_calls treeCb).
  - apply (toggle_calls castleCb).
  - rewrite fire_eq. destruct (List.find _ _) as [t|].
    + intros H. apply scheduler_window in H. simpl in H. tauto.
    + intros H; inversion H; subst. exists []. rewrite app_nil_r.
      reflexivity.
Qed.

(** *** The oscillators of one note *)

Lemma SECONDS_PER_BEAT_value : SECONDS_PER_BEAT == 3 # 7.
Proof. reflexivity. Qed.

Lemma voices_ok s d t ty :
  0.25 <= d ->
  Forall (fun o => osc_start o = t /\
                   osc_stop o = t + d * SECONDS_PER_BEAT + 1 /\
                   osc_start o + 1 < osc_stop o /\
                   envelope_ok o)
         (voices s d t ty).
Proof.
  intros Hd.
  assert (Hlong : 0.1 < d * SECONDS_PER_BEAT)
    by (rewrite SECONDS_PER_BEAT_value; lra).
  set (u := d * SECONDS_PER_BEAT) in *.
  destruct ty; unfold voices; fold u;
    repeat (constructor; [|try constructor]);
    unfold envelope_ok; simpl;
    repeat match goal with
           | |- _ /\ _ => split
           | |- exists _, _ => eexists; reflexivity
           | |- StronglySorted _ _ => constructor
           | |- Forall _ _ => constructor
           | |- _ = _ => reflexivity
           | |- True => exact I
           end; try lra.
Qed.

Lemma score_durations_min m :
  Forall (fun ev : NoteEvent => 0.25 <= ev.2) (score_of m).
Proof.
  destruct m; simpl;
    repeat (constructor; [apply Qle_bool_iff; vm_compute; reflexivity|]);
    constructor.
Qed.

Lemma call_voices_ok c :
  call_from_scores c ->
  Forall (fun o => osc_start o + 1 < osc_stop o /\ envelope_ok o)
         (call_voices c).
Proof.
  intros (m & Hin & _). unfold call_voices.
  destruct (call_note c) as [n|]; [|constructor].
  destruct (String.eqb n EmptyString); [constructor|].
  pose proof (score_durations_min m) as Hmin.
  rewrite Forall_forall in Hmin. specialize (Hmin _ Hin). simpl in Hmin.
  eapply Forall_impl; [apply voices_ok; exact Hmin|].
  simpl. intros o (_ & _ & H1 & H2). split; assumption.
Qed.

Lemma graph_ok cs :
  Forall call_from_scores cs ->
  Forall (fun o => osc_start o + 1 < osc_stop o /\ envelope_ok o)
         (graph_of cs).
Proof.
  induction 1 as [|c cs Hc _ IH]; [constructor|].
  unfold graph_of. simpl. apply Forall_app. split; [|exact IH].
  apply call_voices_ok. exact Hc.
Qed.

(** ** Further properties of the scheduler *)

(** X1.  Stopping the running melody clears both handles and the timer
    queue and leaves the history and the audio graph as they are; from then
    on running any timeout, or any number of ticks, changes nothing: no note
    is scheduled after the stop. *)
Theorem stop_cancels (m : Callback) (w w1 : World) (f : nat) (t : Q) :
  reachable w ->
  is_Some (handle_of m w) ->
  toggle m f false t w = Ok w1 ->
  musicScheduler w1 = None /\ castleMusicScheduler w1 = None /\
  timers w1 = [] /\ calls w1 = calls w /\ audioCtx w1 = audioCtx w /\
  (forall fuel h now, fire fuel h now w1 = Ok w1) /\
  (forall fuel nows, ticks fuel nows w1 = Ok w1).
Proof.
  intros Hr [h Hh] Hstop. pose proof (reachable_Inv _ Hr) as [Hp Hctx].
  apply pending_ok_cases in Hp.
  destruct Hp as [(Hn1 & Hn2 & _)|(m' & h' & Hh' & Hoth & Ht & _)].
  { destruct m; simpl in *; congruence. }
  assert (m' = m) by (destruct m, m'; simpl in *; congruence). subst m'.
  assert (h' = h) by congruence. subst h'.
  assert (Hsome : is_Some (audioCtx w))
    by (apply Hctx; rewrite Ht; discriminate).
  revert Hstop. rewrite toggle_eq. cbv zeta. rewrite (getCtx_id w Hsome), Hh.
  intros H. inversion H; subst; clear H.
  assert (Htimers : timers (set_handle m None (clearTimeout h w)) = []).
  { destruct m; simpl; rewrite Ht; apply clear_only. }
  split; [destruct m; simpl in *; congruence|].
  split; [destruct m; simpl in *; congruence|].
  split; [exact Htimers|].
  split; [destruct m; reflexivity|].
  split; [destruct m; reflexivity|].
  assert (Hfire : forall fuel h0 now,
    fire fuel h0 now (set_handle m None (clearTimeout h w))
      = Ok (set_handle m None (clearTimeout h w))).
  { intros fuel h0 now. rewrite fire_eq, Htimers. reflexivity. }
  split; [exact Hfire|].
  intros fuel nows. induction nows as [|now nows IH]; [reflexivity|].
  cbn [ticks]. unfold tick. rewrite Htimers. simpl. exact IH.
Qed.

Lemma stop_cancels_witness :
  toggleChristmasMusic 0 false 1 tree_started
    = Ok (set_musicScheduler None (clearTimeout 1 tree_started)) /\
  timers (set_musicScheduler None (clearTimeout 1 tree_started)) = [] /\
  ticks 5 [2; 3; 4] (set_musicScheduler None (clearTimeout 1 tree_started))
    = Ok (set_musicScheduler None (clearTimeout 1 tree_started)).
Proof.
  split; [reflexivity|].
  destruct (stop_cancels treeCb tree_started
              (set_musicScheduler None (clearTimeout 1 tree_started)) 0 1
              tree_started_reachable)
    as (_ & _ & Ht & _ & _ & _ & Hticks).
  - simpl. eauto.
  - reflexivity.
  - split; [exact Ht|apply Hticks].
Defined.

(** X2.  Stopping is idempotent: a second stop of the same melody returns
    the state of the first.  Stopping a melody that is not running only
    makes sure the context exists; the other melody's handle and the timer
    queue are untouched, so a running melody keeps running. *)
Theorem stop_idempotent (m : Callback) (w w1 : World) (f : nat) (t : Q) :
  toggle m f false t w = Ok w1 ->
  (forall f' t', toggle m f' false t' w1 = Ok w1) /\
  (handle_of m w = None ->
   w1 = getCtx w /\ handle_of (other m) w1 = handle_of (other m) w /\
   timers w1 = timers w /\ calls w1 = calls w).
Proof.
  rewrite toggle_eq. cbv zeta.
  destruct (getCtx_fields w) as (Gm & Gc & Gt & Gcs & _).
  destruct (getCtx_some w) as [ctx Hctx].
  destruct (handle_of m (getCtx w)) as [h|] eqn:Hh;
    intros H; inversion H; subst; clear H.
  - split.
    + intros f' t'. rewrite toggle_eq. cbv zeta.
      rewrite getCtx_id by (destruct m; simpl; rewrite Hctx; eauto).
      rewrite handle_set_same. reflexivity.
    + intros Hn. destruct m; simpl in *; congruence.
  - split.
    + intros f' t'. rewrite toggle_eq. cbv zeta.
      rewrite (getCtx_id (getCtx w)) by (rewrite Hctx; eauto).
      rewrite Hh. reflexivity.
    + intros _. split; [reflexivity|].
      destruct m; simpl; auto.
Qed.

Lemma stop_idempotent_witness :
  toggleDisneyMusic 0 false 7 tree_started = Ok tree_started /\
  musicScheduler tree_started = Some 1%nat.
Proof.
  split; [|reflexivity].
  destruct (stop_idempotent castleCb tree_started tree_started 0 7)
    as [Hagain _]; [reflexivity|].
  apply (Hagain 0%nat 7).
Defined.

(** X3.  From a reachable state no call into the module throws (the loop
    never reads outside the score), and with enough fuel every call
    returns. *)
Theorem exec_never_throws (w : World) (e : Event) :
  reachable w ->
  (forall fuel, exec fuel e w <> Throw) /\
  (exists fuel w', exec fuel e w = Ok w').
Proof.
  intros Hr. pose proof (reachable_Inv _ Hr) as HI. split.
  - intros fuel. apply exec_no_throw. exact HI.
  - apply exec_total. exact HI.
Qed.

Lemma exec_never_throws_witness :
  exists fuel w', exec fuel (EFire 3 40) castle_at_rest = Ok w'.
Proof.
  exact (proj2 (exec_never_throws castle_at_rest (EFire 3 40)
                  castle_at_rest_reachable)).
Defined.

(** X4.  In a reachable state the context holds exactly the oscillators of
    the recorded [scheduleNote] calls, in order: one per bell note, two per
    orchestral note, none for a rest; before the context exists nothing was
    scheduled.  Every recorded call plays an event of one of the two
    scores in that melody's timbre. *)
Theorem graph_matches_calls (w : World) :
  reachable w ->
  match audioCtx w with
  | None => calls w = []
  | Some ctx => ctx = graph_of (calls w)
  end /\
  Forall call_from_scores (calls w).
Proof. intros Hr. exact (reachable_audio_inv w Hr). Qed.

Lemma graph_matches_calls_witness :
  match audioCtx castle_at_rest with
  | None => calls castle_at_rest = []
  | Some ctx => ctx = graph_of (calls castle_at_rest)
  end /\
  Forall call_from_scores (calls castle_at_rest).
Proof.
  exact (graph_matches_calls castle_at_rest castle_at_rest_reachable).
Defined.

(** X5.  Every oscillator in the context of a reachable state is stopped
    more than one second after it starts: no oscillator is left running. *)
Theorem oscillators_are_stopped (w : World) (ctx : AudioContext) :
  reachable w ->
  audioCtx w = Some ctx ->
  Forall (fun o => osc_start o + 1 < osc_stop o) ctx.
Proof.
  intros Hr Hctx. destruct (reachable_audio_inv w Hr) as [Hsync Hall].
  unfold graph_in_sync in Hsync. rewrite Hctx in Hsync. subst ctx.
  eapply Forall_impl; [apply graph_ok; exact Hall|].
  simpl. tauto.
Qed.

Lemma oscillators_are_stopped_witness :
  exists ctx,
    audioCtx castle_at_rest = Some ctx /\ length ctx = 14%nat /\
    Forall (fun o => osc_start o + 1 < osc_stop o) ctx.
Proof.
  eexists. split; [reflexivity|]. split; [reflexivity|].
  apply (oscillators_are_stopped castle_at_rest _ castle_at_rest_reachable).
  reflexivity.
Defined.

(** X6.  Every oscillator in the context of a reachable state has a
    well-formed gain envelope: it starts at gain 0 at the oscillator's start
    time, its events come at strictly increasing times (the shortest note,
    a quarter beat, outlasts the 0.1 s attack), none lies after the stop
    time, and every exponential ramp has a positive target. *)
Theorem envelopes_are_ordered (w : World) (ctx : AudioContext) :
  reachable w ->
  audioCtx w = Some ctx ->
  Forall envelope_ok ctx.
Proof.
  intros Hr Hctx. destruct (reachable_audio_inv w Hr) as [Hsync Hall].
  unfold graph_in_sync in Hsync. rewrite Hctx in Hsync. subst ctx.
  eapply Forall_impl; [apply graph_ok; exact Hall|].
  simpl. tauto.
Qed.

Lemma envelopes_are_ordered_witness :
  exists ctx,
    audioCtx castle_at_rest = Some ctx /\ Forall envelope_ok ctx.
Proof.
  eexists. split; [reflexivity|].
  apply (envelopes_are_ordered castle_at_rest _ castle_at_rest_reachable).
  reflexivity.
Defined.

(** X8.  A tick never moves the cursor backwards, and when a callback is
    pending the cursor ends at or beyond the end of the lookahead window,
    [now + 0.1]: the loop drains the whole window before it yields. *)
Theorem tick_fills_window (w w' : World) (fuel : nat) (now : Q) :
  reachable w ->
  tick fuel now w = Ok w' ->
  nextNoteTime w <= nextNoteTime w' /\
  (timers w <> [] -> now + SCHEDULE_AHEAD_TIME <= nextNoteTime w').
Proof.
  intros Hr. pose proof (reachable_Inv _ Hr) as HI. unfold tick.
  destruct (timers w) as [|t ts] eqn:Ht.
  - intros H; inversion H; subst. split; [apply Qle_refl|congruence].
  - rewrite fire_eq.
    destruct (Inv_fire_cases (timer_id t) w HI)
      as [Hnone|(m & Hfind & Ht' & _ & _ & _ & Hsome)].
    + rewrite Ht in Hnone. simpl in Hnone. rewrite Nat.eqb_refl in Hnone.
      discriminate.
    + rewrite Hfind. simpl. intros H. apply scheduler_window in H.
      simpl in H. destruct H as (Hgrow & _ & Hend).
      split; [exact Hgrow|]. intros _. apply Hend. exact Hsome.
Qed.

Lemma tick_fills_window_witness :
  exists w',
    tick 9 2 castle_at_rest = Ok w' /\
    2 + SCHEDULE_AHEAD_TIME <= nextNoteTime w'.
Proof.
  eexists. split; [vm_compute; reflexivity|].
  refine (proj2 (tick_fills_window castle_at_rest _ 9 2
                   castle_at_rest_reachable _) _).
  - vm_compute. reflexivity.
  - discriminate.
Defined.

(** X9.  Nothing the module does removes a scheduled note: across any call
    the history only grows at its end, and so does the list of oscillators
    in the context.  In particular a stop does not cancel notes already
    handed to the synthesizer. *)
Theorem notes_are_never_cancelled (w w' : World) (fuel : nat) (e : Event) :
  reachable w ->
  exec fuel e w = Ok w' ->
  calls w `prefix_of` calls w' /\
  (forall ctx, audioCtx w = Some ctx ->
     exists ctx', audioCtx w' = Some ctx' /\ ctx `prefix_of` ctx').
Proof.
  intros Hr He. destruct (exec_calls _ _ _ _ He) as [l Hl].
  split; [exists l; exact Hl|]. intros ctx Hctx.
  destruct (reachable_audio_inv w Hr) as [Hs _].
  destruct (reachable_audio_inv w' (reach_exec _ _ _ _ Hr He)) as [Hs' _].
  unfold graph_in_sync in *. rewrite Hctx in Hs.
  destruct (audioCtx w') as [ctx'|] eqn:Hctx'.
  - exists ctx'. split; [reflexivity|]. exists (graph_of l).
    rewrite Hs', Hl, graph_of_app, <- Hs. reflexivity.
  - exfalso. revert He Hctx Hctx'. clear.
    destruct e as [b now|b now|h now]; simpl; intros He Hctx Hctx'.
    + revert He. change (toggleChristmasMusic fuel b now w)
        with (toggle treeCb fuel b now w). rewrite toggle_eq. cbv zeta.
      rewrite (getCtx_id w) by (rewrite Hctx; eauto).
      destruct b.
      * destruct (handle_of treeCb w); [congruence|].
        destruct (handle_of (other treeCb) w); [congruence|].
        rewrite scheduler_of_eq. simpl. rewrite Hctx.
        destruct (drain _ _ _ _ _) as [w1| |] eqn:Hd; simpl; try discriminate.
        intros H; inversion H; subst; clear H.
        destruct (drain_frame _ _ (score_nonempty treeCb) _ _ _ _ Hd)
          as ((_ & _ & _ & _ & Hk) & _).
        simpl in Hctx'. destruct Hk as [x Hx]; [simpl; eauto|]. congruence.
      * destruct (handle_of treeCb w); intros H; inversion H; subst;
          simpl in *; congruence.
    + revert He. change (toggleDisneyMusic fuel b now w)
        with (toggle castleCb fuel b now w). rewrite toggle_eq. cbv zeta.
      rewrite (getCtx_id w) by (rewrite Hctx; eauto).
      destruct b.
      * destruct (handle_of castleCb w); [congruence|].
        destruct (handle_of (other castleCb) w); [congruence|].
        rewrite scheduler_of_eq. simpl. rewrite Hctx.
        destruct (drain _ _ _ _ _) as [w1| |] eqn:Hd; simpl; try discriminate.
        intros H; inversion H; subst; clear H.
        destruct (drain_frame _ _ (score_nonempty castleCb) _ _ _ _ Hd)
          as ((_ & _ & _ & _ & Hk) & _).
        simpl in Hctx'. destruct Hk as [x Hx]; [simpl; eauto|]. congruence.
      * destruct (handle_of castleCb w); intros H; inversion H; subst;
          simpl in *; congruence.
    + revert He. rewrite fire_eq. destruct (List.find _ _) as [t|];
        [|congruence].
      rewrite scheduler_of_eq. simpl. rewrite Hctx.
      destruct (drain _ _ _ _ _) as [w1| |] eqn:Hd; simpl; try discriminate.
      intros H; inversion H; subst; clear H.
      destruct (drain_frame _ _ (score_nonempty (timer_cb t)) _ _ _ _ Hd)
        as ((_ & _ & _ & _ & Hk) & _).
      destruct Hk as [x Hx]; [simpl; eauto|].
      destruct (timer_cb t); simpl in Hctx'; congruence.
Qed.

Lemma notes_are_never_cancelled_witness :
  exists w',
    exec 0 (EToggleDisney false 9) castle_at_rest = Ok w' /\
    castleMusicScheduler w' = None /\
    calls castle_at_rest `prefix_of` calls w'.
Proof.
  eexists. split; [reflexivity|]. split; [reflexivity|].
  refine (proj1 (notes_are_never_cancelled castle_at_rest _ 0
                   (EToggleDisney false 9) castle_at_rest_reachable _)).
  reflexivity.
Defined.

Lemma NOTES_positive : map_Forall (fun (_ : string) (f : Q) => 0 < f) NOTES.
Proof.
  unfold NOTES.
  repeat (rewrite list_to_map_cons; apply map_Forall_insert_2;
          [reflexivity|]).
  rewrite list_to_map_nil. apply map_Forall_empty.
Qed.

Lemma DISNEY_NOTES_positive :
  map_Forall (fun (_ : string) (f : Q) => 0 < f) DISNEY_NOTES.
Proof.
  unfold DISNEY_NOTES.
  do 4 (apply map_Forall_insert_2; [reflexivity|]). exact NOTES_positive.
Qed.

Lemma NOTES_in_DISNEY_NOTES note f :
  NOTES !! note = Some f -> DISNEY_NOTES !! note = Some f.
Proof.
  intros Hk. unfold DISNEY_NOTES.
  destruct (decide (note = "F5"%string)) as [->|n1].
  { rewrite lookup_insert_eq, <- Hk. vm_compute. reflexivity. }
  rewrite lookup_insert_ne by congruence.
  destruct (decide (note = "A5"%string)) as [->|n2].
  { exfalso. revert Hk. vm_compute. discriminate. }
  rewrite lookup_insert_ne by congruence.
  destruct (decide (note = "G5"%string)) as [->|n3].
  { rewrite lookup_insert_eq, <- Hk. vm_compute. reflexivity. }
  rewrite lookup_insert_ne by congruence.
  destruct (decide (note = "C6"%string)) as [->|n4].
  { exfalso. revert Hk. vm_compute. discriminate. }
  rewrite lookup_insert_ne by congruence. exact Hk.
Qed.

(** X7.  For a note name that is an own key of the table its timbre reads,
    the entry is positive, [table[note] || 440] is the entry, and it is the
    frequency of every oscillator [scheduleNote] creates for the note; the
    orchestral table has the entry as well, since it spreads the bell table
    and overrides no entry with another number.  Every note of the two
    scores is such a key, so no note of a score falls back to 440. *)
Theorem frequency_is_positive (type : Timbre) (note : string) (f : Q) :
  table_of type !! note = Some f ->
  (0 < f /\
   frequency (table_of type) note = f /\
   (forall d t, Forall (fun o => osc_frequency o = f) (voices note d t type)) /\
   DISNEY_NOTES !! note = Some f) /\
  (forall m n d, (Some n, d) ∈ score_of m ->
     is_Some (table_of (timbre_of m) !! n)).
Proof.
  intros Hk.
  assert (Hpos : 0 < f).
  { destruct type; simpl in Hk.
    - exact (NOTES_positive _ _ Hk).
    - exact (DISNEY_NOTES_positive _ _ Hk). }
  assert (Hf : frequency (table_of type) note = f).
  { unfold frequency. rewrite Hk.
    destruct (Qeq_bool f 0) eqn:E; [|reflexivity].
    apply Qeq_bool_iff in E. rewrite E in Hpos.
    exfalso. exact (Qlt_irrefl 0 Hpos). }
  split.
  - split; [exact Hpos|]. split; [exact Hf|]. split.
    + intros d t. destruct type; simpl in Hf |- *; repeat constructor;
        simpl; exact Hf.
    + destruct type; simpl in Hk; [|exact Hk].
      apply NOTES_in_DISNEY_NOTES. exact Hk.
  - intros m n d Hin.
    assert (Hall : Forall (fun ev : NoteEvent =>
              match ev.1 with
              | Some n => is_Some (table_of (timbre_of m) !! n)
              | None => True
              end) (score_of m)).
    { destruct m; simpl; repeat constructor; simpl; eexists;
        vm_compute; reflexivity. }
    rewrite Forall_forall in Hall. exact (Hall _ Hin).
Qed.

Lemma frequency_is_positive_witness :
  table_of bell !! "E5"%string = Some 659.25 /\
  frequency NOTES "E5" = 659.25 /\
  DISNEY_NOTES !! "E5"%string = Some 659.25.
Proof.
  assert (H : table_of bell !! "E5"%string = Some 659.25)
    by (vm_compute; reflexivity).
  split; [exact H|].
  destruct (frequency_is_positive bell "E5" 659.25 H) as [(_ & A & _ & B) _].
  split; [exact A|exact B].
Defined.

Lemma round24_mono x y : x <= y -> round24 x <= round24 y.
Proof.
  intros H. unfold round24, Qdiv. apply Qmult_le_compat_r; [|discriminate].
  rewrite <- Zle_Qle. apply Qfloor_resp_le. lra.
Qed.

(** X10.  The firework noise buffer holds two seconds of samples.  With
    every draw in [[0, 1)] and a store that rounds monotonically and keeps
    -1 and 1, every sample lies in [[-1, 1]]; the upper end is reached, by
    a draw so close to 1 that the store rounds up. *)
Theorem noise_samples_bounded (fround : Q -> Q) (sampleRate : nat)
    (rand : nat -> Q) :
  (forall x y, x <= y -> fround x <= fround y) ->
  fround (-1) == -1 ->
  fround 1 == 1 ->
  (forall i, 0 <= rand i /\ rand i < 1) ->
  length (noiseSamples fround sampleRate rand) = (sampleRate * 2)%nat /\
  Forall (fun x => -1 <= x /\ x <= 1) (noiseSamples fround sampleRate rand).
Proof.
  intros Hmono Hlo Hhi Hr. unfold noiseSamples. split.
  - rewrite length_map, length_seq. reflexivity.
  - apply Forall_map. apply Forall_forall. intros i _. simpl.
    destruct (Hr i) as [H0 H1]. split.
    + apply Qle_trans with (fround (-1)); [|apply Hmono; lra].
      apply Qle_lteq. right. symmetry. exact Hlo.
    + apply Qle_trans with (fround 1); [apply Hmono; lra|].
      apply Qle_lteq. right. exact Hhi.
Qed.

Lemma noise_samples_bounded_witness :
  length (noiseSamples round24 3 (fun _ => 0.99999999)) = 6%nat /\
  Forall (fun x => -1 <= x /\ x <= 1)
         (noiseSamples round24 3 (fun _ => 0.99999999)) /\
  Forall (fun x => x == 1) (noiseSamples round24 3 (fun _ => 0.99999999)).
Proof.
  destruct (noise_samples_bounded round24 3 (fun _ => 0.99999999))
    as [A B].
  - exact round24_mono.
  - reflexivity.
  - reflexivity.
  - intros _. split; [discriminate|reflexivity].
  - split; [exact A|]. split; [exact B|].
    vm_compute. repeat constructor.
Defined.

End AudioExtra.

Module SceneExtra.
Import Scene SceneProofs.

(** *** Clicks *)




Lemma inExpanded_empty x y : inExpanded margin emptyBounds x y = false.
Proof.
  unfold inExpanded, emptyBounds, margin. simpl.
  destruct (Qle_bool (10000 - 20) x) eqn:E1; [|reflexivity].
  destruct (Qle_bool x (-10000 + 20)) eqn:E2; [|reflexivity].
  apply Qle_bool_iff in E1, E2. exfalso. lra.
Qed.

Lemma inPlain_empty x y : inPlain emptyBounds x y = false.
Proof.
  unfold inPlain, emptyBounds. simpl.
  destruct (Qle_bool 10000 x) eqn:E1; [|reflexivity].
  destruct (Qle_bool x (-10000)) eqn:E2; [|reflexivity].
  apply Qle_bool_iff in E1, E2. exfalso. lra.
Qed.

Lemma flip_cases t : flip t = 0 \/ flip t = 1.
Proof. unfold flip. destruct (Qlt_bool 0.5 t); auto. Qed.

(** ** Further properties of the scene *)

(** X11.  With the lights off and both targets at 0 or 1, the same click
    twice restores the refs: a door opened by a click is closed by the
    next identical click.  Whatever the click, the targets it leaves are
    again 0 or 1. *)
Theorem double_click_restores (x y : Q) (s : Refs) :
  targetLeftDoor s = 0 \/ targetLeftDoor s = 1 ->
  targetRightDoor s = 0 \/ targetRightDoor s = 1 ->
  (resolveClick false x y (resolveClick false x y s).1).1 = s /\
  (targetLeftDoor (resolveClick false x y s).1 = 0 \/
   targetLeftDoor (resolveClick false x y s).1 = 1) /\
  (targetRightDoor (resolveClick false x y s).1 = 0 \/
   targetRightDoor (resolveClick false x y s).1 = 1).
Proof.
  intros Hl Hr. destruct s as [a h m tl tr vl vr ps ti wr b].
  cbn [targetLeftDoor targetRightDoor] in Hl, Hr.
  unfold resolveClick. cbv zeta.
  cbn [boundsRef targetLeftDoor targetRightDoor].
  destruct (inExpanded margin (leftDoor b) x y) eqn:El.
  - cbn [fst boundsRef targetLeftDoor targetRightDoor set_targetLeftDoor
         angleRef hoverYRef morphRef valLeftDoor valRightDoor particlesRef
         timeRef wheelRotationRef].
    rewrite El.
    cbn [fst boundsRef targetLeftDoor targetRightDoor set_targetLeftDoor
         angleRef hoverYRef morphRef valLeftDoor valRightDoor particlesRef
         timeRef wheelRotationRef].
    split; [|split; [apply flip_cases|exact Hr]].
    f_equal. destruct Hl as [->| ->]; reflexivity.
  - destruct (inExpanded margin (rightDoor b) x y) eqn:Er.
    + cbn [fst boundsRef targetLeftDoor targetRightDoor set_targetRightDoor
           angleRef hoverYRef morphRef valLeftDoor valRightDoor particlesRef
           timeRef wheelRotationRef].
      rewrite El, Er.
      cbn [fst boundsRef targetLeftDoor targetRightDoor set_targetRightDoor
           angleRef hoverYRef morphRef valLeftDoor valRightDoor particlesRef
           timeRef wheelRotationRef].
      split; [|split; [exact Hl|apply flip_cases]].
      f_equal. destruct Hr as [->| ->]; reflexivity.
    + cbn [fst boundsRef targetLeftDoor targetRightDoor].
      rewrite El, Er. cbn [fst targetLeftDoor targetRightDoor]. auto.
Qed.

Lemma double_click_restores_witness :
  (resolveClick false 400 400
     (resolveClick false 400 400 sample_refs).1).1 = sample_refs.
Proof.
  apply (double_click_restores 400 400 sample_refs); left; reflexivity.
Defined.



(** *** The loop over the car points *)

Lemma within_extend_self b x y : within b (extend b x y).
Proof. apply within_extend_outer. apply within_refl. Qed.

Lemma extend_contains b x y : inPlain (extend b x y) x y = true.
Proof.
  apply inPlain_iff. unfold extend; simpl.
  repeat split;
    auto using Q.le_min_r, Q.le_max_r.
Qed.

Lemma accumulate_grows pt x y b :
  within (leftDoor b) (leftDoor (accumulate pt x y b)) /\
  within (rightDoor b) (rightDoor (accumulate pt x y b)) /\
  within (car b) (car (accumulate pt x y b)).
Proof.
  unfold accumulate.
  destruct pt; simpl;
    auto using within_refl, within_extend_self.
Qed.

Lemma accumulate_contains pt x y b :
  inPlain (car (accumulate pt x y b)) x y = true /\
  (pt = door_left -> inPlain (leftDoor (accumulate pt x y b)) x y = true) /\
  (pt = door_right -> inPlain (rightDoor (accumulate pt x y b)) x y = true).
Proof.
  unfold accumulate.
  destruct pt; simpl; repeat split;
    intros; try discriminate; apply extend_contains.
Qed.

Lemma accumulate_other_left pt x y b :
  pt <> door_left -> leftDoor (accumulate pt x y b) = leftDoor b.
Proof. unfold accumulate. destruct pt; simpl; congruence. Qed.

Lemma accumulate_other_right pt x y b :
  pt <> door_right -> rightDoor (accumulate pt x y b) = rightDoor b.
Proof. unfold accumulate. destruct pt; simpl; congruence. Qed.

Section LoopProofs.
Variable Math_sin : Q -> Q.
Variable Math_cos : Q -> Q.

(** What one turn that pushes an item does to the bounds. *)
Lemma carPoint_bounds isLightsOn s b p b' it :
  carPoint Math_sin Math_cos isLightsOn s b p = Some (b', it) ->
  item_part it = Some (part p) /\
  ((Qlt_bool 10 (depth it) = true /\
    b' = accumulate (part p) (screenX it) (screenY it) b) \/
   (Qlt_bool 10 (depth it) = false /\ b' = b)).
Proof.
  unfold carPoint. destruct (morphCulled _ _); [discriminate|].
  destruct (partMotion _ _ _ _ _) as [[px py] pz].
  match goal with
  | |- context [Qlt_bool 10 ?d] => destruct (Qlt_bool 10 d) eqn:E
  end; intros H; inversion H; subst; clear H;
    (split; [reflexivity|]); [left|right]; split; auto.
Qed.

Lemma carLoop_invariant (P : AllBounds -> list RenderItem -> Prop)
    isLightsOn s carPoints :
  (forall b l p b' it,
     p ∈ carPoints -> P b l ->
     carPoint Math_sin Math_cos isLightsOn s b p = Some (b', it) ->
     P b' (l ++ [it])) ->
  forall b l, P b l ->
  P (carLoop Math_sin Math_cos isLightsOn s carPoints b l).1
    (carLoop Math_sin Math_cos isLightsOn s carPoints b l).2.
Proof.
  induction carPoints as [|p rest IH]; intros Hstep b l HP; simpl;
    [exact HP|].
  assert (Hrest : forall b l q b' it,
    q ∈ rest -> P b l ->
    carPoint Math_sin Math_cos isLightsOn s b q = Some (b', it) ->
    P b' (l ++ [it])).
  { intros b0 l0 q b1 it Hq. apply Hstep. apply list_elem_of_further.
    exact Hq. }
  destruct (carPoint _ _ _ _ _ _) as [[b' it]|] eqn:E.
  - apply IH; [exact Hrest|].
    apply (Hstep b l p b' it); [apply list_elem_of_here|exact HP|exact E].
  - apply IH; [exact Hrest|exact HP].
Qed.
End LoopProofs.

(** X13.  A door none of whose points is in the frame keeps the reset
    bounds, and no click can land in them; before the first frame, and after
    a frame without car points, a click does nothing at all. *)
Theorem invisible_door_cannot_be_clicked (Math_sin Math_cos : Q -> Q)
    (isLightsOn : bool) (carPoints : list Point3D) (d : Draws) (s : Refs) :
  let b := boundsRef (frame_refs
                        (render Math_sin Math_cos isLightsOn carPoints d s)) in
  (Forall (fun p => part p <> door_left) carPoints ->
   leftDoor b = emptyBounds /\
   forall x y, inExpanded margin (leftDoor b) x y = false) /\
  (Forall (fun p => part p <> door_right) carPoints ->
   rightDoor b = emptyBounds /\
   forall x y, inExpanded margin (rightDoor b) x y = false) /\
  (carPoints = [] ->
   forall lights x y,
     resolveClick lights x y
       (frame_refs (render Math_sin Math_cos isLightsOn carPoints d s))
     = (frame_refs (render Math_sin Math_cos isLightsOn carPoints d s),
        mkEffects false false)) /\
  (forall a lights x y,
     resolveClick lights x y (initialRefs a)
     = (initialRefs a, mkEffects false false)).
Proof.
  cbv zeta. rewrite render_refs.
  assert (Hb0 : boundsRef (animate isLightsOn s)
                = mkAllBounds emptyBounds emptyBounds emptyBounds).
  { unfold animate. destruct (doorTargets isLightsOn s). reflexivity. }
  split; [|split; [|split]].
  - intros Hall.
    assert (Hl : leftDoor
      (carLoop Math_sin Math_cos isLightsOn (animate isLightsOn s) carPoints
               (boundsRef (animate isLightsOn s)) []).1 = emptyBounds).
    { apply (carLoop_invariant Math_sin Math_cos
               (fun b _ => leftDoor b = emptyBounds)).
      - intros b l p b' it Hp Hb Hc.
        rewrite Forall_forall in Hall. specialize (Hall p Hp).
        destruct (carPoint_bounds _ _ _ _ _ _ _ _ Hc)
          as (_ & [[_ ->]|[_ ->]]); [|exact Hb].
        rewrite accumulate_other_left by exact Hall. exact Hb.
      - rewrite Hb0. reflexivity. }
    simpl. rewrite Hl. split; [reflexivity|]. apply inExpanded_empty.
  - intros Hall.
    assert (Hl : rightDoor
      (carLoop Math_sin Math_cos isLightsOn (animate isLightsOn s) carPoints
               (boundsRef (animate isLightsOn s)) []).1 = emptyBounds).
    { apply (carLoop_invariant Math_sin Math_cos
               (fun b _ => rightDoor b = emptyBounds)).
      - intros b l p b' it Hp Hb Hc.
        rewrite Forall_forall in Hall. specialize (Hall p Hp).
        destruct (carPoint_bounds _ _ _ _ _ _ _ _ Hc)
          as (_ & [[_ ->]|[_ ->]]); [|exact Hb].
        rewrite accumulate_other_right by exact Hall. exact Hb.
      - rewrite Hb0. reflexivity. }
    simpl. rewrite Hl. split; [reflexivity|]. apply inExpanded_empty.
  - intros -> lights x y. simpl. rewrite Hb0. unfold resolveClick. simpl.
    rewrite !inExpanded_empty, inPlain_empty. reflexivity.
  - intros a lights x y. unfold resolveClick, initialRefs. simpl.
    rewrite !inExpanded_empty, inPlain_empty. reflexivity.
Qed.

(** X14.  After a frame every car point in front of the near plane
    ([depth > 10]) sits, at the screen position it is drawn at, inside the
    car box; a left-door point also inside the left-door box and a
    right-door point inside the right-door box.  So a click exactly on a
    drawn point always hits its box. *)
Theorem visible_points_inside_boxes (Math_sin Math_cos : Q -> Q)
    (isLightsOn : bool) (carPoints : list Point3D) (d : Draws) (s : Refs)
    (it : RenderItem) (pt : Part) :
  let f := render Math_sin Math_cos isLightsOn carPoints d s in
  let b := boundsRef (frame_refs f) in
  it ∈ frame_list f ->
  item_part it = Some pt ->
  10 < depth it ->
  inPlain (car b) (screenX it) (screenY it) = true /\
  (pt = door_left ->
   inPlain (leftDoor b) (screenX it) (screenY it) = true) /\
  (pt = door_right ->
   inPlain (rightDoor b) (screenX it) (screenY it) = true).
Proof.
  cbv zeta. rewrite render_refs, render_list. simpl.
  intros Hin Hpt Hdepth.
  rewrite sortRenderList_Permutation in Hin.
  apply elem_of_app in Hin. destruct Hin as [Hin|Hin].
  2:{ apply list_elem_of_fmap in Hin. destruct Hin as (p & -> & _).
      discriminate Hpt. }
  revert it pt Hin Hpt Hdepth.
  apply (carLoop_invariant Math_sin Math_cos
    (fun b l => forall it pt, it ∈ l -> item_part it = Some pt ->
       10 < depth it ->
       inPlain (car b) (screenX it) (screenY it) = true /\
       (pt = door_left ->
        inPlain (leftDoor b) (screenX it) (screenY it) = true) /\
       (pt = door_right ->
        inPlain (rightDoor b) (screenX it) (screenY it) = true))).
  - intros b l p b' it0 _ HP Hc it pt Hin Hpt Hdepth.
    destruct (carPoint_bounds _ _ _ _ _ _ _ _ Hc) as (Hpart & Hb).
    apply elem_of_app in Hin. destruct Hin as [Hin|Hin].
    + destruct (HP it pt Hin Hpt Hdepth) as (H1 & H2 & H3).
      destruct Hb as [[_ ->]|[_ ->]]; [|auto].
      destruct (accumulate_grows (part p) (screenX it0) (screenY it0) b)
        as (Gl & Gr & Gc).
      split; [exact (inPlain_within _ _ _ _ Gc H1)|].
      split; intros Hd.
      * exact (inPlain_within _ _ _ _ Gl (H2 Hd)).
      * exact (inPlain_within _ _ _ _ Gr (H3 Hd)).
    + apply list_elem_of_singleton in Hin. subst it0.
      assert (pt = part p) by congruence. subst pt.
      destruct Hb as [[_ ->]|[Hfar _]].
      * apply accumulate_contains.
      * apply AudioProofs.Qlt_bool_false in Hfar. exfalso. lra.
  - intros it pt Hin. apply elem_of_nil in Hin. destruct Hin.
Qed.

Lemma visible_points_inside_boxes_witness :
  inPlain
    (leftDoor (boundsRef (frame_refs
       (render (fun _ => 0) (fun _ => 1) false
               [mkPoint 0 0 0 "#fff" door_left 1 2 3 0]
               (mkDraws 0 0 0 0 0 0 0) (initialRefs 0)))))
    (screenX (PointItem 1.0 2.00 3.0 "#fff" 0 door_left))
    (screenY (PointItem 1.0 2.00 3.0 "#fff" 0 door_left)) = true.
Proof.
  refine (proj1 (proj2 (visible_points_inside_boxes (fun _ => 0) (fun _ => 1)
            false [mkPoint 0 0 0 "#fff" door_left 1 2 3 0]
            (mkDraws 0 0 0 0 0 0 0) (initialRefs 0)
            (PointItem 1.0 2.00 3.0 "#fff" 0 door_left) door_left _ _ _)) _).
  - replace (frame_list _)
      with [PointItem 1.0 2.00 3.0 "#fff" 0 door_left]
      by (vm_compute; reflexivity).
    apply list_elem_of_here.
  - reflexivity.
  - reflexivity.
  - reflexivity.
Defined.

(** *** Smoothing *)

(** X15.  A frame keeps the smoothed values in their ranges (morph and
    door values in [[0, 1]], hover height in [[0, 140]], given door targets
    in [[0, 1]]) and moves morph and hover towards their target without
    passing it: up with the lights on, down with the lights off. *)
Theorem smoothing_stays_in_range (Math_sin Math_cos : Q -> Q)
    (isLightsOn : bool) (carPoints : list Point3D) (d : Draws) (s : Refs) :
  let s' := frame_refs (render Math_sin Math_cos isLightsOn carPoints d s) in
  smooth_ranges s ->
  smooth_ranges s' /\
  (if isLightsOn
   then morphRef s <= morphRef s' /\ hoverYRef s <= hoverYRef s'
   else morphRef s' <= morphRef s /\ hoverYRef s' <= hoverYRef s).
Proof.
  cbv zeta. rewrite render_refs.
  unfold smooth_ranges, in_unit, animate, doorTargets.
  destruct isLightsOn; simpl; intros; intuition lra.
Qed.

Lemma smoothing_stays_in_range_witness :
  smooth_ranges
    (frame_refs (render (fun _ => 0) (fun _ => 1) true []
                        (mkDraws 0 0 0 0 0 0 0) sample_refs)).
Proof.
  apply (smoothing_stays_in_range (fun _ => 0) (fun _ => 1) true []
           (mkDraws 0 0 0 0 0 0 0) sample_refs).
  unfold smooth_ranges, in_unit. simpl. repeat split; discriminate.
Defined.



(** *** Particles *)

Lemma dark_frame_particles (Math_sin Math_cos : Q -> Q) carPoints d s :
  particlesRef (frame_refs (render Math_sin Math_cos false carPoints d s))
  = updateParticles (particlesRef s).
Proof.
  rewrite render_refs. unfold animate, doorTargets. reflexivity.
Qed.

Lemma frame_particles (Math_sin Math_cos : Q -> Q) lights carPoints d s :
  particlesRef (frame_refs (render Math_sin Math_cos lights carPoints d s))
  = updateParticles (spawn lights d (particlesRef s)).
Proof.
  rewrite render_refs. unfold animate.
  destruct (doorTargets lights s). reflexivity.
Qed.

Lemma updateParticles_alive ps :
  Forall (fun p => 0 < life p) (updateParticles ps).
Proof.
  apply Forall_forall. intros p Hp. unfold updateParticles in Hp.
  apply list_elem_of_In, filter_In in Hp. destruct Hp as [_ Hp].
  apply AudioProofs.Qlt_bool_iff. exact Hp.
Qed.

Lemma updateParticles_older top ps :
  Forall (fun p => life p <= top) ps ->
  Forall (fun p => life p <= top - 0.02) (updateParticles ps).
Proof.
  intros Hall. apply Forall_forall. intros p Hp. unfold updateParticles in Hp.
  apply list_elem_of_In, filter_In in Hp. destruct Hp as [Hp _].
  apply in_map_iff in Hp. destruct Hp as (q & <- & Hq).
  rewrite Forall_forall in Hall.
  specialize (Hall q (proj2 (list_elem_of_In _ _) Hq)). simpl. lra.
Qed.

(** X17.  With the lights off no particle is spawned and every particle
    loses 0.02 of life per frame, so an exhaust trail whose particles have
    life at most 1 is gone after 50 dark frames. *)
Theorem exhaust_clears (Math_sin Math_cos : Q -> Q)
    (carPoints : list Point3D) (ds : list Draws) (s : Refs) :
  Forall (fun p => life p <= 1) (particlesRef s) ->
  length ds = 50%nat ->
  particlesRef (frames Math_sin Math_cos carPoints (map (pair false) ds) s)
  = [].
Proof.
  intros Hall Hlen.
  assert (Hgen : forall ds s top,
    Forall (fun p => life p <= top) (particlesRef s) ->
    Forall (fun p => life p <= top - 0.02 * inject_Z (Z.of_nat (length ds)))
      (particlesRef
         (frames Math_sin Math_cos carPoints (map (pair false) ds) s)) /\
    (ds <> [] ->
     Forall (fun p => 0 < life p)
       (particlesRef
          (frames Math_sin Math_cos carPoints (map (pair false) ds) s)))).
  { clear. induction ds as [|d ds IH]; intros s top Hall.
    - cbn [map frames length]. split; [|congruence].
      eapply Forall_impl; [exact Hall|]. cbv beta. intros p Hp.
      change (inject_Z (Z.of_nat 0)) with 0. lra.
    - cbn [map frames length].
      pose proof (updateParticles_older top _ Hall) as Hold.
      rewrite <- (dark_frame_particles Math_sin Math_cos carPoints d s)
        in Hold.
      destruct (IH _ _ Hold) as [Hup Hpos]. split.
      + eapply Forall_impl; [exact Hup|]. cbv beta. intros p Hp.
        rewrite Nat2Z.inj_succ. unfold Z.succ. rewrite inject_Z_plus.
        change (inject_Z 1) with 1. lra.
      + intros _. destruct ds as [|d' ds'].
        * simpl. rewrite dark_frame_particles. apply updateParticles_alive.
        * apply Hpos. discriminate. }
  destruct (Hgen ds s 1 Hall) as [Hup Hpos].
  assert (Hne : ds <> []) by (destruct ds; [discriminate|discriminate]).
  specialize (Hpos Hne). rewrite Hlen in Hup.
  destruct (particlesRef
              (frames Math_sin Math_cos carPoints (map (pair false) ds) s))
    as [|p ps]; [reflexivity|].
  apply Forall_cons in Hup, Hpos. destruct Hup as [Hup _], Hpos as [Hp _].
  exfalso. revert Hup Hp. change (inject_Z (Z.of_nat 50)) with 50.
  intros Hup Hp. lra.
Qed.

Lemma exhaust_clears_witness :
  particlesRef
    (frames (fun _ => 0) (fun _ => 1) []
       (map (pair false) (repeat (mkDraws 0 0 0 0 0 0 0) 50))
       (set_frame [mkParticle (-110) 30 0 (-6) 0 0 1.0 1.0 "#f472b6" 1]
                  (boundsRef sample_refs) sample_refs))
  = [].
Proof.
  apply (exhaust_clears (fun _ => 0) (fun _ => 1) []
           (repeat (mkDraws 0 0 0 0 0 0 0) 50)).
  - simpl. constructor; [discriminate|constructor].
  - reflexivity.
Defined.

Lemma inject_nat_le (a b : nat) :
  (a <= b)%nat -> inject_Z (Z.of_nat a) <= inject_Z (Z.of_nat b).
Proof. intros H. rewrite <- Zle_Qle. lia. Qed.

Lemma budget_weaken top top' ps :
  top <= top' -> budget top ps -> budget top' ps.
Proof.
  intros Hle. induction ps as [|p rest IH]; simpl; [auto|].
  intros [Hp Hrest]. split; [lra|auto].
Qed.

Lemma budget_snoc ps p :
  budget 0.98 ps -> life p <= 1 -> budget 1 (ps ++ [p]).
Proof.
  intros Hb Hp. induction ps as [|q rest IH]; cbn [app budget length].
  - change (inject_Z (Z.of_nat 0)) with 0. split; [lra|exact I].
  - destruct Hb as [Hq Hrest]. split; [|auto].
    rewrite length_app. cbn [length]. rewrite Nat2Z.inj_add, inject_Z_plus.
    change (inject_Z (Z.of_nat 1)) with 1. lra.
Qed.

Lemma budget_age ps : budget 1 ps -> budget 0.98 (map age ps).
Proof.
  induction ps as [|p rest IH]; cbn [map budget]; [auto|].
  intros [Hp Hrest]. split; [|auto]. rewrite length_map. simpl. lra.
Qed.

Lemma budget_filter top f ps : budget top ps -> budget top (List.filter f ps).
Proof.
  induction ps as [|p rest IH]; cbn [List.filter budget]; [auto|].
  intros [Hp Hrest]. destruct (f p); [|auto]. cbn [budget].
  split; [|auto].
  pose proof (inject_nat_le _ _ (filter_length_le f rest)). lra.
Qed.

Lemma spawn_budget lights d ps : budget 0.98 ps -> budget 1 (spawn lights d ps).
Proof.
  intros Hb. unfold spawn.
  destruct (lights && Qlt_bool 0.3 (d_spawn d)).
  - apply budget_snoc; [exact Hb|]. simpl. apply Qle_bool_iff. reflexivity.
  - apply (budget_weaken 0.98); [discriminate|exact Hb].
Qed.

Lemma budget_bound ps :
  budget 0.98 ps -> Forall (fun p => 0 < life p) ps -> (length ps <= 49)%nat.
Proof.
  destruct ps as [|p rest]; [simpl; lia|].
  cbn [budget length]. intros [Hp _] Hall. apply Forall_cons in Hall.
  destruct Hall as [Hpos _].
  assert (Hq : inject_Z (Z.of_nat (length rest)) < inject_Z 49)
    by (change (inject_Z 49) with 49; lra).
  rewrite <- Zlt_Qlt in Hq. lia.
Qed.

(** X18.  From an empty pool, through any run of frames, whatever the lights
    and the draws, the particle pool never holds more than 49 particles and
    every particle in it has positive life. *)
Theorem particle_pool_bounded (Math_sin Math_cos : Q -> Q)
    (carPoints : list Point3D) (inputs : list (bool * Draws)) (s : Refs) :
  particlesRef s = [] ->
  (length (particlesRef (frames Math_sin Math_cos carPoints inputs s)) <= 49)%nat
  /\ Forall (fun p => 0 < life p)
       (particlesRef (frames Math_sin Math_cos carPoints inputs s)).
Proof.
  intros Hempty.
  assert (Hinv : budget 0.98 (particlesRef s) /\
                 Forall (fun p => 0 < life p) (particlesRef s))
    by (rewrite Hempty; split; [exact I|constructor]).
  clear Hempty. revert s Hinv.
  induction inputs as [|[lights d] rest IH]; intros s [Hb Hpos];
    cbn [frames].
  - split; [apply budget_bound; assumption|exact Hpos].
  - apply IH. rewrite frame_particles. split.
    + unfold updateParticles. apply budget_filter, budget_age, spawn_budget.
      exact Hb.
    + apply updateParticles_alive.
Qed.

Lemma particle_pool_bounded_witness :
  (length (particlesRef
     (frames (fun _ => 0%Q) (fun _ => 1%Q) []
        (repeat (true, mkDraws 1 0 0 0 0 0 0) 60) sample_refs)) <= 49)%nat.
Proof.
  apply (particle_pool_bounded (fun _ => 0) (fun _ => 1) []
           (repeat (true, mkDraws 1 0 0 0 0 0 0) 60) sample_refs).
  reflexivity.
Defined.

(** *** The sort keeps ties in order *)

Lemma at_z_insert z0 it l : at_z z0 (insert it l) = at_z z0 (it :: l).
Proof.
  unfold at_z. induction l as [|h t IH]; [reflexivity|].
  cbn [insert]. destruct (Qle_bool (item_z it) (item_z h)) eqn:E;
    [reflexivity|].
  cbn [List.filter] in *. rewrite IH.
  destruct (Qeq_bool (item_z it) z0) eqn:Ei; [|reflexivity].
  destruct (Qeq_bool (item_z h) z0) eqn:Eh; [|reflexivity].
  exfalso. apply Qeq_bool_iff in Ei, Eh.
  assert (Hle : item_z it <= item_z h) by (rewrite Ei, Eh; apply Qle_refl).
  apply Qle_bool_iff in Hle. congruence.
Qed.

(** X19.  The depth sort is stable: items with equal [z] keep the order in
    which they were pushed, so on a tie a car point is drawn before a
    particle and car points in the order of the point cloud. *)
Theorem sort_is_stable (z0 : Q) (l : list RenderItem) :
  at_z z0 (sortRenderList l) = at_z z0 l.
Proof.
  induction l as [|it l IH]; [reflexivity|].
  cbn [sortRenderList foldr]. fold (sortRenderList l).
  rewrite at_z_insert. unfold at_z in *. cbn [List.filter].
  rewrite IH. reflexivity.
Qed.

(** *** Parts at rest *)



(** *** The generator's jitter *)



End SceneExtra.

Module DiamondProofs.
Import Diamond.

(** *** Composing generator steps *)


Lemma adds_nothing (P : Point3D -> Prop) : adds P [] (fun g => g).
Proof.
  intros g. exists []. simpl. rewrite app_nil_r, Nat.add_0_r.
  repeat split; constructor.
Qed.

Lemma adds_compose (P : Point3D -> Prop) t1 t2 f1 f2 :
  adds P t1 f1 -> adds P t2 f2 -> adds P (t1 ++ t2) (fun g => f2 (f1 g)).
Proof.
  intros H1 H2 g.
  destruct (H1 g) as (n1 & A1 & B1 & C1 & D1 & E1).
  destruct (H2 (f1 g)) as (n2 & A2 & B2 & C2 & D2 & E2).
  rewrite D1 in C2, D2. exists (n1 ++ n2).
  split; [rewrite A2, A1, app_assoc; reflexivity|].
  split; [rewrite map_app, B1, B2; reflexivity|].
  split; [rewrite map_app, C1, C2, length_app, seq_app; reflexivity|].
  split; [rewrite D2, length_app; lia|].
  apply Forall_app. split; assumption.
Qed.

Lemma adds_fold {A : Type} (P : Point3D -> Prop) (step : A -> Gen -> Gen)
    (tf : A -> list PartType) (l : list A) :
  (forall a, a ∈ l -> adds P (tf a) (step a)) ->
  adds P (concat (map tf l)) (fun g => fold_left (fun g a => step a g) l g).
Proof.
  induction l as [|a l IH]; intros Hstep; simpl.
  - apply adds_nothing.
  - apply (adds_compose P (tf a) (concat (map tf l)) (step a)
             (fun g => fold_left (fun g a => step a g) l g)).
    + apply Hstep. apply list_elem_of_here.
    + apply IH. intros b Hb. apply Hstep. apply list_elem_of_further.
      exact Hb.
Qed.

Lemma concat_repeat_const {A : Type} (t : list PartType) (l : list A) :
  concat (map (fun _ => t) l) = concat (repeat t (length l)).
Proof. induction l as [|a l IH]; simpl; [reflexivity|]. rewrite IH. reflexivity. Qed.

Lemma concat_repeat_repeat (pt : PartType) (a b : nat) :
  concat (repeat (repeat pt a) b) = repeat pt (b * a).
Proof.
  induction b as [|b IH]; simpl; [reflexivity|].
  rewrite IH, repeat_app. reflexivity.
Qed.

Lemma pinks_at_some (r : Q) : 0 <= r -> r < 5 -> is_Some (pinks_at r).
Proof.
  intros H0 H5. unfold pinks_at.
  pose proof (Qfloor_le r) as Hle. pose proof (Qlt_floor r) as Hlt.
  assert (Hz : (0 <= Qfloor r < 5)%Z).
  { split.
    - apply Z.lt_succ_r. rewrite Zlt_Qlt.
      eapply Qle_lt_trans; [exact H0|]. exact Hlt.
    - rewrite Zlt_Qlt. eapply Qle_lt_trans; [exact Hle|exact H5]. }
  destruct (Qfloor r) as [|i|i]; [simpl; eauto| |lia].
  apply lookup_lt_is_Some. simpl. lia.
Qed.

Section GenProofs.
Variable Math_sin : Q -> Q.
Variable Math_cos : Q -> Q.
Variable Math_PI : Q.
Variable rand : nat -> Q.

Lemma addPoint_spec x0 y0 z0 pt c g :
  exists p,
    pts (addPoint rand x0 y0 z0 pt c g) = pts g ++ [p] /\
    idCounter (addPoint rand x0 y0 z0 pt c g) = S (idCounter g) /\
    (drawn g + 4 <= drawn (addPoint rand x0 y0 z0 pt c g) <= drawn g + 5)%nat /\
    id p = idCounter g /\ part p = pt /\
    (baseX p = x0 /\ baseY p = y0 /\ baseZ p = z0) /\
    (x p = x0 /\ y p = y0 /\ z p = z0) /\
    ((forall n, 0 <= rand n /\ rand n < 1) -> well_drawn p).
Proof.
  unfold addPoint. cbv zeta.
  set (override := match c with
                   | Some c0 => if String.eqb c0 EmptyString then None
                                else Some c0
                   | None => None
                   end).
  assert (Hwd : forall n col,
    is_Some col ->
    (forall k, 0 <= rand k /\ rand k < 1) ->
    well_drawn
      (mkPoint3D (idCounter g) x0 y0 z0 col (rand n * 2 + 1.5) pt x0 y0 z0
         (if Qlt_bool 0.5 (rand (S n)) then "animate-twinkle"
          else "animate-diamond-sparkle")
         (rand (S (S n)) * 5))).
  { intros n col Hcol Hr. unfold well_drawn. simpl.
    destruct (Hr n) as [A0 A1]. destruct (Hr (S (S n))) as [B0 B1].
    repeat split; try exact Hcol; lra. }
  assert (Hfive : (forall k, 0 <= rand k /\ rand k < 1) ->
                  is_Some (pinks_at (rand (S (drawn g)) *
                                     inject_Z (Z.of_nat (length pinks))))).
  { intros Hr. apply pinks_at_some; destruct (Hr (S (drawn g))) as [A0 A1];
      change (inject_Z (Z.of_nat (length pinks))) with 5; lra. }
  destruct override as [c0|]; [|destruct (Qlt_bool 0.8 (rand (drawn g)))];
    eexists;
    (split; [reflexivity|]); (split; [reflexivity|]);
    (split; [simpl; lia|]); (split; [reflexivity|]);
    (split; [reflexivity|]);
    (split; [simpl; auto|]); (split; [simpl; auto|]);
    intros Hr; apply Hwd; eauto.
Qed.

Lemma addPoint_adds (P : Point3D -> Prop) x0 y0 z0 pt c :
  (forall p, part p = pt ->
             baseX p = x0 /\ baseY p = y0 /\ baseZ p = z0 ->
             x p = x0 /\ y p = y0 /\ z p = z0 ->
             ((forall n, 0 <= rand n /\ rand n < 1) -> well_drawn p) -> P p) ->
  adds P [pt] (addPoint rand x0 y0 z0 pt c).
Proof.
  intros HP g.
  destruct (addPoint_spec x0 y0 z0 pt c g)
    as (p & H1 & H2 & _ & H3 & H4 & H5 & H6 & H7).
  exists [p]. simpl. rewrite H3, H4.
  split; [exact H1|]. split; [reflexivity|]. split; [reflexivity|].
  split; [rewrite H2; lia|].
  constructor; [|constructor]. apply HP; assumption.
Qed.

Lemma adds_same_points (P : Point3D -> Prop) tags f g0 n :
  adds P tags f ->
  exists new,
    pts (f (mkGen (pts g0) (idCounter g0) n)) = pts g0 ++ new /\
    map part new = tags /\
    map id new = seq (idCounter g0) (length tags) /\
    idCounter (f (mkGen (pts g0) (idCounter g0) n))
      = (idCounter g0 + length tags)%nat /\
    Forall P new.
Proof. intros Hf. exact (Hf (mkGen (pts g0) (idCounter g0) n)). Qed.


Lemma fillQuadPoint_tags p1 p2 p3 p4 density pt c i j :
  adds (fun _ => True) [pt] (fillQuadPoint rand p1 p2 p3 p4 density pt c i j).
Proof.
  intros g. unfold fillQuadPoint. cbv zeta.
  apply (adds_same_points _ [pt]
           (addPoint rand _ _ _ pt c) g (S (S (S (drawn g))))).
  apply addPoint_adds. auto.
Qed.

Lemma fillQuad_tags p1 p2 p3 p4 density pt c :
  adds (fun _ => True) (repeat pt (S density * S density))
       (fillQuad rand p1 p2 p3 p4 density pt c).
Proof.
  unfold fillQuad.
  pose proof (adds_fold (fun _ => True)
    (fun i g => fold_left
       (fun g j => fillQuadPoint rand p1 p2 p3 p4 density pt c i j g)
       (seq 0 (S density)) g)
    (fun _ => repeat pt (S density)) (seq 0 (S density))) as H.
  rewrite concat_repeat_const, length_seq, concat_repeat_repeat in H.
  apply H. intros i _.
  pose proof (adds_fold (fun _ => True)
    (fun j g => fillQuadPoint rand p1 p2 p3 p4 density pt c i j g)
    (fun _ => [pt]) (seq 0 (S density))) as Hin.
  rewrite concat_repeat_const, length_seq in Hin.
  change [pt] with (repeat pt 1) in Hin.
  rewrite concat_repeat_repeat, Nat.mul_1_r in Hin.
  apply Hin. intros j _. apply fillQuadPoint_tags.
Qed.

Lemma addWheelPoint_tags cx cz i :
  adds (fun _ => True)
       (if Nat.eqb (i `mod` 4) 0 then [wheel; wheel] else [wheel])
       (addWheelPoint Math_sin Math_cos Math_PI rand cx cz i).
Proof.
  unfold addWheelPoint. cbv zeta.
  destruct (Nat.eqb (i `mod` 4) 0).
  - apply (adds_compose (fun _ => True) [wheel] [wheel]);
      apply addPoint_adds; auto.
  - apply addPoint_adds. auto.
Qed.

Lemma addWheel_tags cx cz :
  adds (fun _ => True) (repeat wheel 50)
       (addWheel Math_sin Math_cos Math_PI rand cx cz).
Proof.
  unfold addWheel.
  pose proof (adds_fold (fun _ => True)
    (fun i g => addWheelPoint Math_sin Math_cos Math_PI rand cx cz i g)
    (fun i => if Nat.eqb (i `mod` 4) 0 then [wheel; wheel] else [wheel])
    (seq 0 40)) as H.
  apply H. intros i _. apply addWheelPoint_tags.
Qed.
End GenProofs.

Lemma built_step (P : Point3D -> Prop) tags t f g :
  built tags g -> adds P t f -> built (tags ++ t) (f g).
Proof.
  intros (H1 & H2 & H3) Hf.
  destruct (Hf g) as (new & A & B & C & D & _).
  unfold built. rewrite A, D, !map_app, H1, H2, B, C, H3, length_app, seq_app.
  auto.
Qed.

Section GridProofs.
Variable rand : nat -> Q.

End GridProofs.

(** *** The sort of [activePoints] *)

Lemma insertDesc_Permutation p l : insertDesc p l ≡ₚ p :: l.
Proof.
  induction l as [|h t IH]; simpl; [reflexivity|].
  destruct (Qle_bool _ _); [reflexivity|].
  rewrite IH. apply Permutation_swap.
Qed.

Lemma sortDesc_Permutation l : sortDesc l ≡ₚ l.
Proof.
  induction l as [|p l IH]; simpl; [reflexivity|].
  rewrite insertDesc_Permutation, IH. reflexivity.
Qed.

Lemma insertDesc_HdRel a p l :
  descending_z a p -> HdRel descending_z a l ->
  HdRel descending_z a (insertDesc p l).
Proof.
  intros Ha Hl. destruct l as [|h t]; simpl; [constructor; exact Ha|].
  destruct (Qle_bool _ _); constructor; [exact Ha|].
  inversion Hl; assumption.
Qed.

Lemma insertDesc_Sorted p l :
  Sorted descending_z l -> Sorted descending_z (insertDesc p l).
Proof.
  induction 1 as [|h t Ht IH Hh]; simpl; [repeat constructor|].
  destruct (Qle_bool (z h) (z p)) eqn:E.
  - constructor; [constructor; assumption|].
    constructor. apply Qle_bool_iff. exact E.
  - constructor; [exact IH|]. apply insertDesc_HdRel; [|exact Hh].
    unfold descending_z. apply Qlt_le_weak. apply Qnot_le_lt.
    intros Hle. apply Qle_bool_iff in Hle. congruence.
Qed.

Lemma sortDesc_StronglySorted l : StronglySorted descending_z (sortDesc l).
Proof.
  apply Sorted_StronglySorted.
  - intros a b c Hab Hbc. unfold descending_z in *.
    eapply Qle_trans; eauto.
  - induction l as [|p l IH]; simpl; [constructor|].
    apply insertDesc_Sorted. exact IH.
Qed.

(** ** Properties of the diamond car *)




(** X23.  Whatever the draws and the trigonometric values, the geometry has
    the same 1988 points: their parts, in order, are fixed (1006 body, 121
    glass, 225 rear, 218 per door, 200 wheel) and their ids are
    0, 1, ..., 1987, so no two points share a key. *)
Theorem points_are_fixed (Math_sin Math_cos : Q -> Q) (Math_PI : Q)
    (rand : nat -> Q) :
  map part (points Math_sin Math_cos Math_PI rand) = point_tags /\
  map id (points Math_sin Math_cos Math_PI rand) = seq 0 1988 /\
  length (points Math_sin Math_cos Math_PI rand) = 1988%nat /\
  NoDup (map id (points Math_sin Math_cos Math_PI rand)).
Proof.
  unfold points. cbv zeta.
  match goal with
  | |- map part (pts ?G) = _ /\ _ =>
      assert (Hb : exists tags, built tags G /\ tags = point_tags)
  end.
  { eexists. split.
    - repeat (eapply built_step;
              [|first [apply fillQuad_tags | apply addWheel_tags]]).
      unfold built, emptyGen. simpl. repeat split; reflexivity.
    - vm_compute. reflexivity. }
  destruct Hb as (tags & Hb & Ht). rewrite Ht in Hb.
  destruct Hb as (H1 & H2 & _).
  change (length point_tags) with 1988%nat in H2.
  split; [exact H1|]. split; [exact H2|]. split.
  - rewrite <- (length_map id), H2, length_seq. reflexivity.
  - rewrite H2. apply NoDup_seq.
Qed.



(** X26.  A click on a door or on the rear toggles that flag and no other;
    a click on body, wheel or glass changes nothing; the same click twice
    restores the flags. *)
Theorem handlePartClick_toggles (pt : PartType) (st : Flags) :
  handlePartClick pt (handlePartClick pt st) = st /\
  match pt with
  | doorL =>
      handlePartClick pt st
      = mkFlags (negb (doorLOpen st)) (doorROpen st) (rearOpen st)
  | doorR =>
      handlePartClick pt st
      = mkFlags (doorLOpen st) (negb (doorROpen st)) (rearOpen st)
  | rear =>
      handlePartClick pt st
      = mkFlags (doorLOpen st) (doorROpen st) (negb (rearOpen st))
  | body | wheel | glass => handlePartClick pt st = st
  end.
Proof.
  destruct st as [l r t]. destruct pt; simpl; rewrite ?negb_involutive; auto.
Qed.

(** X27.  [activePoints] holds every point of the geometry exactly once,
    with its id, part, colour, size and base position unchanged, in
    descending order of the rotated [z]. *)
Theorem activePoints_sorted (Math_sin Math_cos : Q -> Q) (Math_PI : Q)
    (ps : list Point3D) (angle : Q) (st : Flags) :
  let a := activePoints Math_sin Math_cos Math_PI ps angle st in
  a ≡ₚ map (activePoint Math_sin Math_cos Math_PI angle st) ps /\
  map id a ≡ₚ map id ps /\
  length a = length ps /\
  StronglySorted descending_z a /\
  Forall (fun p =>
    let q := activePoint Math_sin Math_cos Math_PI angle st p in
    id q = id p /\ part q = part p /\ color q = color p /\
    size q = size p /\
    baseX q = baseX p /\ baseY q = baseY p /\ baseZ q = baseZ p) ps.
Proof.
  cbv zeta. unfold activePoints.
  pose proof (sortDesc_Permutation
                (map (activePoint Math_sin Math_cos Math_PI angle st) ps))
    as Hperm.
  split; [exact Hperm|]. split; [|split; [|split]].
  - rewrite Hperm, map_map. reflexivity.
  - rewrite Hperm, length_map. reflexivity.
  - apply sortDesc_StronglySorted.
  - apply Forall_forall. intros p _. unfold activePoint, set_xyz. simpl.
    auto 10.
Qed.

End DiamondProofs.
